(** * prometheus-mssql-exporter: the scrape orchestrator and its catalogue

    A shallow embedding of [src/index.js] (both revisions of the
    orchestrator, and the configuration read at start-up), of the collector
    catalogue [getMetrics] and of [mssql_volume_stats] as the earlier
    catalogue [src/metrics.js] has it, with the properties of the design
    document stated over it, followed by further properties of the code.

    The program only ever _writes_ to the metric registry while a scrape
    runs; the registry is read once, when the response is rendered.  A run
    is therefore modelled by its chronological trace of effects, and the
    registry after the run is the replay of the [GaugeSet] effects of that
    trace over the registry before it. *)

From stdpp Require Import base strings list gmap pretty.


(** ** JavaScript values that can occur in a recordset cell or a label *)

(** Numeric cells are represented by their integer value; [NaN] is the one
    non-integer number the catalogue itself can produce (unary plus).  The
    program performs no arithmetic on cells. *)
Inductive JsValue : Type :=
  | Undefined
  | Null
  | Bool (b : bool)
  | Number (z : Z)
  | NaN
  | Str (s : string).

#[global] Instance JsValue_eq_dec : EqDecision JsValue.
Proof. solve_decision. Defined.

Inductive Exn : Type :=
  | TypeError (msg : string)
  | ReferenceError (msg : string)
  | Error (msg : string).

#[global] Instance Exn_eq_dec : EqDecision Exn.
Proof. solve_decision. Defined.

(** [typeof v === 'number'] *)
Definition typeof_number (v : JsValue) : bool :=
  match v with
  | Number _ | NaN => true
  | _ => false
  end.

(** [ToString], as used by [+] with a string operand. *)
Definition ToString (v : JsValue) : string :=
  match v with
  | Undefined => "undefined"
  | Null => "null"
  | Bool true => "true"
  | Bool false => "false"
  | Number z => pretty z
  | NaN => "NaN"
  | Str s => s
  end.

(** A row in [arrayRowMode] is an array of cells; [row[j]] past the end is
    [undefined]. *)
Definition Row : Type := list JsValue.
Definition Rows : Type := list Row.

Definition cell (row : Row) (j : nat) : JsValue := nth j row Undefined.

(** An object literal of label values, in the order it is written. *)
Definition Labels : Type := list (string * JsValue).

(** ** Collaborators that are not part of the sources

    The metric library (prom-client) with its renderer, the helper module
    [./utils] and the number parser of the language are outside [src/];
    they are taken as parameters.  [accepts] is the argument check of [Gauge.set]: every
    release accepts a finite number, and releases differ on the rest. *)
Record Externals : Type := {
  accepts : JsValue → bool;
  accepts_finite : ∀ z, accepts (Number z) = true;
  (** [StringToNumber] of the language; [None] is [NaN]. *)
  StringToNumber : string → option Z;
  (** [productVersionParse(cell)]: the fields [major] and [minor] of the
      object it returns, or the exception it raises. *)
  productVersionParse : JsValue → Exn + (JsValue * JsValue);
  (** [client.register.metrics()]: the exposition text of a registry. *)
  render : gmap string (list (Labels * JsValue)) → string;
}.

(** ** Effects and the trace *)

Inductive Effect : Type :=
  (** [debug(ns)(...)]: appLog, dbLog, queriesLog, metricsLog *)
  | Debug (ns : string) (msg : string)
  (** [console.error(msg, ..., error)] *)
  | ConsoleError (msg : string) (cause : option Exn)
  (** a call of [Gauge.set] that passed the library's checks *)
  | GaugeSet (metric : string) (labels : Labels) (value : JsValue)
  (** [resolve()] of the promise built by [measure] *)
  | Resolve
  (** [pool.connect()] is called *)
  | Connect
  (** the promise of [pool.connect()] settles *)
  | Connected
  | ConnectFailed (cause : Exn)
  (** [connection.request().query(sql)] is called *)
  | Query (sql : string)
  (** the promise of that query settles *)
  | Recordset (rows : Rows)
  | QueryFailed (cause : Exn)
  (** [connection.close()] is called *)
  | Close
  (** [res.send(body)] *)
  | Send (body : string).

#[global] Instance Effect_eq_dec : EqDecision Effect.
Proof. solve_decision. Defined.

(** On whose behalf an effect happens: the request handler itself, the
    branch of target number [i] of [config.connectStrings], or the
    [measure] of one catalogue entry on that target. *)
Inductive Actor : Type :=
  | Handler
  | OnTarget (i : nat)
  | OnTask (i : nat) (name : string).

#[global] Instance Actor_eq_dec : EqDecision Actor.
Proof. solve_decision. Defined.

Abbreviation Event := (Actor * Effect)%type.
Abbreviation Trace := (list Event).

(** ** Synchronous code: effects so far, then a value or an exception *)

Definition M (A : Type) : Type := list Effect * (Exn + A).

Definition ret {A} (a : A) : M A := ([], inr a).
Definition throw {A} (e : Exn) : M A := ([], inl e).
Definition emit (e : Effect) : M unit := ([e], inr tt).

Definition bind {A B} (m : M A) (f : A → M B) : M B :=
  match m with
  | (l, inl e) => (l, inl e)
  | (l, inr a) => let '(l', r) := f a in (l ++ l', r)
  end.

(** [try { m } catch (error) { h error }] *)
Definition try_catch {A} (m : M A) (h : Exn → M A) : M A :=
  match m with
  | (l, inl e) => let '(l', r) := h e in (l ++ l', r)
  | (l, inr a) => (l, inr a)
  end.

Definition effects {A} (m : M A) : list Effect := fst m.
Definition result {A} (m : M A) : Exn + A := snd m.

Declare Scope js_scope.
Delimit Scope js_scope with js.
Notation "x <- m ;; k" := (bind m (λ x, k))
  (at level 100, m at next level, right associativity) : js_scope.
Notation "m ;; k" := (bind m (λ _, k))
  (at level 100, right associativity) : js_scope.
Open Scope js_scope.

(** [for (let i = 0; i < rows.length; i++) { const row = rows[i]; ... }] *)
Fixpoint for_rows (rows : Rows) (body : Row → M unit) : M unit :=
  match rows with
  | [] => ret tt
  | row :: rest => body row ;; for_rows rest body
  end.

(** [rows[0]]: the first row, [undefined] when there is none; indexing
    [undefined] raises. *)
Definition first_row (rows : Rows) : M Row :=
  match rows with
  | row :: _ => ret row
  | [] => throw (TypeError "Cannot read properties of undefined (reading '0')")
  end.

(** [v.p] for a property [p] that no wrapper prototype defines. *)
Definition get_property (v : JsValue) (p : string) : M JsValue :=
  match v with
  | Undefined | Null =>
      throw (TypeError ("Cannot read properties of " +:+ ToString v +:+
                        " (reading '" +:+ p +:+ "')"))
  | _ => ret Undefined
  end.

(** ** The metric library: gauges and the registry *)

Module Gauge.
Record t : Type := {
  name : string;
  help : string;
  labelNames : list string;
}.

(** [Gauge.prototype.set(labels, value)]: the value check, the check
    that every label supplied was declared, then the overwrite. *)
Definition set (ext : Externals) (g : t) (labels : Labels)
    (value : JsValue) : M unit :=
  if negb (accepts ext value) then
    throw (TypeError ("Value is not a valid number: " +:+ ToString value))
  else if negb (forallb (λ l, bool_decide (l.1 ∈ labelNames g)) labels) then
    throw (Error "Added label is not included in initial labelset")
  else emit (GaugeSet (name g) labels value).
End Gauge.

(** The [metrics] object of a collector: property name to gauge. *)
Definition Metrics : Type := list (string * Gauge.t).

Fixpoint assoc {A} (k : string) (l : list (string * A)) : option A :=
  match l with
  | [] => None
  | (k', a) :: rest => if decide (k = k') then Some a else assoc k rest
  end.

(** [metrics.key.set(labels, value)] *)
Definition set_metric (ext : Externals) (metrics : Metrics) (key : string)
    (labels : Labels) (value : JsValue) : M unit :=
  match assoc key metrics with
  | Some g => Gauge.set ext g labels value
  | None => throw (TypeError "Cannot read properties of undefined (reading 'set')")
  end.

(** Modelled from the spec: the value table of an instrument, "a mapping
    from a concrete label-value tuple to the last observed numeric value",
    where "setting a value for a tuple overwrites any previous value for
    that exact tuple".  The table keeps the order in which tuples were
    first set, which is the order the renderer walks it in. *)
Definition Series : Type := list (Labels * JsValue).

Fixpoint series_set (l : Labels) (v : JsValue) (s : Series) : Series :=
  match s with
  | [] => [(l, v)]
  | (l', v') :: rest =>
      if decide (l = l') then (l, v) :: rest else (l', v') :: series_set l v rest
  end.

Fixpoint series_get (l : Labels) (s : Series) : option JsValue :=
  match s with
  | [] => None
  | (l', v') :: rest => if decide (l = l') then Some v' else series_get l rest
  end.

(** The registry: metric name to value table.  A metric without an entry
    has an empty table. *)
Abbreviation MetricSpace := (gmap string Series).

Definition table (ms : MetricSpace) (metric : string) : Series :=
  default [] (ms !! metric).

Definition observe (ms : MetricSpace) (metric : string) (l : Labels) : option JsValue :=
  series_get l (table ms metric).

Definition record (metric : string) (l : Labels) (v : JsValue)
    (ms : MetricSpace) : MetricSpace :=
  <[metric := series_set l v (table ms metric)]> ms.

Definition apply_effect (ms : MetricSpace) (e : Effect) : MetricSpace :=
  match e with
  | GaugeSet metric l v => record metric l v ms
  | _ => ms
  end.

(** The registry after the effects of a trace, oldest first. *)
Definition replay (tr : Trace) (ms : MetricSpace) : MetricSpace :=
  foldl (λ ms ev, apply_effect ms ev.2) ms tr.

(** ** Language operators used by the catalogue *)

(** [ToNumber], the unary plus. *)
Definition ToNumber (ext : Externals) (v : JsValue) : JsValue :=
  match v with
  | Undefined => NaN
  | Null => Number 0
  | Bool true => Number 1
  | Bool false => Number 0
  | Number z => Number z
  | NaN => NaN
  | Str s => match StringToNumber ext s with Some z => Number z | None => NaN end
  end.

(** [a + b]: concatenation as soon as one operand is a string. *)
Definition js_add (a b : JsValue) : JsValue :=
  match a, b with
  | Str _, _ | _, Str _ => Str (ToString a +:+ ToString b)
  | _, _ =>
      let num v := match v with
                   | Null | Bool false => Some 0%Z
                   | Bool true => Some 1%Z
                   | Number z => Some z
                   | _ => None
                   end in
      match num a, num b with
      | Some x, Some y => Number (x + y)
      | _, _ => NaN
      end
  end.

(** A call of a helper that returns or raises. *)
Definition call {A} (r : Exn + A) : M A := ([], r).

(** The positional argument [k] of a call; a missing one is [undefined]. *)
Definition arg (args : list JsValue) (k : nat) : JsValue := nth k args Undefined.

Definition metricsLog (msg : string) : M unit := emit (Debug "metrics" msg).

(** ** The catalogue, [getMetrics] *)

Module Collector.
(** [collect] receives the recordset, the collector's own [metrics]
    object, and whatever further arguments the caller supplies. *)
Record t : Type := {
  metrics : Metrics;
  query : string;
  collect : Rows → Metrics → list JsValue → M unit;
}.
End Collector.

Section Catalogue.
Context (ext : Externals).

Definition mssql_up : Collector.t := {|
  Collector.metrics := [
    ("mssql_up", {| Gauge.name := "mssql_up";
        Gauge.help := "UP Status";
        Gauge.labelNames := ["host"] |})
  ];
  Collector.query := "SELECT 1";
  Collector.collect := λ rows metrics args,
    let host := arg args 0 in
    row0 <- first_row rows ;;
    let mssql_up := cell row0 0 in
    metricsLog "Fetched status of instance" ;;
    set_metric ext metrics "mssql_up" [("host", host)] mssql_up
|}.

Definition mssql_product_version : Collector.t := {|
  Collector.metrics := [
    ("mssql_product_version", {| Gauge.name := "mssql_product_version";
        Gauge.help := "Instance version (Major.Minor)";
        Gauge.labelNames := ["host"] |})
  ];
  Collector.query := "SELECT CONVERT(VARCHAR(128), SERVERPROPERTY ('productversion')) AS ProductVersion,
          SERVERPROPERTY('ProductVersion') AS ProductVersion
        ";
  Collector.collect := λ rows metrics args,
    let host := arg args 0 in
    row0 <- first_row rows ;;
    v <- call (productVersionParse ext (cell row0 0)) ;;
    let mssql_product_version := js_add (js_add v.1 (Str ".")) v.2 in
    metricsLog "Fetched version of instance" ;;
    set_metric ext metrics "mssql_product_version" [("host", host)] mssql_product_version
|}.

Definition mssql_instance_local_time : Collector.t := {|
  Collector.metrics := [
    ("mssql_instance_local_time", {| Gauge.name := "mssql_instance_local_time";
        Gauge.help := "Number of seconds since epoch on local instance";
        Gauge.labelNames := ["host"] |})
  ];
  Collector.query := "SELECT DATEDIFF(second, '19700101', GETUTCDATE())";
  Collector.collect := λ rows metrics args,
    let host := arg args 0 in
    row0 <- first_row rows ;;
    let mssql_instance_local_time := cell row0 0 in
    metricsLog "Fetched current time" ;;
    set_metric ext metrics "mssql_instance_local_time" [("host", host)] mssql_instance_local_time
|}.

Definition mssql_connections : Collector.t := {|
  Collector.metrics := [
    ("mssql_connections", {| Gauge.name := "mssql_connections";
        Gauge.help := "Number of active connections";
        Gauge.labelNames := ["host"; "database"; "state"] |})
  ];
  Collector.query := "SELECT DB_NAME(sP.dbid)
                 , COUNT(sP.spid)
            FROM sys.sysprocesses sP
            GROUP BY DB_NAME(sP.dbid)";
  Collector.collect := λ rows metrics args,
    let host := arg args 0 in
    for_rows rows (λ row,
      let database := cell row 0 in
      let mssql_connections := cell row 1 in
      metricsLog "Fetched number of connections for database" ;;
      set_metric ext metrics "mssql_connections"
        [("host", host); ("database", database); ("state", Str "current")] mssql_connections)
|}.

Definition mssql_client_connections : Collector.t := {|
  Collector.metrics := [
    ("mssql_client_connections", {| Gauge.name := "mssql_client_connections";
        Gauge.help := "Number of active client connections";
        Gauge.labelNames := ["host"; "client"; "database"] |})
  ];
  Collector.query := "SELECT host_name, DB_NAME(dbid) dbname, COUNT(*) session_count
            FROM sys.dm_exec_sessions a
                     LEFT JOIN sysprocesses b on a.session_id = b.spid
            WHERE is_user_process = 1
            GROUP BY host_name, dbid";
  Collector.collect := λ rows metrics args,
    let host := arg args 0 in
    for_rows rows (λ row,
      let client := cell row 0 in
      let database := cell row 1 in
      let mssql_client_connections := cell row 2 in
      metricsLog "Fetched number of connections for client" ;;
      set_metric ext metrics "mssql_client_connections"
        [("host", host); ("client", client); ("database", database)] mssql_client_connections)
|}.

Definition mssql_deadlocks : Collector.t := {|
  Collector.metrics := [
    ("mssql_deadlocks_per_second", {| Gauge.name := "mssql_deadlocks";
        Gauge.help := "Number of lock requests per second that resulted in a deadlock since last restart";
        Gauge.labelNames := ["host"] |})
  ];
  Collector.query := "SELECT cntr_value
            FROM sys.dm_os_performance_counters
            WHERE counter_name = 'Number of Deadlocks/sec'
              AND instance_name = '_Total'";
  Collector.collect := λ rows metrics args,
    let host := arg args 0 in
    row0 <- first_row rows ;;
    let mssql_deadlocks := cell row0 0 in
    metricsLog "Fetched number of deadlocks/sec" ;;
    set_metric ext metrics "mssql_deadlocks_per_second" [("host", host)] mssql_deadlocks
|}.

Definition mssql_user_errors : Collector.t := {|
  Collector.metrics := [
    ("mssql_user_errors", {| Gauge.name := "mssql_user_errors";
        Gauge.help := "Number of user errors/sec since last restart";
        Gauge.labelNames := ["host"] |})
  ];
  Collector.query := "SELECT cntr_value
            FROM sys.dm_os_performance_counters
            WHERE counter_name = 'Errors/sec'
              AND instance_name = 'User Errors'";
  Collector.collect := λ rows metrics args,
    let host := arg args 0 in
    row0 <- first_row rows ;;
    let mssql_user_errors := cell row0 0 in
    metricsLog "Fetched number of user errors/sec" ;;
    set_metric ext metrics "mssql_user_errors" [("host", host)] mssql_user_errors
|}.

Definition mssql_kill_connection_errors : Collector.t := {|
  Collector.metrics := [
    ("mssql_kill_connection_errors", {| Gauge.name := "mssql_kill_connection_errors";
        Gauge.help := "Number of kill connection errors/sec since last restart";
        Gauge.labelNames := ["host"] |})
  ];
  Collector.query := "SELECT cntr_value
            FROM sys.dm_os_performance_counters
            WHERE counter_name = 'Errors/sec'
              AND instance_name = 'Kill Connection Errors'";
  Collector.collect := λ rows metrics args,
    let host := arg args 0 in
    row0 <- first_row rows ;;
    let mssql_kill_connection_errors := cell row0 0 in
    metricsLog "Fetched number of kill connection errors/sec" ;;
    set_metric ext metrics "mssql_kill_connection_errors" [("host", host)] mssql_kill_connection_errors
|}.

Definition mssql_database_state : Collector.t := {|
  Collector.metrics := [
    ("mssql_database_state", {| Gauge.name := "mssql_database_state";
        Gauge.help := "Databases states: 0=ONLINE 1=RESTORING 2=RECOVERING 3=RECOVERY_PENDING 4=SUSPECT 5=EMERGENCY 6=OFFLINE 7=COPYING 10=OFFLINE_SECONDARY";
        Gauge.labelNames := ["host"; "database"] |})
  ];
  Collector.query := "SELECT name, state
            FROM master.sys.databases";
  Collector.collect := λ rows metrics args,
    let host := arg args 0 in
    for_rows rows (λ row,
      let database := cell row 0 in
      let mssql_database_state := cell row 1 in
      metricsLog "Fetched state for database" ;;
      set_metric ext metrics "mssql_database_state"
        [("host", host); ("database", database)] mssql_database_state)
|}.

Definition mssql_log_growths : Collector.t := {|
  Collector.metrics := [
    ("mssql_log_growths", {| Gauge.name := "mssql_log_growths";
        Gauge.help := "Total number of times the transaction log for the database has been expanded last restart";
        Gauge.labelNames := ["host"; "database"] |})
  ];
  Collector.query := "SELECT rtrim(instance_name), cntr_value
            FROM sys.dm_os_performance_counters
            WHERE counter_name = 'Log Growths'
              and instance_name <> '_Total'";
  Collector.collect := λ rows metrics args,
    let host := arg args 0 in
    for_rows rows (λ row,
      let database := cell row 0 in
      let mssql_log_growths := cell row 1 in
      metricsLog "Fetched number log growths for database" ;;
      set_metric ext metrics "mssql_log_growths"
        [("host", host); ("database", database)] mssql_log_growths)
|}.

Definition mssql_database_filesize : Collector.t := {|
  Collector.metrics := [
    ("mssql_database_filesize", {| Gauge.name := "mssql_database_filesize";
        Gauge.help := "Physical sizes of files used by database in KB, their names and types (0=rows, 1=log, 2=filestream,3=n/a 4=fulltext(before v2008 of MSSQL))";
        Gauge.labelNames := ["host"; "database"; "logicalname"; "type"; "filename"] |})
  ];
  Collector.query := "SELECT DB_NAME(database_id) AS    database_name,
                   name                 AS    logical_name,
                   type,
                   physical_name,
                   (size * CAST(8 AS BIGINT)) size_kb
            FROM sys.master_files";
  Collector.collect := λ rows metrics args,
    let host := arg args 0 in
    for_rows rows (λ row,
      let database := cell row 0 in
      let logicalname := cell row 1 in
      let type := cell row 2 in
      let filename := cell row 3 in
      let mssql_database_filesize := cell row 4 in
      metricsLog "Fetched size of files for database " ;;
      set_metric ext metrics "mssql_database_filesize"
        [("host", host); ("database", database); ("logicalname", logicalname); ("type", type); ("filename", filename)] mssql_database_filesize)
|}.

Definition mssql_buffer_manager : Collector.t := {|
  Collector.metrics := [
    ("mssql_page_read_total", {| Gauge.name := "mssql_page_read_total";
        Gauge.help := "Page reads/sec";
        Gauge.labelNames := ["host"] |});
    ("mssql_page_write_total", {| Gauge.name := "mssql_page_write_total";
        Gauge.help := "Page writes/sec";
        Gauge.labelNames := ["host"] |});
    ("mssql_page_life_expectancy", {| Gauge.name := "mssql_page_life_expectancy";
        Gauge.help := "Indicates the minimum number of seconds a page will stay in the buffer pool on this node without references. The traditional advice from Microsoft used to be that the PLE should remain above 300 seconds";
        Gauge.labelNames := ["host"] |});
    ("mssql_lazy_write_total", {| Gauge.name := "mssql_lazy_write_total";
        Gauge.help := "Lazy writes/sec";
        Gauge.labelNames := ["host"] |});
    ("mssql_page_checkpoint_total", {| Gauge.name := "mssql_page_checkpoint_total";
        Gauge.help := "Checkpoint pages/sec";
        Gauge.labelNames := ["host"] |})
  ];
  Collector.query := "SELECT *
            FROM (SELECT rtrim(counter_name) as counter_name, cntr_value
                  FROM sys.dm_os_performance_counters
                  WHERE counter_name in
                        ('Page reads/sec', 'Page writes/sec', 'Page life expectancy', 'Lazy writes/sec',
                         'Checkpoint pages/sec')
                    AND object_name = 'SQLServer:Buffer Manager') d PIVOT
                     (
                     MAX(cntr_value)
                     FOR counter_name IN ([Page reads/sec], [Page writes/sec], [Page life expectancy], [Lazy writes/sec], [Checkpoint pages/sec])
                     ) piv
    ";
  Collector.collect := λ rows metrics args,
    let host := arg args 0 in
    row <- first_row rows ;;
    let page_read := cell row 0 in
    let page_write := cell row 1 in
    let page_life_expectancy := cell row 2 in
    let lazy_write_total := cell row 3 in
    let page_checkpoint_total := cell row 4 in
    metricsLog "Fetched the Buffer Manager" ;;
    set_metric ext metrics "mssql_page_read_total" [("host", host)] page_read ;;
    set_metric ext metrics "mssql_page_write_total" [("host", host)] page_write ;;
    set_metric ext metrics "mssql_page_life_expectancy" [("host", host)] page_life_expectancy ;;
    set_metric ext metrics "mssql_page_checkpoint_total" [("host", host)] page_checkpoint_total ;;
    set_metric ext metrics "mssql_lazy_write_total" [("host", host)] lazy_write_total
|}.

Definition mssql_io_stall : Collector.t := {|
  Collector.metrics := [
    ("mssql_io_stall", {| Gauge.name := "mssql_io_stall";
        Gauge.help := "Wait time (ms) of stall since last restart";
        Gauge.labelNames := ["host"; "database"; "type"] |});
    ("mssql_io_stall_total", {| Gauge.name := "mssql_io_stall_total";
        Gauge.help := "Wait time (ms) of stall since last restart";
        Gauge.labelNames := ["host"; "database"] |})
  ];
  Collector.query := "SELECT cast(DB_Name(a.database_id) as varchar) as name,
                   sum(io_stall_read_ms) as io_stall_read_ms,
                   sum(io_stall_write_ms) as io_stall_write_ms,
                   sum(io_stall) as io_stall,
                   sum(io_stall_queued_read_ms) as io_stall_queued_read_ms,
                   sum(io_stall_queued_write_ms) as io_stall_queued_write_ms,
                   sum(io_stall_read_ms) / sum(num_of_reads) as io_stall_read_ms_avg,
                   sum(io_stall_write_ms) / sum(num_of_writes) as io_stall_write_ms_avg
            FROM sys.dm_io_virtual_file_stats(null, null) a
                     INNER JOIN sys.master_files b ON a.database_id = b.database_id AND a.file_id = b.file_id
            WHERE b.[type] = 0 /* only rows file */
            GROUP BY a.database_id
    ";
  Collector.collect := λ rows metrics args,
    let host := arg args 0 in
    for_rows rows (λ row,
      let database := cell row 0 in
      let read := cell row 1 in
      let write := cell row 2 in
      let stall := cell row 3 in
      let queued_read := cell row 4 in
      let queued_write := cell row 5 in
      let avg_read := cell row 6 in
      let avg_write := cell row 7 in
      metricsLog "Fetched number of stalls for database" ;;
      set_metric ext metrics "mssql_io_stall_total"
        [("host", host); ("database", database)] stall ;;
      set_metric ext metrics "mssql_io_stall"
        [("host", host); ("database", database); ("type", Str "read")] read ;;
      set_metric ext metrics "mssql_io_stall"
        [("host", host); ("database", database); ("type", Str "write")] write ;;
      set_metric ext metrics "mssql_io_stall"
        [("host", host); ("database", database); ("type", Str "queued_read")] queued_read ;;
      set_metric ext metrics "mssql_io_stall"
        [("host", host); ("database", database); ("type", Str "queued_write")] queued_write ;;
      set_metric ext metrics "mssql_io_stall"
        [("host", host); ("database", database); ("type", Str "avg_read")] avg_read ;;
      set_metric ext metrics "mssql_io_stall"
        [("host", host); ("database", database); ("type", Str "avg_write")] avg_write)
|}.

Definition mssql_batch_requests : Collector.t := {|
  Collector.metrics := [
    ("mssql_batch_requests", {| Gauge.name := "mssql_batch_requests";
        Gauge.help := "Number of Transact-SQL command batches received per second. This statistic is affected by all constraints (such as I/O, number of users, cachesize, complexity of requests, and so on). High batch requests mean good throughput";
        Gauge.labelNames := ["host"] |})
  ];
  Collector.query := "SELECT TOP 1 cntr_value
            FROM sys.dm_os_performance_counters
            WHERE counter_name = 'Batch Requests/sec'";
  Collector.collect := λ rows metrics args,
    let host := arg args 0 in
    for_rows rows (λ row,
      let mssql_batch_requests := cell row 0 in
      metricsLog "Fetched number of batch requests per second" ;;
      set_metric ext metrics "mssql_batch_requests"
        [("host", host)] mssql_batch_requests)
|}.

Definition mssql_transactions : Collector.t := {|
  Collector.metrics := [
    ("mssql_transactions", {| Gauge.name := "mssql_transactions";
        Gauge.help := "Number of transactions started for the database per second. Transactions/sec does not count XTP-only transactions (transactions started by a natively compiled stored procedure.)";
        Gauge.labelNames := ["host"; "database"] |})
  ];
  Collector.query := "SELECT rtrim(instance_name), cntr_value
            FROM sys.dm_os_performance_counters
            WHERE counter_name = 'Transactions/sec'
              AND instance_name <> '_Total'";
  Collector.collect := λ rows metrics args,
    let host := arg args 0 in
    for_rows rows (λ row,
      let database := cell row 0 in
      let transactions := cell row 1 in
      metricsLog "Fetched number of transactions per second" ;;
      set_metric ext metrics "mssql_transactions"
        [("host", host); ("database", database)] transactions)
|}.

Definition mssql_os_process_memory : Collector.t := {|
  Collector.metrics := [
    ("mssql_page_fault_count", {| Gauge.name := "mssql_page_fault_count";
        Gauge.help := "Number of page faults since last restart";
        Gauge.labelNames := ["host"] |});
    ("mssql_memory_utilization_percentage", {| Gauge.name := "mssql_memory_utilization_percentage";
        Gauge.help := "Percentage of memory utilization";
        Gauge.labelNames := ["host"] |})
  ];
  Collector.query := "SELECT page_fault_count, memory_utilization_percentage
            FROM sys.dm_os_process_memory";
  Collector.collect := λ rows metrics args,
    let host := arg args 0 in
    row0 <- first_row rows ;;
    let page_fault_count := cell row0 0 in
    row0 <- first_row rows ;;
    let memory_utilization_percentage := cell row0 1 in
    metricsLog "Fetched page fault count" ;;
    set_metric ext metrics "mssql_page_fault_count" [("host", host)] page_fault_count ;;
    set_metric ext metrics "mssql_memory_utilization_percentage" [("host", host)]
      memory_utilization_percentage
|}.

Definition mssql_os_sys_memory : Collector.t := {|
  Collector.metrics := [
    ("mssql_total_physical_memory_kb", {| Gauge.name := "mssql_total_physical_memory_kb";
        Gauge.help := "Total physical memory in KB";
        Gauge.labelNames := ["host"] |});
    ("mssql_available_physical_memory_kb", {| Gauge.name := "mssql_available_physical_memory_kb";
        Gauge.help := "Available physical memory in KB";
        Gauge.labelNames := ["host"] |});
    ("mssql_total_page_file_kb", {| Gauge.name := "mssql_total_page_file_kb";
        Gauge.help := "Total page file in KB";
        Gauge.labelNames := ["host"] |});
    ("mssql_available_page_file_kb", {| Gauge.name := "mssql_available_page_file_kb";
        Gauge.help := "Available page file in KB";
        Gauge.labelNames := ["host"] |})
  ];
  Collector.query := "SELECT total_physical_memory_kb,
                   available_physical_memory_kb,
                   total_page_file_kb,
                   available_page_file_kb
            FROM sys.dm_os_sys_memory";
  Collector.collect := λ rows metrics args,
    let host := arg args 0 in
    row0 <- first_row rows ;;
    let mssql_total_physical_memory_kb := cell row0 0 in
    row0 <- first_row rows ;;
    let mssql_available_physical_memory_kb := cell row0 1 in
    row0 <- first_row rows ;;
    let mssql_total_page_file_kb := cell row0 2 in
    row0 <- first_row rows ;;
    let mssql_available_page_file_kb := cell row0 3 in
    metricsLog "Fetched system memory information" ;;
    set_metric ext metrics "mssql_total_physical_memory_kb" [("host", host)]
      mssql_total_physical_memory_kb ;;
    set_metric ext metrics "mssql_available_physical_memory_kb" [("host", host)]
      mssql_available_physical_memory_kb ;;
    set_metric ext metrics "mssql_total_page_file_kb" [("host", host)]
      mssql_total_page_file_kb ;;
    set_metric ext metrics "mssql_available_page_file_kb" [("host", host)]
      mssql_available_page_file_kb
|}.

Definition mssql_db_memory : Collector.t := {|
  Collector.metrics := [
    ("mssql_db_memory", {| Gauge.name := "mssql_db_memory";
        Gauge.help := "RAM used by database";
        Gauge.labelNames := ["host"; "database"] |})
  ];
  Collector.query := "SELECT ISNULL(DB_NAME(database_id), 'null') As [database_name],
                   COUNT(1) * 8                         AS memory_usage
            FROM sys.dm_os_buffer_descriptors
            GROUP BY database_id
            ORDER BY COUNT(*) DESC";
  Collector.collect := λ rows metrics args,
    let host := arg args 0 in
    for_rows rows (λ row,
      let database := cell row 0 in
      let memory_usage := cell row 1 in
      metricsLog "RAM per database" ;;
      set_metric ext metrics "mssql_db_memory"
        [("host", host); ("database", database)] memory_usage)
|}.

Definition mssql_volume_stats : Collector.t := {|
  Collector.metrics := [
    ("mssql_volume_total_bytes", {| Gauge.name := "mssql_volume_total_bytes";
        Gauge.help := "Total size in bytes of the volume";
        Gauge.labelNames := ["host"; "volume_mount_point"] |});
    ("mssql_volume_available_bytes", {| Gauge.name := "mssql_volume_available_bytes";
        Gauge.help := "Available free space on the volume";
        Gauge.labelNames := ["host"; "volume_mount_point"] |});
    ("mssql_volume_available_percentage", {| Gauge.name := "mssql_volume_available_percentage";
        Gauge.help := "Available free space on the volume ( % )";
        Gauge.labelNames := ["host"; "volume_mount_point"] |})
  ];
  Collector.query := "
        SELECT distinct(volume_mount_point),
                       total_bytes,
                       avg(available_bytes),
                       cast(avg(available_bytes) as decimal) / cast(total_bytes as decimal) * 100
        FROM sys.master_files AS f
                 CROSS APPLY sys.dm_os_volume_stats(f.database_id, f.file_id)
        GROUP by volume_mount_point, total_bytes
    ";
  Collector.collect := λ rows metrics args,
    let host := arg args 0 in
    for_rows rows (λ row,
      let volume_mount_point := cell row 0 in
      let total_bytes := ToNumber ext (cell row 1) in
      let available_bytes := ToNumber ext (cell row 2) in
      let available_percentage := ToNumber ext (cell row 3) in
      metricsLog "Fetch volume stats for volume_mount_point " ;;
      set_metric ext metrics "mssql_volume_total_bytes"
        [("host", host); ("volume_mount_point", volume_mount_point)] total_bytes ;;
      set_metric ext metrics "mssql_volume_available_bytes"
        [("host", host); ("volume_mount_point", volume_mount_point)] available_bytes ;;
      set_metric ext metrics "mssql_volume_available_percentage"
        [("host", host); ("volume_mount_point", volume_mount_point)] available_percentage)
|}.

Definition mssql_most_exec_query : Collector.t := {|
  Collector.metrics := [
    ("mssql_total_execution_count", {| Gauge.name := "mssql_total_execution_count";
        Gauge.help := "Total Execution Count";
        Gauge.labelNames := ["database"; "query_id"; "query_text_id"; "query_sql_text"] |})
  ];
  Collector.query := "
        SELECT TOP 100 q.query_id, qt.query_text_id, qt.query_sql_text, SUM(rs.count_executions) AS total_execution_count
        FROM sys.query_store_query_text AS qt
                 JOIN sys.query_store_query AS q
                      ON qt.query_text_id = q.query_text_id
                 JOIN sys.query_store_plan AS p
                      ON q.query_id = p.query_id
                 JOIN sys.query_store_runtime_stats AS rs
                      ON p.plan_id = rs.plan_id
        WHERE rs.avg_duration > 1000000
        GROUP BY q.query_id, qt.query_text_id, qt.query_sql_text
        ORDER BY total_execution_count DESC
    ";
  Collector.collect := λ rows metrics args,
    let config := arg args 0 in
    let host := arg args 1 in
    connect <- get_property config "connect" ;;
    options <- get_property connect "options" ;;
    dbname <- get_property options "database" ;;
    for_rows rows (λ row,
      let mssql_query_id := cell row 0 in
      let mssql_query_text_id := cell row 1 in
      let mssql_query_sql_text := cell row 2 in
      let mssql_total_execution_count := cell row 3 in
      metricsLog "Most Executed Queries -" ;;
      set_metric ext metrics "mssql_total_execution_count"
        [("host", host); ("database", dbname); ("query_id", mssql_query_id); ("query_text_id", mssql_query_text_id); ("query_sql_text", mssql_query_sql_text)] mssql_total_execution_count)
|}.

Definition mssql_most_avg_time_query : Collector.t := {|
  Collector.metrics := [
    ("mssql_avg_duration", {| Gauge.name := "mssql_avg_duration_us";
        Gauge.help := "Average Query Duration in micro seconds";
        Gauge.labelNames := ["database"; "query_sql_text"; "query_id"] |})
  ];
  Collector.query := "SELECT TOP 100 avg(rs.avg_duration) AS avg_duration, max(qt.query_sql_text) AS query_sql_text, q.query_id, GETUTCDATE() AS CurrentUTCTime, max(rs.last_execution_time) AS last_execution_time
FROM sys.query_store_query_text AS qt       
JOIN sys.query_store_query AS q          
    ON qt.query_text_id = q.query_text_id              
JOIN sys.query_store_plan AS p           
    ON q.query_id = p.query_id        
JOIN sys.query_store_runtime_stats AS rs          
    ON p.plan_id = rs.plan_id              
WHERE rs.last_execution_time > DATEADD(hour, -1, GETUTCDATE()) and rs.avg_duration > 1000000
GROUP BY q.query_id      
ORDER BY avg(rs.avg_duration) DESC";
  Collector.collect := λ rows metrics args,
    let config := arg args 0 in
    let host := arg args 1 in
    connect <- get_property config "connect" ;;
    options <- get_property connect "options" ;;
    dbname <- get_property options "database" ;;
    for_rows rows (λ row,
      let mssql_avg_duration := cell row 0 in
      let mssql_query_sql_text := cell row 1 in
      let mssql_query_id := cell row 2 in
      metricsLog "Most Average Time Query -" ;;
      set_metric ext metrics "mssql_avg_duration"
        [("host", host); ("database", dbname); ("query_sql_text", mssql_query_sql_text); ("query_id", mssql_query_id)] mssql_avg_duration)
|}.

Definition mssql_most_avg_io_query : Collector.t := {|
  Collector.metrics := [
    ("mssql_avg_physical_io_reads", {| Gauge.name := "mssql_avg_physical_io_reads";
        Gauge.help := "Average Physical IO Reads";
        Gauge.labelNames := ["database"; "query_sql_text"; "query_id"] |});
    ("mssql_avg_rowcount", {| Gauge.name := "mssql_avg_rowcount";
        Gauge.help := "Average Row Count";
        Gauge.labelNames := ["database"; "query_sql_text"; "query_id"] |});
    ("mssql_count_executions", {| Gauge.name := "mssql_count_executions";
        Gauge.help := "Cont Executions";
        Gauge.labelNames := ["database"; "query_sql_text"; "query_id"] |})
  ];
  Collector.query := "SELECT TOP 10 avg(rs.avg_physical_io_reads) as avg_physical_io_reads, max(qt.query_sql_text) as query_sql_text, q.query_id, avg(rs.avg_rowcount) as avg_rowcount, sum(rs.count_executions) as count_executions
FROM sys.query_store_query_text AS qt
JOIN sys.query_store_query AS q
    ON qt.query_text_id = q.query_text_id
JOIN sys.query_store_plan AS p
    ON q.query_id = p.query_id
JOIN sys.query_store_runtime_stats AS rs
    ON p.plan_id = rs.plan_id
JOIN sys.query_store_runtime_stats_interval AS rsi 
    ON rsi.runtime_stats_interval_id = rs.runtime_stats_interval_id
WHERE rsi.start_time >= DATEADD(hour, -1, GETUTCDATE()) and rs.avg_duration > 1000000
GROUP BY q.query_id
ORDER BY avg(rs.avg_physical_io_reads) DESC";
  Collector.collect := λ rows metrics args,
    let config := arg args 0 in
    let host := arg args 1 in
    connect <- get_property config "connect" ;;
    options <- get_property connect "options" ;;
    dbname <- get_property options "database" ;;
    for_rows rows (λ row,
      let mssql_avg_physical_io_reads := cell row 0 in
      let mssql_query_sql_text := cell row 1 in
      let mssql_query_id := cell row 2 in
      let mssql_avg_rowcount := cell row 3 in
      let mssql_count_executions := cell row 4 in
      metricsLog "Most Average IO Query -" ;;
      set_metric ext metrics "mssql_avg_physical_io_reads"
        [("host", host); ("database", dbname); ("query_sql_text", mssql_query_sql_text); ("query_id", mssql_query_id)] mssql_avg_physical_io_reads ;;
      set_metric ext metrics "mssql_avg_rowcount"
        [("host", host); ("database", dbname); ("query_sql_text", mssql_query_sql_text); ("query_id", mssql_query_id)] mssql_avg_rowcount ;;
      set_metric ext metrics "mssql_count_executions"
        [("host", host); ("database", dbname); ("query_sql_text", mssql_query_sql_text); ("query_id", mssql_query_id)] mssql_count_executions)
|}.

Definition mssql_most_wait_query : Collector.t := {|
  Collector.metrics := [
    ("mssql_sum_total_wait_ms", {| Gauge.name := "mssql_sum_total_wait_ms";
        Gauge.help := "Total Wait ms";
        Gauge.labelNames := ["database"; "query_sql_text"; "query_text_id"; "query_id"] |})
  ];
  Collector.query := "SELECT qt.query_sql_text, qt.query_text_id, st.sum_total_wait_ms,  q.query_id
FROM sys.query_store_query q
JOIN sys.query_store_query_text qt ON q.query_text_id = qt.query_text_id
JOIN (
 SELECT TOP 50  p.query_id, sum(total_query_wait_time_ms) AS sum_total_wait_ms 
 FROM sys.query_store_wait_stats ws 
 JOIN sys.query_store_plan p ON ws.plan_id = p.plan_id 
 JOIN sys.query_store_query q ON p.query_id = q.query_id 
 JOIN sys.query_store_query_text qt ON q.query_text_id = qt.query_text_id 
 JOIN sys.query_store_runtime_stats AS rs ON p.plan_id = rs.plan_id 
 WHERE rs.avg_duration > 1000000 
 GROUP BY p.query_id 
 ORDER BY sum_total_wait_ms DESC) as st ON st.query_id = q.query_id";
  Collector.collect := λ rows metrics args,
    let config := arg args 0 in
    let host := arg args 1 in
    connect <- get_property config "connect" ;;
    options <- get_property connect "options" ;;
    dbname <- get_property options "database" ;;
    for_rows rows (λ row,
      let mssql_query_sql_text := cell row 0 in
      let mssql_query_text_id := cell row 1 in
      let mssql_sum_total_wait_ms := cell row 2 in
      let mssql_query_id := cell row 3 in
      metricsLog "Most Wait Query -" ;;
      set_metric ext metrics "mssql_sum_total_wait_ms"
        [("host", host); ("database", dbname); ("query_sql_text", mssql_query_sql_text); ("query_text_id", mssql_query_text_id); ("query_id", mssql_query_id)] mssql_sum_total_wait_ms)
|}.

(** The object returned by [getMetrics], in property order.
    [mssql_most_wait_query] is defined but not returned. *)
Definition getMetrics : list (string * Collector.t) := [
  ("mssql_up", mssql_up);
  ("mssql_product_version", mssql_product_version);
  ("mssql_instance_local_time", mssql_instance_local_time);
  ("mssql_connections", mssql_connections);
  ("mssql_client_connections", mssql_client_connections);
  ("mssql_deadlocks", mssql_deadlocks);
  ("mssql_user_errors", mssql_user_errors);
  ("mssql_kill_connection_errors", mssql_kill_connection_errors);
  ("mssql_database_state", mssql_database_state);
  ("mssql_log_growths", mssql_log_growths);
  ("mssql_database_filesize", mssql_database_filesize);
  ("mssql_buffer_manager", mssql_buffer_manager);
  ("mssql_io_stall", mssql_io_stall);
  ("mssql_batch_requests", mssql_batch_requests);
  ("mssql_transactions", mssql_transactions);
  ("mssql_os_process_memory", mssql_os_process_memory);
  ("mssql_os_sys_memory", mssql_os_sys_memory);
  ("mssql_db_memory", mssql_db_memory);
  ("mssql_volume_stats", mssql_volume_stats);
  ("mssql_most_exec_query", mssql_most_exec_query);
  ("mssql_most_avg_io_query", mssql_most_avg_io_query);
  ("mssql_most_avg_time_query", mssql_most_avg_time_query)
].

End Catalogue.

(** ** The environment of one scrape *)

(** A parsed connection string; [server] is the only field the
    orchestrator reads. *)
Record Target : Type := { server : string }.

(** What the database servers do during one scrape: whether
    [pool.connect()] of target number [i] resolves ([None]) or rejects, and
    how the query with a given text settles on that target. *)
Record Env : Type := {
  connect_result : nat → option Exn;
  query_result : nat → string → Exn + Rows;
}.

(** The order in which outstanding queries settle is not the program's
    choice.  A schedule lists, for every suspension of the handler, the
    positions (in the list of outstanding queries) of the queries that
    settle during it. *)
Record Schedule : Type := {
  while_connecting : nat → list nat;
  while_joining : list nat;
}.

(** ** First revision of [index.js]: [measure] *)

Module Sequential.

(** The identifiers in scope in the [then] callback of [measure]: its
    parameter, the enclosing functions' parameters, the module's bindings
    and the globals it uses.  The [error] of the inner [catch] clause and
    the [error] of the [.catch] callback are not in scope there. *)
Definition scope : list string :=
  ["result"; "resolve"; "connection"; "collector"; "name";
   "appLog"; "dbLog"; "queriesLog"; "sql"; "app"; "client"; "getMetrics";
   "config"; "connect"; "measure"; "collect"; "entries"; "server";
   "console"; "JSON"; "process"; "require"; "Promise"].

(** Reading a variable. *)
Definition identifier (x : string) : M unit :=
  if bool_decide (x ∈ scope) then ret tt
  else throw (ReferenceError (x +:+ " is not defined")).

(** [result => { ... }] *)
Definition on_fulfilled (collector : Collector.t) (name : string)
    (server : JsValue) (recordset : Rows) : M unit :=
  if bool_decide (0 < length recordset) then
    try_catch
      (Collector.collect collector recordset (Collector.metrics collector) [server])
      (λ error,
         emit (ConsoleError ("Error processing metric " +:+ name +:+ " data")
                 (Some error))) ;;
    emit Resolve
  else
    identifier "error" ;;
    emit (ConsoleError ("Error executing metric " +:+ name +:+ " SQL query") None) ;;
    emit Resolve.

(** [error => { ... }] *)
Definition on_rejected (name : string) (error : Exn) : M unit :=
  emit (ConsoleError ("Error executing metric " +:+ name +:+ " SQL query")
          (Some error)) ;;
  emit Resolve.

(** [query(...).then(on_fulfilled).catch(on_rejected)], once the query has
    settled with [outcome]. *)
Definition measure (collector : Collector.t) (name : string)
    (server : JsValue) (outcome : Exn + Rows) : M unit :=
  match outcome with
  | inr recordset => try_catch (on_fulfilled collector name server recordset)
                       (on_rejected name)
  | inl error => on_rejected name error
  end.

End Sequential.

(** ** Second revision of [index.js]: the concurrent orchestrator *)

Module Concurrent.

Definition on_fulfilled (collector : Collector.t) (name : string)
    (server : JsValue) (recordset : Rows) : M unit :=
  if bool_decide (0 < length recordset) then
    try_catch
      (Collector.collect collector recordset (Collector.metrics collector) [server])
      (λ error,
         emit (ConsoleError ("Error processing metric '" +:+ name +:+ "' data")
                 (Some error))) ;;
    emit Resolve
  else
    emit (ConsoleError ("No results executing metric '" +:+ name +:+ "' SQL query")
            None) ;;
    emit Resolve.

Definition on_rejected (name : string) (error : Exn) : M unit :=
  emit (ConsoleError ("Error executing metric '" +:+ name +:+ "' SQL query")
          (Some error)) ;;
  emit Resolve.

Definition measure (collector : Collector.t) (name : string)
    (server : JsValue) (outcome : Exn + Rows) : M unit :=
  match outcome with
  | inr recordset => try_catch (on_fulfilled collector name server recordset)
                       (on_rejected name)
  | inl error => on_rejected name error
  end.

(** One call of [measure] whose query is outstanding. *)
Record Task : Type := {
  target : nat;
  host : string;
  entry : string;
  collector : Collector.t;
}.

Definition acting (a : Actor) (l : list Effect) : Trace := pair a <$> l.

(** [measure(connection, collector, name)] up to its [await]. *)
Definition measure_start (t : Task) : Trace :=
  acting (OnTask (target t) (entry t))
    [Debug "queries" ("Executing metric '" +:+ entry t +:+ "' query: " +:+
                      Collector.query (collector t));
     Query (Collector.query (collector t))].

Section Orchestrator.
Context (ext : Externals) (env : Env) (sched : Schedule).
Context (entries : list (string * Collector.t)).

Definition outcome (t : Task) : Exn + Rows :=
  query_result env (target t) (Collector.query (collector t)).

(** The rest of that call, when its query settles. *)
Definition measure_settle (t : Task) : Trace :=
  acting (OnTask (target t) (entry t))
    (match outcome t with
     | inr rows => Recordset rows
     | inl error => QueryFailed error
     end ::
     effects (measure (collector t) (entry t) (Str (host t)) (outcome t))).

Definition resolves (t : Task) : bool :=
  bool_decide (Resolve ∈ effects (measure (collector t) (entry t) (Str (host t)) (outcome t))).

(** The handler between two steps: the trace so far, the measures whose
    query is outstanding, and those that have settled, oldest first. *)
Record State : Type := {
  trace : Trace;
  pending : list Task;
  settled : list Task;
}.

(** [Promise.all] of [collect] for target [i] is still waiting: one of its
    measures is outstanding, or has settled without resolving. *)
Definition waiting (i : nat) (st : State) : bool :=
  existsb (λ t, bool_decide (target t = i)) (pending st) ||
  existsb (λ t, bool_decide (target t = i) && negb (resolves t)) (settled st).

(** [.finally(async () => await connection.close())] *)
Definition finally (i : nat) (st : State) : State :=
  if waiting i st then st
  else {| trace := trace st ++ [(OnTarget i, Close)];
          pending := pending st; settled := settled st |}.

(** The outstanding query at position [k] settles: its callbacks run to
    completion, then the continuations of [collect]. *)
Definition settle (st : State) (k : nat) : State :=
  match pending st !! k with
  | None => st
  | Some t =>
      finally (target t)
        {| trace := trace st ++ measure_settle t;
           pending := delete k (pending st);
           settled := settled st ++ [t] |}
  end.

(** [collect(connection, entries)]: every [measure] is started, in
    property order, before any of them can settle. *)
Definition collect (i : nat) (h : string) (st : State) : State :=
  let tasks := (λ e, {| target := i; host := h; entry := e.1; collector := e.2 |})
                 <$> entries in
  finally i
    {| trace := trace st ++ (tasks ≫= measure_start);
       pending := pending st ++ tasks;
       settled := settled st |}.

(** The [catch] block of the loop. *)
Definition on_connect_error (h : string) (error : Exn) : M unit :=
  emit (Debug "app" ("Error handling /metrics request for server '" +:+ h +:+ "'")) ;;
  mssql_up <- match assoc "mssql_up" entries with
              | Some c => ret c
              | None => throw (TypeError
                          "Cannot read properties of undefined (reading 'metrics')")
              end ;;
  set_metric ext (Collector.metrics mssql_up) "mssql_up"
    [("host", Str h)] (Number 0).

(** [for (const connectionString of config.connectStrings) { ... }],
    from target number [i] on.  The exception, if any, is one that
    escapes the [catch] block. *)
Fixpoint connect_loop (i : nat) (targets : list Target) (st : State)
    : State * option Exn :=
  match targets with
  | [] => (st, None)
  | connectionString :: rest =>
      let st := {| trace := trace st ++ acting (OnTarget i) [Debug "db" "Connecting"; Connect];
                   pending := pending st; settled := settled st |} in
      let st := foldl settle st (while_connecting sched i) in
      match connect_result env i with
      | None =>
          let st := {| trace := trace st ++ [(OnTarget i, Connected)];
                       pending := pending st; settled := settled st |} in
          connect_loop (S i) rest (collect i (server connectionString) st)
      | Some error =>
          let m := on_connect_error (server connectionString) error in
          let st := {| trace := trace st ++
                                acting (OnTarget i) (ConnectFailed error :: effects m);
                       pending := pending st; settled := settled st |} in
          match result m with
          | inl e => (st, Some e)
          | inr _ => connect_loop (S i) rest st
          end
      end
  end.

(** [await Promise.all(tasks)]: the outstanding queries settle one by one,
    in the order the schedule picks, until none is left. *)
Fixpoint join (n : nat) (picks : list nat) (st : State) : State :=
  match n with
  | 0 => st
  | S n =>
      let k := hd 0 picks in
      let k := if bool_decide (k < length (pending st)) then k else 0 in
      join n (tl picks) (settle st k)
  end.

Inductive Outcome : Type :=
  | Responded (body : string)
  (** the promise of the handler rejects *)
  | Rejected (error : Exn)
  (** [Promise.all] never settles *)
  | Stalled.

(** [app.get("/metrics", async (req, res) => { ... })] over the registry
    [ms]: the trace of the request and how it ends. *)
Definition scrape (targets : list Target) (ms : MetricSpace) : Trace * Outcome :=
  let st := {| trace := [(Handler, Debug "app" "Received /metrics request")];
               pending := []; settled := [] |} in
  match connect_loop 0 targets st with
  | (st, Some error) => (trace st, Rejected error)
  | (st, None) =>
      let st := join (length (pending st)) (while_joining sched) st in
      if forallb resolves (settled st) then
        let body := render ext (replay (trace st) ms) in
        (trace st ++ acting Handler
           [Debug "app" "Successfully processed /metrics request"; Send body],
         Responded body)
      else (trace st, Stalled)
  end.

End Orchestrator.

(** The handler with [entries = getMetrics()]. *)
Definition metrics_route (ext : Externals) (env : Env) (sched : Schedule)
    (targets : list Target) (ms : MetricSpace) : Trace * Outcome :=
  scrape ext env sched (getMetrics ext) targets ms.

End Concurrent.

(** ** A reference instantiation of the collaborators, for worked runs *)

(** One sample line per value, in the style of the text exposition
    format. *)
Definition exposition_line (metric : string) (sample : Labels * JsValue) : string :=
  metric +:+ "{" +:+
  String.concat "," ((λ l, l.1 +:+ "=" +:+ ToString l.2) <$> sample.1) +:+
  "} " +:+ ToString sample.2.

Definition exposition (ms : MetricSpace) : string :=
  String.concat ";"
    (mjoin ((λ m, exposition_line m.1 <$> m.2) <$> map_to_list ms)).

(** The value of a string of decimal digits. *)
Fixpoint digits (s : string) (acc : Z) : option Z :=
  match s with
  | EmptyString => Some acc
  | String c rest =>
      let n := Ascii.nat_of_ascii c in
      if bool_decide (48 ≤ n ≤ 57) then digits rest (10 * acc + Z.of_nat (n - 48))
      else None
  end.

(** The text before the first dot, and the text after it. *)
Fixpoint until_dot (s : string) : string * string :=
  match s with
  | EmptyString => (EmptyString, EmptyString)
  | String c rest =>
      if bool_decide (Ascii.nat_of_ascii c = 46) then (EmptyString, rest)
      else let '(a, b) := until_dot rest in (String c a, b)
  end.

Definition to_number (s : string) : JsValue :=
  match digits s 0 with Some z => Number z | None => NaN end.

(** A version text [major.minor.build.revision] split on its dots. *)
Definition sample_productVersionParse (v : JsValue) : Exn + (JsValue * JsValue) :=
  match v with
  | Str s =>
      let '(major, rest) := until_dot s in
      let '(minor, _) := until_dot rest in
      inr (to_number major, to_number minor)
  | _ => inl (TypeError "version.split is not a function")
  end.

(** The current releases of the metric library insist on
    [typeof value === 'number']. *)
Definition node : Externals := {|
  accepts := typeof_number;
  accepts_finite := λ _, eq_refl;
  StringToNumber := λ s, digits s 0;
  productVersionParse := sample_productVersionParse;
  render := exposition;
|}.

(** ** Vocabulary of the statements *)

(** The metric names behind a collector's [metrics] object. *)
Definition gauge_names (c : Collector.t) : list string :=
  (λ m, Gauge.name m.2) <$> Collector.metrics c.

(** [v] is a cell of the recordset, as the driver delivered it. *)
Definition cell_of (rows : Rows) (v : JsValue) : Prop :=
  ∃ row j, row ∈ rows ∧ v = cell row j.

(** Where the value a catalogue entry hands to [Gauge.set] comes from. *)
Definition provenance (ext : Externals) (name : string) (rows : Rows)
    (v : JsValue) : Prop :=
  if decide (name = "mssql_product_version") then ∃ s, v = Str s
  else if decide (name = "mssql_volume_stats") then
    ∃ row j, row ∈ rows ∧ v = ToNumber ext (cell row j)
  else cell_of rows v.

(** An effect a mapping function may have: a debug line, or a sample of
    one of its own metrics, labelled with the host it was given, whose
    value satisfies [vals]. *)
Definition sample_ok (names : list string) (host : JsValue)
    (vals : JsValue → Prop) (e : Effect) : Prop :=
  match e with
  | Debug _ _ => True
  | GaugeSet m l v => m ∈ names ∧ assoc "host" l = Some host ∧ vals v
  | _ => False
  end.

(** The values set on the series [(metric, l)] along a trace, oldest
    first. *)
Definition sets_to (metric : string) (l : Labels) (tr : Trace) : list JsValue :=
  omap (λ ev : Event,
          match ev.2 with
          | GaugeSet m' l' v =>
              if decide (m' = metric ∧ l' = l) then Some v else None
          | _ => None
          end) tr.

(** The events of a trace that happen on behalf of [a]. *)
Definition of_actor (a : Actor) (tr : Trace) : Trace :=
  filter (λ ev : Event, ev.1 = a) tr.

(** The events of a trace that belong to the branch of target [i]. *)
Definition on_target (i : nat) (ev : Event) : Prop :=
  match ev.1 with
  | Handler => False
  | OnTarget j | OnTask j _ => j = i
  end.

#[global] Instance on_target_dec i ev : Decision (on_target i ev).
Proof. unfold on_target. destruct ev.1; apply _. Defined.


(** ** Vocabulary of the scheduler invariant *)

Import Concurrent.

Section SchedulerVocabulary.
Context (ext : Externals) (env : Env) (entries : list (string * Collector.t)).

Definition tasks_of (i : nat) (h : string) : list Task :=
  (λ e, {| target := i; host := h; entry := e.1; collector := e.2 |}) <$> entries.

(** The measures started for the targets [done], in starting order. *)
Definition spawned (done : list Target) : list Task :=
  mjoin (imap (λ i t, match connect_result env i with
                      | None => tasks_of i (server t)
                      | Some _ => []
                      end) done).

(** What the branch of target [i] does by itself until its connection is
    open or has failed. *)
Definition opening (i : nat) (t : Target) : list Effect :=
  [Debug "db" "Connecting"; Connect] ++
  match connect_result env i with
  | None => [Connected]
  | Some e => ConnectFailed e :: effects (on_connect_error ext entries (server t) e)
  end.

Definition outstanding (i : nat) (st : State) : bool :=
  existsb (λ t, bool_decide (target t = i)) (pending st).

Definition closing (i : nat) (st : State) : Trace :=
  match connect_result env i with
  | None => if outstanding i st then [] else [(OnTarget i, Close)]
  | Some _ => []
  end.

Definition branch (done : list Target) (st : State) (i : nat) : Trace :=
  match done !! i with
  | Some t => acting (OnTarget i) (opening i t) ++ closing i st
  | None => []
  end.

Definition key (t : Task) : Actor := OnTask (target t) (entry t).

(** Nothing happens on a target after its connection is closed. *)
Definition close_last (tr : Trace) : Prop :=
  ∀ l1 l2 i, tr = l1 ++ (OnTarget i, Close) :: l2 → Forall (λ ev, ¬ on_target i ev) l2.

Definition connect_settled (i : nat) (ev : Event) : Prop :=
  ev = (OnTarget i, Connected) ∨ ∃ e, ev = (OnTarget i, ConnectFailed e).

(** A connection is attempted only when the attempts for all earlier
    targets have settled. *)
Definition connect_order (tr : Trace) : Prop :=
  ∀ l1 l2 j, tr = l1 ++ (OnTarget j, Connect) :: l2 →
    ∀ i, i < j → ∃ ev, ev ∈ l1 ∧ connect_settled i ev.

(** What holds between two steps of the handler, once the targets [done]
    have been dealt with; [extra] is what the branch of the next target
    has already done. *)
Record Inv (extra : Trace) (done : list Target) (st : State) : Prop := {
  inv_perm : pending st ++ settled st ≡ₚ spawned done;
  inv_tasks : ∀ a, (∃ j n, a = OnTask j n) →
    of_actor a (trace st) =
    (spawned done ≫= λ t, of_actor a (measure_start t)) ++
    (settled st ≫= λ t, of_actor a (measure_settle env t));
  inv_branch : ∀ i,
    of_actor (OnTarget i) (trace st) = branch done st i ++ of_actor (OnTarget i) extra;
  inv_handler :
    of_actor Handler (trace st) = [(Handler, Debug "app" "Received /metrics request")];
  inv_close_last : close_last (trace st);
  inv_connect_order : connect_order (trace st);
}.

End SchedulerVocabulary.

(** Effects that neither open, close nor resolve anything. *)
Definition quiet (l : list Effect) : Prop :=
  Forall (λ e, match e with Debug _ _ | GaugeSet _ _ _ => True | _ => False end) l.

(** The start of the branch of target [i]. *)
Definition attempt (i : nat) : Trace :=
  acting (OnTarget i) [Debug "db" "Connecting"; Connect].

(** The handler before the loop. *)
Definition initial : State :=
  {| trace := [(Handler, Debug "app" "Received /metrics request")];
     pending := []; settled := [] |}.

(** ** Vocabulary of the statements about whole scrapes *)

Definition task (i : nat) (t : Target) (e : string * Collector.t) : Task :=
  {| target := i; host := server t; entry := e.1; collector := e.2 |}.

(** The event sets a value on the series [(metric, l)]. *)
Definition writes (metric : string) (l : Labels) (ev : Event) : Prop :=
  ∃ v, ev.2 = GaugeSet metric l v.

#[global] Instance writes_dec metric l ev : Decision (writes metric l ev).
Proof.
  unfold writes. destruct ev.2 as [| |m' l' v'| | | | | | | | |];
    try (right; by intros [? [=]]).
  destruct (decide (m' = metric ∧ l' = l)) as [[-> ->]|Hne].
  - left. eauto.
  - right. intros [? [= -> -> _]]. by apply Hne.
Defined.

(** Who can set a sample, and which. *)
Inductive writer (ext : Externals) (env : Env) (targets : list Target)
    (m : string) (l : Labels) (v : JsValue) : Actor → Prop :=
  | writer_down i tg e :
      targets !! i = Some tg → connect_result env i = Some e →
      m = "mssql_up" → l = [("host", Str (server tg))] → v = Number 0 →
      writer ext env targets m l v (OnTarget i)
  | writer_collector i tg n c rows :
      targets !! i = Some tg → connect_result env i = None →
      (n, c) ∈ getMetrics ext →
      query_result env i (Collector.query c) = inr rows →
      m ∈ gauge_names c → assoc "host" l = Some (Str (server tg)) →
      provenance ext n rows v →
      writer ext env targets m l v (OnTask i n).

(** Where an event first occurs in a trace. *)
Fixpoint position (ev : Event) (tr : Trace) : option nat :=
  match tr with
  | [] => None
  | e :: rest => if decide (e = ev) then Some 0 else S <$> position ev rest
  end.

(** What the series [mssql_up{host}] of target [i] reads in the registry
    [after] a scrape that started from [ms]. *)
Definition up_reading (ext : Externals) (env : Env) (ms : MetricSpace)
    (i : nat) (t : Target) (after : MetricSpace) : Prop :=
  let host := [("host", Str (server t))] in
  let up := observe after "mssql_up" host in
  match connect_result env i with
  | Some _ => up = Some (Number 0)
  | None =>
      match query_result env i "SELECT 1" with
      | inr (row :: _) =>
          if accepts ext (cell row 0) then up = Some (cell row 0)
          else up = observe ms "mssql_up" host
      | _ => up = observe ms "mssql_up" host
      end
  end.

(** How one [measure] ends, by the way its query settled. *)
Definition contained (c : Collector.t) (name : string) (h : string)
    (outcome : Exn + Rows) : Prop :=
  let m := measure c name (Str h) outcome in
  result m = inr tt ∧
  match outcome with
  | inl error =>
      effects m =
      [ConsoleError ("Error executing metric '" +:+ name +:+ "' SQL query") (Some error);
       Resolve]
  | inr [] =>
      effects m =
      [ConsoleError ("No results executing metric '" +:+ name +:+ "' SQL query") None;
       Resolve]
  | inr rows =>
      let r := Collector.collect c rows (Collector.metrics c) [Str h] in
      effects m =
      effects r ++
      match result r with
      | inl e => [ConsoleError ("Error processing metric '" +:+ name +:+ "' data") (Some e)]
      | inr _ => []
      end ++ [Resolve]
  end.

(** The three collectors whose mapping function is declared with four
    parameters. *)
Definition query_store_collectors (ext : Externals) : list (string * Collector.t) :=
  [("mssql_most_exec_query", mssql_most_exec_query ext);
   ("mssql_most_avg_io_query", mssql_most_avg_io_query ext);
   ("mssql_most_avg_time_query", mssql_most_avg_time_query ext)].

(** ** Worked runs *)

Definition fifo : Schedule := {| while_connecting := λ _, []; while_joining := [] |}.

Definition timeout : Exn := Error "Timeout: Request failed to complete in 15000ms".

(** Every server accepts connections; every query times out except the
    ones listed. *)
Definition answering (answers : list (nat * string * Rows)) : Env := {|
  connect_result := λ _, None;
  query_result := λ i sql,
    match list_find (λ a, a.1 = (i, sql)) answers with
    | Some (_, a) => inr a.2
    | None => inl timeout
    end;
|}.

Definition unreachable : Env := {|
  connect_result := λ _, Some (Error "ECONNREFUSED");
  query_result := λ _ _, inl timeout;
|}.

(** Target number 1 refuses connections; the others answer the probe. *)
Definition second_down : Env := {|
  connect_result := λ i, if decide (i = 1) then Some (Error "ECONNREFUSED") else None;
  query_result := λ i sql,
    if decide (sql = "SELECT 1") then inr [[Number 1]] else inl timeout;
|}.

Definition target_a : Target := {| server := "a" |}.
Definition target_b : Target := {| server := "b" |}.

(** The query that settles first is the third one issued. *)
Definition third_first : Schedule :=
  {| while_connecting := λ _, []; while_joining := [2] |}.

(** The query that settles first is the fourth one of the second target. *)
Definition second_target_first : Schedule :=
  {| while_connecting := λ _, []; while_joining := [25] |}.

Definition probe_and_clock : Env :=
  answering [(0, "SELECT 1", [[Number 1]]);
             (0, Collector.query (mssql_instance_local_time node),
              [[Number 1700000000]])].

(** Two instances on one machine, with different numbers of connections. *)
Definition two_instances : Env :=
  answering [(0, Collector.query (mssql_connections node), [[Str "master"; Number 5]]);
             (1, Collector.query (mssql_connections node), [[Str "master"; Number 7]])].

(** The second row of the recordset has no count. *)
Definition count_missing : Env :=
  answering [(0, Collector.query (mssql_connections node),
              [[Str "master"; Number 5]; [Str "tempdb"; Null]])].

Definition connections_of_master : Labels :=
  [("host", Str "a"); ("database", Str "master"); ("state", Str "current")].

(** ** First revision of [index.js]: [collect] and the [/metrics] handler *)

Module SequentialRoute.

(** How one turn of the loop over [config.connectStrings] ends. *)
Inductive Exit : Type :=
  | Completed
  (** an exception escapes the [catch] block *)
  | Raised (error : Exn)
  (** an awaited promise never settles *)
  | Hung.

Section Orchestrator.
Context (ext : Externals) (env : Env).
(** Whether [connection.close()] of target number [i] resolves ([None])
    or rejects. *)
Context (close_result : nat → option Exn).
Context (entries : list (string * Collector.t)).

(** [await measure(connection, metric, metricName)]: the query is
    issued, it settles, and its callbacks run. *)
Definition measure_run (i : nat) (h : string) (e : string * Collector.t) : Trace :=
  let outcome := query_result env i (Collector.query e.2) in
  acting (OnTask i e.1)
    ([Debug "queries" ("Executing metric " +:+ e.1 +:+ " query: " +:+
                       Collector.query e.2);
      Query (Collector.query e.2);
      match outcome with
      | inr rows => Recordset rows
      | inl error => QueryFailed error
      end] ++
     effects (Sequential.measure e.2 e.1 (Str h) outcome)).

(** [for (const [metricName, metric] of Object.entries(entries))
    { await measure(connection, metric, metricName); }]; [false] when one
    of the measures never resolves. *)
Fixpoint collect (i : nat) (h : string) (l : list (string * Collector.t))
    : Trace * bool :=
  match l with
  | [] => ([], true)
  | e :: rest =>
      let outcome := query_result env i (Collector.query e.2) in
      if bool_decide (Resolve ∈ effects (Sequential.measure e.2 e.1 (Str h) outcome))
      then let '(tr, done) := collect i h rest in (measure_run i h e ++ tr, done)
      else (measure_run i h e, false)
  end.

(** The [catch] block of the loop. *)
Definition on_error (h : string) (error : Exn) : M unit :=
  emit (Debug "app" "Error handling /metrics request") ;;
  mssql_up <- match assoc "mssql_up" entries with
              | Some c => ret c
              | None => throw (TypeError
                          "Cannot read properties of undefined (reading 'metrics')")
              end ;;
  set_metric ext (Collector.metrics mssql_up) "mssql_up"
    [("host", Str h)] (Number 0).

(** The body of the loop for target number [i]:
    [try { connect; collect; close } catch (error) { ... }]. *)
Definition iteration (i : nat) (connectionString : Target) : Trace * Exit :=
  let h := server connectionString in
  let catch (before : Trace) (error : Exn) : Trace * Exit :=
    let m := on_error h error in
    (before ++ acting (OnTarget i) (effects m),
     match result m with
     | inl e => Raised e
     | inr _ => Completed
     end) in
  let start := acting (OnTarget i)
                 [Debug "app" "Received /metrics request";
                  Debug "db" "Connecting"; Connect] in
  match connect_result env i with
  | Some error => catch (start ++ [(OnTarget i, ConnectFailed error)]) error
  | None =>
      let '(work, done) := collect i h entries in
      let tr := start ++ [(OnTarget i, Connected)] ++ work in
      if done then
        let tr := tr ++ [(OnTarget i, Close)] in
        match close_result i with
        | Some error => catch tr error
        | None => (tr, Completed)
        end
      else (tr, Hung)
  end.

(** [for (const connectionString of config.connectStrings) { ... }], from
    target number [i] on. *)
Fixpoint loop (i : nat) (targets : list Target) : Trace * Exit :=
  match targets with
  | [] => ([], Completed)
  | connectionString :: rest =>
      match iteration i connectionString with
      | (tr, Completed) => let '(tr', x) := loop (S i) rest in (tr ++ tr', x)
      | (tr, x) => (tr, x)
      end
  end.

(** [app.get("/metrics", async (req, res) => { ... })] over the registry
    [ms]. *)
Definition scrape (targets : list Target) (ms : MetricSpace) : Trace * Outcome :=
  match loop 0 targets with
  | (tr, Completed) =>
      let body := render ext (replay tr ms) in
      (tr ++ acting Handler
         [Debug "app" "Successfully processed /metrics request"; Send body],
       Responded body)
  | (tr, Raised error) => (tr, Rejected error)
  | (tr, Hung) => (tr, Stalled)
  end.

End Orchestrator.

(** The handler with [entries = getMetrics()]. *)
Definition metrics_route (ext : Externals) (env : Env)
    (close_result : nat → option Exn) (targets : list Target) (ms : MetricSpace)
    : Trace * Outcome :=
  scrape ext env close_result (getMetrics ext) targets ms.

End SequentialRoute.

(** ** The earlier catalogue, [src/metrics.js]: [mssql_volume_stats] *)

Module EarlierCatalogue.

(** The identifiers in scope in the mapping function of
    [mssql_volume_stats]: its parameters and locals, the bindings of
    [getMetrics] and of the module, and the globals of the runtime. *)
Definition scope : list string :=
  ["rows"; "metrics"; "host"; "i"; "row"; "volume_mount_point"; "total_bytes";
   "available_bytes";
   "mssql_up"; "mssql_product_version"; "mssql_instance_local_time";
   "mssql_connections"; "mssql_client_connections"; "mssql_deadlocks";
   "mssql_user_errors"; "mssql_kill_connection_errors"; "mssql_database_state";
   "mssql_log_growths"; "mssql_database_filesize"; "mssql_buffer_manager";
   "mssql_io_stall"; "mssql_batch_requests"; "mssql_transactions";
   "mssql_os_process_memory"; "mssql_os_sys_memory"; "mssql_db_memory";
   "mssql_volume_stats";
   "metricsLog"; "client"; "productVersionParse"; "getMetrics";
   "require"; "module"; "exports"; "console"; "process"].

(** Reading a variable, here the callee of [debug(...)]. *)
Definition identifier (x : string) : M unit :=
  if bool_decide (x ∈ scope) then ret tt
  else throw (ReferenceError (x +:+ " is not defined")).

Section Catalogue.
Context (ext : Externals).

Definition mssql_volume_stats : Collector.t := {|
  Collector.metrics := [
    ("mssql_volume_total_bytes", {| Gauge.name := "mssql_volume_total_bytes";
        Gauge.help := "Total size in bytes of the volume";
        Gauge.labelNames := ["host"; "volume_mount_point"] |});
    ("mssql_volume_available_bytes", {| Gauge.name := "mssql_volume_available_bytes";
        Gauge.help := "Available free space on the volume";
        Gauge.labelNames := ["host"; "volume_mount_point"] |})
  ];
  Collector.query := "
        SELECT distinct(volume_mount_point), total_bytes, avg(available_bytes) as available_bytes
        FROM sys.master_files AS f
                 CROSS APPLY sys.dm_os_volume_stats(f.database_id, f.file_id)
        GROUP by volume_mount_point, total_bytes
    ";
  Collector.collect := λ rows metrics args,
    let host := arg args 0 in
    for_rows rows (λ row,
      volume_mount_point <- get_property (cell row 0) "value" ;;
      total_bytes <- get_property (cell row 1) "value" ;;
      let total_bytes := ToNumber ext total_bytes in
      available_bytes <- get_property (cell row 2) "value" ;;
      let available_bytes := ToNumber ext available_bytes in
      identifier "debug" ;;
      set_metric ext metrics "mssql_volume_total_bytes"
        [("host", host); ("volume_mount_point", volume_mount_point)] total_bytes ;;
      set_metric ext metrics "mssql_volume_available_bytes"
        [("host", host); ("volume_mount_point", volume_mount_point)] available_bytes)
|}.

End Catalogue.

End EarlierCatalogue.

(** ** Start-up: the configuration read from the environment *)

Module Config.

(** [s.split(sep)] for a separator of one character. *)
Fixpoint split (sep : Ascii.ascii) (s : string) : list string :=
  match s with
  | EmptyString => [EmptyString]
  | String c rest =>
      if Ascii.eqb c sep then EmptyString :: split sep rest
      else match split sep rest with
           | piece :: pieces => String c piece :: pieces
           | [] => [String c EmptyString]
           end
  end.

(** The character [|]. *)
Definition bar : Ascii.ascii := Ascii.ascii_of_nat 124.

Record t : Type := {
  connectStrings : list Target;
  port : Z;
}.

Section Load.
(** [sql.ConnectionPool.parseConnectionString], with the two assignments
    to the [options] object it returns; [parseInt], where [None] is
    [NaN]. *)
Context (parseConnectionString : string → Exn + Target).
Context (parseInt : option string → option Z).

(** The callback of [map]. *)
Definition parse_one (connectString : string) : M Target :=
  emit (Debug "app" ("Parsing connection string: " +:+ connectString)) ;;
  call (parseConnectionString connectString).

(** [pieces.map(parse_one)] *)
Fixpoint map_pieces (pieces : list string) : M (list Target) :=
  match pieces with
  | [] => ret []
  | piece :: rest =>
      config <- parse_one piece ;;
      configs <- map_pieces rest ;;
      ret (config :: configs)
  end.

(** [x || 4000] on the result of [parseInt]. *)
Definition or_default (n : option Z) : Z :=
  match n with
  | Some z => if decide (z = 0%Z) then 4000%Z else z
  | None => 4000%Z
  end.

(** The top of [index.js], given [process.env["CONNECTION_STRINGS"]] and
    [process.env["EXPOSE"]]. *)
Definition load (CONNECTION_STRINGS EXPOSE : option string) : M t :=
  match CONNECTION_STRINGS with
  | None | Some EmptyString => throw (Error "Missing CONNECTION_STRINGS information")
  | Some s =>
      connectStrings <- map_pieces (split bar s) ;;
      ret {| connectStrings := connectStrings; port := or_default (parseInt EXPOSE) |}
  end.

End Load.

End Config.

(** ** Vocabulary of the further properties *)

(** The exception of [Gauge.set] for a value the library does not accept. *)
Definition rejected (ext : Externals) (e : Exn) : Prop :=
  ∃ v, accepts ext v = false ∧
       e = TypeError ("Value is not a valid number: " +:+ ToString v).

(** The exception [m] ends with, if any, satisfies [Q]. *)
Definition raises {A} (Q : Exn → Prop) (m : M A) : Prop :=
  match result m with
  | inl e => Q e
  | inr _ => True
  end.

(** The sample names every label its gauge declares, in the declared
    order, and no other. *)
Definition fully_labelled (c : Collector.t) (e : Effect) : Prop :=
  match e with
  | GaugeSet m l v =>
      ∃ key g, (key, g) ∈ Collector.metrics c ∧ m = Gauge.name g ∧
               l.*1 = Gauge.labelNames g
  | _ => True
  end.

(** The returned collectors whose mapping function reads [rows[0]] and
    nothing else of the recordset. *)
Definition first_row_collectors : list string :=
  ["mssql_up"; "mssql_product_version"; "mssql_instance_local_time";
   "mssql_deadlocks"; "mssql_user_errors"; "mssql_kill_connection_errors";
   "mssql_buffer_manager"; "mssql_os_process_memory"; "mssql_os_sys_memory"].

(** The collectors whose mapping function is declared with a [config]
    parameter: the three that [getMetrics] returns and the one it does
    not. *)
Definition config_collectors (ext : Externals) : list (string * Collector.t) :=
  query_store_collectors ext ++ [("mssql_most_wait_query", mssql_most_wait_query ext)].

(** What the mapping function does when [measure] calls it: nothing
    unless the query returned rows. *)
Definition mapped (c : Collector.t) (server : JsValue) (outcome : Exn + Rows)
    : list Effect :=
  match outcome with
  | inr (row :: rows) =>
      effects (Collector.collect c (row :: rows) (Collector.metrics c) [server])
  | _ => []
  end.

Definition is_log (e : Effect) : Prop :=
  match e with ConsoleError _ _ => True | _ => False end.

(** The samples in a list of effects that go to the series [(m, l)]. *)
Definition samples (m : string) (l : Labels) (es : list Effect) : list JsValue :=
  omap (λ e, match e with
             | GaugeSet m' l' v => if decide (m' = m ∧ l' = l) then Some v else None
             | _ => None
             end) es.

Definition calm (e : Effect) : Prop :=
  match e with Query _ | Resolve => False | _ => True end.

(** The queries issued and the measures resolved along a trace. *)
Definition is_query (e : Effect) : bool :=
  match e with Query _ => true | _ => false end.

Definition issued (tr : Trace) : nat :=
  length (filter (λ ev : Event, is_query ev.2 = true) tr).

Definition resolved (tr : Trace) : nat :=
  length (filter (λ ev : Event, ev.2 = Resolve) tr).

(** The number of queries in flight after [tr], starting from [n]; [None]
    when a second query is issued while one is in flight, or a measure
    resolves without one. *)
Fixpoint pace (n : nat) (tr : Trace) : option nat :=
  match tr with
  | [] => Some n
  | (_, Query _) :: rest => if decide (n = 0) then pace 1 rest else None
  | (_, Resolve) :: rest => if decide (n = 1) then pace 0 rest else None
  | _ :: rest => pace n rest
  end.

(** What the first revision does for target number [i]. *)
Definition turn (ext : Externals) (env : Env) (close_result : nat → option Exn)
    (i : nat) (t : Target) : Trace :=
  (SequentialRoute.iteration ext env close_result (getMetrics ext) i t).1.

(** The catch block, as the trace shows it. *)
Definition marked_down (i : nat) (t : Target) : Trace :=
  acting (OnTarget i)
    [Debug "app" "Error handling /metrics request";
     GaugeSet "mssql_up" [("host", Str (server t))] (Number 0)].

(** The handler only ever adds to the trace. *)
Definition extends (st st' : State) : Prop := ∃ X, trace st' = trace st ++ X.

(** [v == null]: the values on which a property access raises. *)
Definition nullish (v : JsValue) : bool :=
  match v with Undefined | Null => true | _ => false end.

(** The number of occurrences of a character. *)
Fixpoint occurrences (c : Ascii.ascii) (s : string) : nat :=
  match s with
  | EmptyString => 0
  | String c' rest => (if Ascii.eqb c' c then 1 else 0) + occurrences c rest
  end.

Fixpoint contains (c : Ascii.ascii) (s : string) : bool :=
  match s with
  | EmptyString => false
  | String c' rest => Ascii.eqb c' c || contains c rest
  end.

(** The log lines of the pieces that were parsed. *)
Definition parse_log (pieces : list string) : list Effect :=
  (λ piece, Debug "app" ("Parsing connection string: " +:+ piece)) <$> pieces.

(** ** Worked runs of the first revision and of the start-up *)

Definition never : nat → option Exn := λ _, None.

(** [connection.close()] of target number 0 rejects. *)
Definition close_fails_on_first : nat → option Exn :=
  λ i, if decide (i = 0) then Some (Error "ECONNRESET") else None.

(** A parser that takes a connection string for a server name and
    rejects the empty one. *)
Definition sample_parse (connectString : string) : Exn + Target :=
  if decide (connectString = EmptyString)
  then inl (TypeError "Cannot read properties of undefined (reading 'split')")
  else inr {| server := connectString |}.

Definition unset : option string → option Z := λ _, None.

(** * Properties *)

(** ** Effects of synchronous code *)

Lemma effects_bind {A B} (m : M A) (f : A → M B) :
  effects (bind m f) =
  match result m with
  | inl _ => effects m
  | inr a => effects m ++ effects (f a)
  end.
Proof.
  destruct m as [l [e|a]]; simpl; [done|]. by destruct (f a).
Qed.

Lemma result_bind {A B} (m : M A) (f : A → M B) :
  result (bind m f) =
  match result m with
  | inl e => inl e
  | inr a => result (f a)
  end.
Proof.
  destruct m as [l [e|a]]; simpl; [done|]. by destruct (f a).
Qed.

Lemma effects_try_catch {A} (m : M A) (h : Exn → M A) :
  effects (try_catch m h) =
  match result m with
  | inl e => effects m ++ effects (h e)
  | inr _ => effects m
  end.
Proof.
  destruct m as [l [e|a]]; simpl; [|done]. by destruct (h e).
Qed.

Lemma result_try_catch {A} (m : M A) (h : Exn → M A) :
  result (try_catch m h) =
  match result m with
  | inl e => result (h e)
  | inr a => inr a
  end.
Proof.
  destruct m as [l [e|a]]; simpl; [|done]. by destruct (h e).
Qed.

(** Every effect of [m] satisfies [P]. *)
Definition emits {A} (P : Effect → Prop) (m : M A) : Prop :=
  Forall P (effects m).

Lemma emits_ret {A} P (a : A) : emits P (ret a).
Proof. constructor. Qed.

Lemma emits_throw {A} P e : emits P (@throw A e).
Proof. constructor. Qed.

Lemma emits_call {A} P (r : Exn + A) : emits P (call r).
Proof. constructor. Qed.

Lemma emits_emit (P : Effect → Prop) e : P e → emits P (emit e).
Proof. intros. by repeat constructor. Qed.

Lemma emits_bind {A B} P (m : M A) (f : A → M B) :
  emits P m → (∀ a, emits P (f a)) → emits P (bind m f).
Proof.
  unfold emits. intros Hm Hf. rewrite effects_bind.
  destruct (result m); [done|]. apply Forall_app; auto.
Qed.

Lemma emits_try_catch {A} P (m : M A) h :
  emits P m → (∀ e, emits P (h e)) → emits P (try_catch m h).
Proof.
  unfold emits. intros Hm Hh. rewrite effects_try_catch.
  destruct (result m); [|done]. apply Forall_app; auto.
Qed.

Lemma emits_get_property P v p : emits P (get_property v p).
Proof. destruct v; constructor. Qed.

Lemma emits_first_row {B} P rows (f : Row → M B) :
  (∀ row, row ∈ rows → emits P (f row)) → emits P (bind (first_row rows) f).
Proof.
  intros Hf. destruct rows as [|row rest]; [constructor|].
  specialize (Hf row (list_elem_of_here _ _)).
  unfold emits in *. by rewrite effects_bind.
Qed.

Lemma emits_for_rows P rows body :
  (∀ row, row ∈ rows → emits P (body row)) → emits P (for_rows rows body).
Proof.
  induction rows as [|row rest IH]; intros Hb; [constructor|].
  simpl. apply emits_bind.
  - apply Hb, list_elem_of_here.
  - intros _. apply IH. intros r Hr. apply Hb. by apply list_elem_of_further.
Qed.

Lemma emits_set_metric ext P metrics key labels v :
  (∀ g, assoc key metrics = Some g → accepts ext v = true →
        P (GaugeSet (Gauge.name g) labels v)) →
  emits P (set_metric ext metrics key labels v).
Proof.
  intros H. unfold set_metric. destruct (assoc key metrics) as [g|]; [|constructor].
  unfold Gauge.set. destruct (accepts ext v) eqn:Hv; simpl; [|constructor].
  destruct (forallb _ labels); simpl; [|constructor].
  apply emits_emit. by apply H.
Qed.

Lemma emits_impl {A} (P Q : Effect → Prop) (m : M A) :
  (∀ e, P e → Q e) → emits P m → emits Q m.
Proof. intros H Hm. by eapply Forall_impl. Qed.

(** ** Facts about the catalogue *)

Lemma js_add_str a b : ∃ s, js_add a (Str b) = Str s.
Proof. destruct a; simpl; eauto. Qed.

Lemma js_add_str_l a b : ∃ s, js_add (Str a) b = Str s.
Proof. destruct b; simpl; eauto. Qed.

Lemma js_add_text a b c : ∃ s, js_add (js_add a (Str b)) c = Str s.
Proof. destruct (js_add_str a b) as [s ->]. apply js_add_str_l. Qed.

(** A mapping function declared with [config] as its third parameter
    raises before anything else happens, whatever it is given there. *)
Lemma query_store_throws {A} config (k : JsValue → M A) :
  ∃ msg,
    (connect <- get_property config "connect" ;;
     options <- get_property connect "options" ;; k options)
    = ([], inl (TypeError msg)).
Proof. destruct config; simpl; eauto. Qed.

Lemma emits_query_store {A} P config (k : JsValue → M A) :
  emits P (connect <- get_property config "connect" ;;
           options <- get_property connect "options" ;; k options).
Proof. destruct (query_store_throws config k) as [msg ->]. constructor. Qed.

Ltac emits_step :=
  first
    [ apply emits_ret
    | apply emits_throw
    | apply emits_call
    | apply emits_get_property
    | apply emits_emit; exact I
    | apply emits_first_row; intros ? ?
    | apply emits_for_rows; intros ? ?
    | apply emits_set_metric; intros ? [= <-] _
    | apply emits_bind; [|intros ?] ].

Ltac sample_done :=
  unfold sample_ok, gauge_names; cbn;
  split; [by repeat first [apply list_elem_of_here | apply list_elem_of_further]|];
  split; [reflexivity|];
  unfold provenance, cell_of;
  repeat (destruct (decide _) as [?|?]; try discriminate; try contradiction);
  first [apply js_add_text | eauto 6].

Ltac collector_emits :=
  cbn [Collector.collect Collector.metrics]; unfold arg, metricsLog; cbn [nth];
  first [apply emits_query_store | repeat emits_step; sample_done].

(** Every entry of the catalogue, given a recordset and a host, only logs
    and sets samples of its own metrics, each labelled with that host and
    with a value of the stated provenance. *)
Lemma catalogue_emits ext name c rows host :
  (name, c) ∈ getMetrics ext →
  emits (sample_ok (gauge_names c) host (provenance ext name rows))
    (Collector.collect c rows (Collector.metrics c) [host]).
Proof.
  intros Hin. unfold getMetrics in Hin.
  repeat (apply elem_of_cons in Hin as [[= -> ->]|Hin]);
    [..|by apply elem_of_nil in Hin].
  all: collector_emits.
Qed.

Lemma catalogue_keys_NoDup ext : NoDup (getMetrics ext).*1.
Proof. apply (bool_decide_unpack _). by vm_compute. Qed.

Lemma catalogue_names_NoDup ext :
  NoDup (getMetrics ext ≫= λ e, gauge_names e.2).
Proof. apply (bool_decide_unpack _). by vm_compute. Qed.

Lemma on_connect_error_catalogue ext h error :
  Concurrent.on_connect_error ext (getMetrics ext) h error =
  ([Debug "app" ("Error handling /metrics request for server '" +:+ h +:+ "'");
    GaugeSet "mssql_up" [("host", Str h)] (Number 0)], inr tt).
Proof.
  unfold Concurrent.on_connect_error. cbn.
  unfold set_metric, Gauge.set. cbn. by rewrite accepts_finite.
Qed.

(** ** Facts about [measure] *)

Lemma measure_rows c name server row rows :
  Concurrent.measure c name server (inr (row :: rows)) =
  (let m := Collector.collect c (row :: rows) (Collector.metrics c) [server] in
   effects m ++
   match result m with
   | inl e => [ConsoleError ("Error processing metric '" +:+ name +:+ "' data") (Some e)]
   | inr _ => []
   end ++ [Resolve],
   inr tt).
Proof.
  unfold Concurrent.measure, Concurrent.on_fulfilled. simpl.
  destruct (Collector.collect c _ _ _) as [l [e|[]]]; simpl.
  - by rewrite <- !app_assoc.
  - done.
Qed.


Lemma measure_emits (P : Effect → Prop) c name server outcome :
  (∀ msg e, P (ConsoleError msg e)) → P Resolve →
  (∀ rows, outcome = inr rows →
     emits P (Collector.collect c rows (Collector.metrics c) [server])) →
  emits P (Concurrent.measure c name server outcome).
Proof.
  intros Hlog Hres Hc. destruct outcome as [e|[|row rows]].
  - repeat constructor; auto.
  - repeat constructor; auto.
  - unfold emits. rewrite measure_rows. simpl.
    apply Forall_app. split; [by apply Hc|].
    apply Forall_app. split; [destruct (result _)|]; repeat constructor; auto.
Qed.

Lemma measure_resolves c name server outcome :
  Resolve ∈ effects (Concurrent.measure c name server outcome).
Proof.
  destruct outcome as [e|[|row rows]].
  - simpl. set_solver.
  - simpl. set_solver.
  - rewrite measure_rows. simpl. rewrite !elem_of_app. right. right. set_solver.
Qed.

(** ** The registry *)

Lemma series_get_set l v s : series_get l (series_set l v s) = Some v.
Proof.
  induction s as [|[l' v'] s IH]; simpl.
  - by rewrite decide_True.
  - destruct (decide (l = l')) as [->|Hne]; simpl.
    + by rewrite decide_True.
    + by rewrite decide_False.
Qed.

Lemma series_get_set_ne l l' v s :
  l ≠ l' → series_get l' (series_set l v s) = series_get l' s.
Proof.
  intros Hne. induction s as [|[l0 v0] s IH]; simpl.
  - by rewrite decide_False.
  - destruct (decide (l = l0)) as [->|Hne0]; simpl.
    + by rewrite !decide_False.
    + destruct (decide (l' = l0)); [done|]. apply IH.
Qed.

Lemma series_set_id l v s : series_get l s = Some v → series_set l v s = s.
Proof.
  induction s as [|[l0 v0] s IH]; simpl; [done|].
  destruct (decide (l = l0)) as [->|Hne]; [by intros [= ->]|].
  intros H. by rewrite IH.
Qed.

Lemma series_set_set l v v' s :
  series_set l v (series_set l v' s) = series_set l v s.
Proof.
  induction s as [|[l0 v0] s IH]; simpl.
  - by rewrite decide_True.
  - destruct (decide (l = l0)) as [->|Hne]; simpl.
    + by rewrite decide_True.
    + rewrite decide_False by done. by rewrite IH.
Qed.

Lemma series_set_comm l1 l2 v1 v2 s :
  l1 ≠ l2 → is_Some (series_get l1 s) →
  series_set l1 v1 (series_set l2 v2 s) = series_set l2 v2 (series_set l1 v1 s).
Proof.
  intros Hne. induction s as [|[l0 v0] s IH]; simpl.
  - by intros [? [=]].
  - destruct (decide (l1 = l0)) as [->|Hne1].
    + intros _. rewrite (decide_False (P:=l2 = l0)) by done. simpl.
      rewrite decide_True by done. by rewrite decide_False.
    + intros Hs. destruct (decide (l2 = l0)) as [->|Hne2]; simpl.
      * rewrite decide_False by done. by rewrite decide_True.
      * rewrite !decide_False by done. by rewrite IH.
Qed.

Section Registry.
Implicit Types (ms : MetricSpace) (m : string) (l : Labels) (v : JsValue).

Lemma table_record m l v ms : table (record m l v ms) m = series_set l v (table ms m).
Proof. unfold table at 1, record. by rewrite lookup_insert_eq. Qed.

Lemma table_record_ne m m' l v ms : m ≠ m' → table (record m l v ms) m' = table ms m'.
Proof. intros. unfold table, record. by rewrite lookup_insert_ne. Qed.

Lemma observe_record m l v ms : observe (record m l v ms) m l = Some v.
Proof. unfold observe. rewrite table_record. apply series_get_set. Qed.

Lemma observe_record_ne m l v ms m' l' :
  ¬ (m = m' ∧ l = l') → observe (record m l v ms) m' l' = observe ms m' l'.
Proof.
  intros Hne. unfold observe. destruct (decide (m = m')) as [->|Hm].
  - rewrite table_record. apply series_get_set_ne. naive_solver.
  - by rewrite table_record_ne.
Qed.

Lemma record_id m l v ms : observe ms m l = Some v → record m l v ms = ms.
Proof.
  unfold observe, record, table. intros H.
  destruct (ms !! m) as [s|] eqn:Hs; simpl in *; [|done].
  rewrite series_set_id by done. by apply insert_id.
Qed.

Lemma record_record m l v v' ms : record m l v (record m l v' ms) = record m l v ms.
Proof.
  unfold record at 1. rewrite table_record, series_set_set.
  unfold record. by rewrite insert_insert_eq.
Qed.

Lemma record_comm m l v m' l' v' ms :
  ¬ (m = m' ∧ l = l') → is_Some (observe ms m l) →
  record m l v (record m' l' v' ms) = record m' l' v' (record m l v ms).
Proof.
  intros Hne Hs. destruct (decide (m = m')) as [<-|Hm].
  - unfold record at 1 3. rewrite !table_record.
    rewrite series_set_comm by naive_solver.
    unfold record. by rewrite !insert_insert_eq.
  - unfold record at 1 3. rewrite !table_record_ne by done.
    unfold record. by apply insert_insert_ne.
Qed.

Lemma replay_app tr1 tr2 ms : replay (tr1 ++ tr2) ms = replay tr2 (replay tr1 ms).
Proof. apply foldl_app. Qed.

Lemma sets_to_app m l tr1 tr2 :
  sets_to m l (tr1 ++ tr2) = sets_to m l tr1 ++ sets_to m l tr2.
Proof. apply omap_app. Qed.

Lemma observe_replay tr ms m l :
  observe (replay tr ms) m l =
  match last (sets_to m l tr) with
  | Some v => Some v
  | None => observe ms m l
  end.
Proof.
  induction tr as [|[a e] tr IH] using rev_ind; [done|].
  rewrite replay_app, sets_to_app. simpl.
  destruct e; simpl; rewrite ?app_nil_r; try apply IH.
  destruct (decide _) as [[-> ->]|Hne]; simpl.
  - rewrite last_snoc. apply observe_record.
  - rewrite app_nil_r, observe_record_ne by done. apply IH.
Qed.

Lemma sets_to_cons m l a e tr :
  sets_to m l ((a, e) :: tr) =
  match e with
  | GaugeSet m' l' v =>
      if decide (m' = m ∧ l' = l) then v :: sets_to m l tr else sets_to m l tr
  | _ => sets_to m l tr
  end.
Proof.
  unfold sets_to. simpl. destruct e; try done. by destruct (decide _).
Qed.

Lemma replay_absorb tr ms m l v :
  sets_to m l tr ≠ [] → is_Some (observe ms m l) →
  replay tr (record m l v ms) = replay tr ms.
Proof.
  revert ms v. induction tr as [|[a e] tr IH]; intros ms v Hw Hs; [done|].
  rewrite sets_to_cons in Hw. simpl.
  destruct e; simpl; try (by apply IH).
  destruct (decide _) as [[-> ->]|Hne].
  - by rewrite record_record.
  - rewrite <- record_comm; [|by intros [-> ->]; apply Hne|done]. apply IH; [done|].
    by rewrite observe_record_ne.
Qed.

Lemma replay_fixed tr ms :
  (∀ m l v, last (sets_to m l tr) = Some v → observe ms m l = Some v) →
  replay tr ms = ms.
Proof.
  revert ms. induction tr as [|[a e] tr IH]; intros ms H; [done|].
  assert (Hrest : replay tr ms = ms).
  { apply IH. intros m l v Hl. apply H. rewrite sets_to_cons.
    destruct e; try done. destruct (decide _); [|done].
    by rewrite last_cons, Hl. }
  simpl. destruct e; simpl; try done.
  destruct (sets_to metric labels tr) as [|w ws] eqn:Hw.
  - rewrite record_id; [done|]. apply H. rewrite sets_to_cons.
    rewrite decide_True by done. by rewrite Hw.
  - rewrite replay_absorb; [done|by rewrite Hw|].
    destruct (last (w :: ws)) as [v|] eqn:Hl.
    + exists v. apply H. rewrite sets_to_cons, decide_True by done.
      by rewrite last_cons, Hw, Hl.
    + by apply last_None in Hl.
Qed.

(** Replaying a trace over a registry it has already shaped changes
    nothing, even if the events come in another order, as long as every
    series receives the same values in the same order. *)
Lemma replay_idem tr1 tr2 ms :
  (∀ m l, sets_to m l tr2 = sets_to m l tr1) →
  replay tr2 (replay tr1 ms) = replay tr1 ms.
Proof.
  intros H. apply replay_fixed. intros m l v Hl.
  rewrite observe_replay. rewrite <- H. by rewrite Hl.
Qed.

End Registry.

(** ** The scheduler *)
Lemma of_actor_app a tr1 tr2 : of_actor a (tr1 ++ tr2) = of_actor a tr1 ++ of_actor a tr2.
Proof. apply filter_app. Qed.

Lemma of_actor_acting a b l :
  of_actor a (acting b l) = if decide (a = b) then acting b l else [].
Proof.
  unfold of_actor, acting. induction l as [|e l IH].
  - by destruct (decide _).
  - rewrite fmap_cons, filter_cons, IH. cbn [fst].
    destruct (decide (a = b)) as [->|Hne].
    + by rewrite decide_True.
    + by rewrite decide_False.
Qed.

Lemma of_actor_singleton a ev :
  of_actor a [ev] = if decide (ev.1 = a) then [ev] else [].
Proof. unfold of_actor. by rewrite filter_cons, filter_nil. Qed.

Lemma of_actor_acting_eq a l : of_actor a (acting a l) = acting a l.
Proof. by rewrite of_actor_acting, decide_True. Qed.

Lemma of_actor_acting_ne a b l : a ≠ b → of_actor a (acting b l) = [].
Proof. intros. by rewrite of_actor_acting, decide_False. Qed.

Lemma elem_of_acting a b e l : (a, e) ∈ acting b l ↔ a = b ∧ e ∈ l.
Proof.
  unfold acting. rewrite list_elem_of_fmap. split.
  - by intros (x & [= -> ->] & ?).
  - intros [-> ?]. eauto.
Qed.

Lemma elem_of_of_actor a ev tr : ev ∈ of_actor a tr ↔ ev.1 = a ∧ ev ∈ tr.
Proof. unfold of_actor. by rewrite list_elem_of_filter. Qed.

Section Scheduler.
Context (ext : Externals) (env : Env) (sched : Schedule).
Context (entries : list (string * Collector.t)).

Abbreviation settle := (settle env).
Abbreviation measure_settle := (measure_settle env).
Abbreviation spawned := (spawned env entries).
Abbreviation Inv := (Inv ext env entries).
Abbreviation branch := (branch ext env entries).
Abbreviation closing := (closing env).

Lemma resolves_true t : resolves env t = true.
Proof. apply bool_decide_eq_true, measure_resolves. Qed.

Lemma waiting_outstanding i st : waiting env i st = outstanding i st.
Proof.
  unfold waiting, outstanding.
  replace (existsb _ (settled st)) with false; [apply orb_false_r|].
  induction (settled st) as [|t l IH]; [done|]. simpl.
  by rewrite resolves_true, andb_false_r.
Qed.

Lemma finally_trace i st :
  trace (finally env i st) =
  trace st ++ (if outstanding i st then [] else [(OnTarget i, Close)]).
Proof.
  unfold finally. rewrite waiting_outstanding.
  destruct (outstanding i st); simpl; by rewrite ?app_nil_r.
Qed.

Lemma finally_pending i st : pending (finally env i st) = pending st.
Proof. unfold finally. by destruct (waiting env i st). Qed.

Lemma finally_settled i st : settled (finally env i st) = settled st.
Proof. unfold finally. by destruct (waiting env i st). Qed.

Lemma measure_start_actor a t :
  of_actor a (measure_start t) = if decide (a = key t) then measure_start t else [].
Proof. apply of_actor_acting. Qed.

Lemma measure_settle_actor a t :
  of_actor a (measure_settle t) = if decide (a = key t) then measure_settle t else [].
Proof. apply of_actor_acting. Qed.

Lemma spawned_snoc done t :
  spawned (done ++ [t]) =
  spawned done ++ match connect_result env (length done) with
                  | None => tasks_of entries (length done) (server t)
                  | Some _ => []
                  end.
Proof.
  unfold spawned. rewrite imap_app. simpl.
  rewrite join_app. simpl. by rewrite Nat.add_0_r, app_nil_r.
Qed.

Lemma elem_of_spawned done t :
  t ∈ spawned done ↔
  ∃ tg, done !! target t = Some tg ∧ connect_result env (target t) = None ∧
        host t = server tg ∧ (entry t, collector t) ∈ entries.
Proof.
  induction done as [|tg done IH] using rev_ind.
  { split; [by intros ?%elem_of_nil|]. by intros (? & ? & _). }
  rewrite spawned_snoc, elem_of_app, IH. split.
  - intros [(tg' & ? & ?)|Hin].
    + exists tg'. split; [by apply lookup_app_l_Some|done].
    + destruct (connect_result env (length done)) eqn:Hc; [by apply elem_of_nil in Hin|].
      apply list_elem_of_fmap in Hin as ([n c] & -> & Hin). simpl.
      exists tg. split; [by apply list_lookup_middle|]. done.
  - intros (tg' & Hl & Hc & Hh & He).
    apply lookup_app_Some in Hl as [Hl|[Hlen Hl]]; [left; eauto|].
    right. destruct (target t - length done) as [|k] eqn:Hk; [|by destruct k].
    simpl in Hl. injection Hl as ->.
    assert (target t = length done) as Ht by lia. rewrite <- Ht, Hc.
    apply list_elem_of_fmap. exists (entry t, collector t). split; [|done].
    destruct t; simpl in *. by subst.
Qed.

Lemma spawned_target done t : t ∈ spawned done → target t < length done.
Proof.
  intros (tg & Hl & _)%elem_of_spawned. by apply lookup_lt_Some in Hl.
Qed.


(** *** Splitting an extended trace at an event *)

Lemma app_eq_cons_split {A} (l X l1 l2 : list A) e :
  l ++ X = l1 ++ e :: l2 →
  (∃ l2', l = l1 ++ e :: l2' ∧ l2 = l2' ++ X) ∨
  (∃ l1', X = l1' ++ e :: l2 ∧ l1 = l ++ l1').
Proof.
  revert l1. induction l as [|x l IH]; intros l1 H; simpl in *.
  - right. by exists l1.
  - destruct l1 as [|y l1]; simpl in *.
    + injection H as -> <-. left. by exists l.
    + injection H as -> H. apply IH in H as [(l2' & -> & ->)|(l1' & -> & ->)].
      * left. by exists l2'.
      * right. by exists l1'.
Qed.

Lemma close_last_app tr X :
  close_last tr → close_last X →
  (∀ i, (OnTarget i, Close) ∈ tr → Forall (λ ev, ¬ on_target i ev) X) →
  close_last (tr ++ X).
Proof.
  intros Htr HX Hsep l1 l2 i [(l2' & -> & ->)|(l1' & -> & ->)]%app_eq_cons_split.
  - apply Forall_app. split; [by eapply Htr|].
    apply Hsep. rewrite elem_of_app. right. apply list_elem_of_here.
  - by eapply HX.
Qed.

Lemma close_last_free X : (∀ i, (OnTarget i, Close) ∉ X) → close_last X.
Proof.
  intros H l1 l2 i ->. destruct (H i).
  rewrite elem_of_app. right. apply list_elem_of_here.
Qed.

Lemma close_last_singleton ev : close_last [ev].
Proof.
  intros l1 l2 i H. destruct l1 as [|? [|? ?]]; simplify_eq/=. constructor.
Qed.

Lemma connect_order_app tr X :
  connect_order tr → (∀ j, (OnTarget j, Connect) ∉ X) → connect_order (tr ++ X).
Proof.
  intros Htr HX l1 l2 j [(l2' & -> & ->)|(l1' & -> & ->)]%app_eq_cons_split.
  - by eapply Htr.
  - destruct (HX j). rewrite elem_of_app. right. apply list_elem_of_here.
Qed.

Lemma connect_order_attempt tr j :
  connect_order tr →
  (∀ i, i < j → ∃ ev, ev ∈ tr ∧ connect_settled i ev) →
  connect_order (tr ++ acting (OnTarget j) [Debug "db" "Connecting"; Connect]).
Proof.
  intros Htr Hall l1 l2 j' [(l2' & -> & ->)|(l1' & HX & ->)]%app_eq_cons_split.
  - by eapply Htr.
  - intros i Hi. destruct l1' as [|? [|? [|? ?]]]; simplify_eq/=.
    destruct (Hall i Hi) as (ev & ? & ?). exists ev.
    split; [|done]. rewrite elem_of_app. by left.
Qed.


(** *** One step of the scheduler *)


Lemma on_connect_error_quiet h e : quiet (effects (on_connect_error ext entries h e)).
Proof.
  unfold on_connect_error. apply emits_bind; [by apply emits_emit|intros _].
  apply emits_bind; [destruct (assoc _ _); constructor|intros c].
  by apply emits_set_metric.
Qed.

Lemma opening_close i t : Close ∉ opening ext env entries i t.
Proof.
  unfold opening. rewrite elem_of_app. intros [H|H].
  - by repeat (apply elem_of_cons in H as [?|H]; [done|]); apply elem_of_nil in H.
  - destruct (connect_result env i).
    + apply elem_of_cons in H as [?|H]; [done|].
      pose proof (on_connect_error_quiet (server t) e) as Hq.
      unfold quiet in Hq. rewrite Forall_forall in Hq. by apply Hq in H.
    + by apply list_elem_of_singleton in H.
Qed.

Lemma outstanding_spec i st :
  outstanding i st = true ↔ ∃ t, t ∈ pending st ∧ target t = i.
Proof.
  unfold outstanding. induction (pending st) as [|t l IH]; simpl.
  - split; [done|]. by intros (? & ?%elem_of_nil & _).
  - rewrite orb_true_iff, IH, bool_decide_eq_true. split.
    + intros [<-|(t' & ? & ?)]; [exists t|exists t']; split; try done.
      * apply list_elem_of_here.
      * by apply list_elem_of_further.
    + intros (t' & [->|?]%elem_of_cons & ?); [by left|right; eauto].
Qed.

Lemma outstanding_false i st :
  outstanding i st = false ↔ ∀ t, t ∈ pending st → target t ≠ i.
Proof.
  rewrite <- not_true_iff_false, outstanding_spec. split.
  - intros H t Ht Hi. apply H. eauto.
  - intros H (t & Ht & Hi). by eapply H.
Qed.

Lemma outstanding_ext i st st' :
  (∀ t, target t = i → t ∈ pending st ↔ t ∈ pending st') →
  outstanding i st = outstanding i st'.
Proof.
  intros H. apply eq_true_iff_eq. rewrite !outstanding_spec.
  split; intros (t & Ht & Hi); exists t; (split; [|done]); by apply (H t Hi).
Qed.

Lemma of_actor_bind {A} a (l : list A) (f : A → Trace) :
  of_actor a (l ≫= f) = l ≫= λ t, of_actor a (f t).
Proof.
  induction l as [|x l IH]; [done|].
  by rewrite !bind_cons, of_actor_app, IH.
Qed.

Lemma bind_nil_all {A B} (l : list A) (f : A → list B) :
  (∀ x, x ∈ l → f x = []) → l ≫= f = [].
Proof.
  induction l as [|x l IH]; intros H; [done|].
  rewrite bind_cons, H, IH; [done| |apply list_elem_of_here].
  intros y Hy. apply H. by apply list_elem_of_further.
Qed.

Section Steps.
Context (extra : Trace) (done : list Target) (st : State).
Context (HInv : Inv extra done st).
Context (Hextra : ∀ i, i < length done → of_actor (OnTarget i) extra = []).
Context (Hextra_close : ∀ i, (OnTarget i, Close) ∉ extra).

Lemma inv_pending_spawned t : t ∈ pending st → t ∈ spawned done.
Proof.
  intros Ht. rewrite <- (inv_perm _ _ _ _ _ _ HInv). rewrite elem_of_app. by left.
Qed.

Lemma inv_settled_spawned t : t ∈ settled st → t ∈ spawned done.
Proof.
  intros Ht. rewrite <- (inv_perm _ _ _ _ _ _ HInv). rewrite elem_of_app. by right.
Qed.

Lemma inv_closed i :
  (OnTarget i, Close) ∈ trace st →
  outstanding i st = false ∧ i < length done.
Proof.
  intros Hin.
  assert ((OnTarget i, Close) ∈ of_actor (OnTarget i) (trace st)) as H
    by by apply elem_of_of_actor.
  rewrite (inv_branch _ _ _ _ _ _ HInv), elem_of_app in H.
  destruct H as [H|H]; [|by apply elem_of_of_actor in H as [_ ?%Hextra_close]].
  unfold branch in H. destruct (done !! i) as [t|] eqn:Hl; [|by apply elem_of_nil in H].
  apply lookup_lt_Some in Hl. split; [|done].
  apply elem_of_app in H as [H|H].
  - apply elem_of_acting in H as [_ H]. by apply opening_close in H.
  - unfold closing in H. destruct (connect_result env i); [by apply elem_of_nil in H|].
    destruct (outstanding i st); [by apply elem_of_nil in H|done].
Qed.

End Steps.

Lemma measure_settle_free t i : (OnTarget i, Close) ∉ measure_settle t.
Proof. by intros [? _]%elem_of_acting. Qed.

Lemma measure_settle_connect t i : (OnTarget i, Connect) ∉ measure_settle t.
Proof. by intros [? _]%elem_of_acting. Qed.

Lemma acting_on_target a l i :
  (∀ j, a = OnTarget j ∨ (∃ n, a = OnTask j n) → j ≠ i) →
  Forall (λ ev, ¬ on_target i ev) (acting a l).
Proof.
  intros H. apply Forall_forall. intros [a' e] [-> _]%elem_of_acting.
  unfold on_target. simpl. destruct a; [tauto|..]; intros <-; eapply H; eauto.
Qed.

Lemma outstanding_finally i j st : outstanding i (finally env j st) = outstanding i st.
Proof. unfold outstanding. by rewrite finally_pending. Qed.

Lemma branch_finally done st i j : branch done (finally env j st) i = branch done st i.
Proof. unfold branch, closing. by rewrite outstanding_finally. Qed.

Lemma of_actor_close a i (b : bool) :
  of_actor a (if b then [] else [(OnTarget i, Close)]) =
  if decide (a = OnTarget i) then (if b then [] else [(OnTarget i, Close)]) else [].
Proof.
  destruct b; [by destruct (decide _)|].
  unfold of_actor. rewrite filter_cons, filter_nil. simpl.
  destruct (decide (a = OnTarget i)) as [->|?].
  - by rewrite decide_True.
  - by rewrite decide_False.
Qed.

Lemma Inv_settle extra done st k :
  Inv extra done st →
  (∀ i, i < length done → of_actor (OnTarget i) extra = []) →
  (∀ i, (OnTarget i, Close) ∉ extra) →
  Inv extra done (settle st k).
Proof.
  intros HInv Hextra Hclose. unfold Concurrent.settle.
  destruct (pending st !! k) as [t|] eqn:Hk; [|done].
  set (st1 := {| trace := trace st ++ measure_settle t;
                 pending := delete k (pending st);
                 settled := settled st ++ [t] |}).
  assert (t ∈ pending st) as Hpend by by eapply list_elem_of_lookup_2.
  assert (t ∈ spawned done) as Hsp by by eapply inv_pending_spawned.
  apply elem_of_spawned in Hsp as (tg & Hdone & Hconn & Hhost & Hentry).
  assert (Hperm : pending st ≡ₚ t :: delete k (pending st))
    by by apply delete_Permutation.
  assert (Hmem : ∀ x, x ∈ pending st ↔ x = t ∨ x ∈ delete k (pending st)).
  { intros x. rewrite <- elem_of_cons. by apply elem_of_Permutation_proper. }
  assert (Hout : outstanding (target t) st = true).
  { apply outstanding_spec. eauto. }
  assert (Hnotclosed : (OnTarget (target t), Close) ∉ trace st).
  { intros Hin. eapply inv_closed in Hin as [Hf _]; eauto. congruence. }
  split.
  - rewrite finally_pending, finally_settled. simpl.
    etrans; [|apply (inv_perm _ _ _ _ _ _ HInv)].
    rewrite (assoc_L (++)), <- Permutation_cons_append.
    change (t :: delete k (pending st) ++ settled st)
      with ((t :: delete k (pending st)) ++ settled st).
    by rewrite <- Hperm.
  - intros a Ha. rewrite finally_trace, finally_settled. simpl.
    rewrite !of_actor_app, (inv_tasks _ _ _ _ _ _ HInv a Ha).
    rewrite bind_app, bind_singleton, <- !(assoc_L (++)). do 2 f_equal.
    destruct Ha as (j & n & ->).
    rewrite of_actor_close, decide_False by done. by rewrite app_nil_r.
  - intros i. rewrite finally_trace. simpl.
    rewrite !of_actor_app, (inv_branch _ _ _ _ _ _ HInv i).
    rewrite measure_settle_actor, decide_False by done. simpl.
    rewrite of_actor_close.
    destruct (decide (i = target t)) as [->|Hne].
    + rewrite decide_True by done. rewrite Hextra by by eapply lookup_lt_Some.
      rewrite !app_nil_r. unfold branch. rewrite Hdone.
      unfold closing. rewrite Hconn, Hout.
      by rewrite outstanding_finally, app_nil_r.
    + rewrite decide_False by congruence.
      rewrite !app_nil_r.
      assert (branch done (finally env (target t) st1) i = branch done st i)
        as ->; [|done].
      unfold branch. destruct (done !! i); [|done]. unfold closing.
      destruct (connect_result env i); [done|].
      rewrite outstanding_finally, (outstanding_ext i st1 st); [done|].
      intros t' Ht'. simpl. rewrite Hmem. split; [by right|].
      intros [->|?]; [congruence|done].
  - rewrite finally_trace. simpl. rewrite !of_actor_app, (inv_handler _ _ _ _ _ _ HInv).
    rewrite measure_settle_actor, decide_False by done.
    by rewrite of_actor_close, decide_False.
  - rewrite finally_trace. simpl.
    assert (close_last (trace st ++ measure_settle t)) as H1.
    { apply close_last_app; [by apply (inv_close_last _ _ _ _ _ _ HInv)| |].
      - apply close_last_free. apply measure_settle_free.
      - intros i Hi. apply acting_on_target. intros j [[=]|(n & [= <- _])] <-.
        done. }
    destruct (outstanding _ st1); [by rewrite app_nil_r|].
    apply close_last_app; [done|apply close_last_singleton|].
    intros i Hi. repeat constructor. unfold on_target. simpl. intros <-.
    apply elem_of_app in Hi as [Hi|Hi]; [done|]. by apply measure_settle_free in Hi.
  - rewrite finally_trace. simpl.
    apply connect_order_app.
    + apply connect_order_app; [by apply (inv_connect_order _ _ _ _ _ _ HInv)|].
      apply measure_settle_connect.
    + intros j. destruct (outstanding _ st1); [apply not_elem_of_nil|].
      by intros [=]%list_elem_of_singleton.
Qed.


Lemma Inv_settles extra done picks st :
  Inv extra done st →
  (∀ i, i < length done → of_actor (OnTarget i) extra = []) →
  (∀ i, (OnTarget i, Close) ∉ extra) →
  Inv extra done (foldl settle st picks).
Proof.
  intros H ??. revert st H. induction picks as [|k picks IH]; intros st H; [done|].
  simpl. apply IH. by apply Inv_settle.
Qed.


Lemma attempt_extra i j : j < i → of_actor (OnTarget j) (attempt i) = [].
Proof. intros. apply of_actor_acting_ne. intros [=]. lia. Qed.

Lemma attempt_close i j : (OnTarget j, Close) ∉ attempt i.
Proof.
  intros [_ H]%elem_of_acting.
  by repeat (apply elem_of_cons in H as [?|H]; [done|]); apply elem_of_nil in H.
Qed.

Lemma branch_beyond done st i : length done ≤ i → branch done st i = [].
Proof. intros. unfold branch. by rewrite lookup_ge_None_2. Qed.

Lemma inv_connect_settled extra done st i :
  Inv extra done st → i < length done →
  ∃ ev, ev ∈ trace st ∧ connect_settled i ev.
Proof.
  intros HInv Hi. apply lookup_lt_is_Some in Hi as [t Ht].
  assert (∃ ev, ev ∈ acting (OnTarget i) (opening ext env entries i t) ∧
                connect_settled i ev) as (ev & Hev & ?).
  { unfold opening. destruct (connect_result env i) as [e|].
    - exists (OnTarget i, ConnectFailed e). split; [|right; eauto].
      apply elem_of_acting. split; [done|].
      rewrite elem_of_app. right. apply list_elem_of_here.
    - exists (OnTarget i, Connected). split; [|by left].
      apply elem_of_acting. split; [done|].
      rewrite elem_of_app. right. apply list_elem_of_here. }
  exists ev. split; [|done].
  assert (ev ∈ of_actor (OnTarget i) (trace st)) as H'.
  { rewrite (inv_branch _ _ _ _ _ _ HInv). unfold branch. rewrite Ht.
    rewrite !elem_of_app. by do 2 left. }
  by apply elem_of_of_actor in H' as [_ ?].
Qed.

Lemma Inv_attempt done st :
  Inv [] done st →
  Inv (attempt (length done)) done
    {| trace := trace st ++ attempt (length done);
       pending := pending st; settled := settled st |}.
Proof.
  intros HInv. split; simpl.
  - apply HInv.
  - intros a Ha. rewrite of_actor_app, (inv_tasks _ _ _ _ _ _ HInv a Ha).
    destruct Ha as (j & n & ->).
    unfold attempt. by rewrite of_actor_acting_ne, app_nil_r.
  - intros i. rewrite of_actor_app, (inv_branch _ _ _ _ _ _ HInv i).
    by rewrite app_nil_r.
  - rewrite of_actor_app, (inv_handler _ _ _ _ _ _ HInv).
    unfold attempt. by rewrite of_actor_acting_ne.
  - apply close_last_app; [apply HInv| |].
    + apply close_last_free, attempt_close.
    + intros i [_ Hi]%(inv_closed _ _ _ HInv); [|intros ?; apply not_elem_of_nil].
      apply acting_on_target. intros j [[= <-]|(n & [=])]. lia.
  - apply connect_order_attempt; [apply HInv|].
    intros i Hi. by eapply inv_connect_settled.
Qed.


Lemma acting_app a l1 l2 : acting a (l1 ++ l2) = acting a l1 ++ acting a l2.
Proof. apply fmap_app. Qed.

Lemma acting_quiet_close a l i : quiet l → (OnTarget i, Close) ∉ acting a l.
Proof.
  intros Hq [_ H]%elem_of_acting. unfold quiet in Hq.
  rewrite Forall_forall in Hq. by apply Hq in H.
Qed.

Lemma acting_quiet_connect a l i : quiet l → (OnTarget i, Connect) ∉ acting a l.
Proof.
  intros Hq [_ H]%elem_of_acting. unfold quiet in Hq.
  rewrite Forall_forall in Hq. by apply Hq in H.
Qed.

Lemma Inv_failed done st t e :
  let i := length done in
  Inv (attempt i) done st →
  connect_result env i = Some e →
  Inv [] (done ++ [t])
    {| trace := trace st ++
                acting (OnTarget i)
                  (ConnectFailed e :: effects (on_connect_error ext entries (server t) e));
       pending := pending st; settled := settled st |}.
Proof.
  intros i HInv Hc.
  set (chunk := acting (OnTarget i) (ConnectFailed e :: _)).
  assert (Hfree : ∀ j, (OnTarget j, Close) ∉ chunk).
  { intros j [_ H]%elem_of_acting. apply elem_of_cons in H as [?|H]; [done|].
    pose proof (on_connect_error_quiet (server t) e) as Hq.
    unfold quiet in Hq. rewrite Forall_forall in Hq. by apply Hq in H. }
  assert (Hfree' : ∀ j, (OnTarget j, Connect) ∉ chunk).
  { intros j [_ H]%elem_of_acting. apply elem_of_cons in H as [?|H]; [done|].
    pose proof (on_connect_error_quiet (server t) e) as Hq.
    unfold quiet in Hq. rewrite Forall_forall in Hq. by apply Hq in H. }
  split; simpl.
  - rewrite spawned_snoc. fold i. rewrite Hc, app_nil_r. apply HInv.
  - intros a Ha. rewrite of_actor_app, (inv_tasks _ _ _ _ _ _ HInv a Ha).
    rewrite spawned_snoc. fold i. rewrite Hc, app_nil_r.
    destruct Ha as (j & n & ->).
    unfold chunk. by rewrite of_actor_acting_ne, app_nil_r.
  - intros j. rewrite of_actor_app, (inv_branch _ _ _ _ _ _ HInv j), app_nil_r.
    unfold chunk, attempt. rewrite !of_actor_acting.
    destruct (decide (OnTarget j = OnTarget i)) as [[= ->]|Hne].
    + rewrite branch_beyond by done. unfold branch.
      rewrite list_lookup_middle by done. unfold opening, closing. fold i.
      rewrite Hc. by rewrite acting_app, app_nil_r.
    + rewrite !app_nil_r. unfold branch.
      destruct (decide (j < i)).
      * by rewrite lookup_app_l.
      * rewrite !lookup_ge_None_2; [done|..]; [rewrite length_app; simpl|];
          unfold i in *; (assert (j ≠ length done) by congruence); lia.
  - rewrite of_actor_app, (inv_handler _ _ _ _ _ _ HInv).
    unfold chunk. by rewrite of_actor_acting_ne.
  - apply close_last_app; [apply HInv|by apply close_last_free|].
    intros j [_ Hj]%(inv_closed _ _ _ HInv); [|apply attempt_close].
    apply acting_on_target. intros j' [[= <-]|(n & [=])]. unfold i. lia.
  - apply connect_order_app; [apply HInv|done].
Qed.

Lemma elem_of_tasks_of i h t :
  t ∈ tasks_of entries i h ↔
  target t = i ∧ host t = h ∧ (entry t, collector t) ∈ entries.
Proof.
  unfold tasks_of. rewrite list_elem_of_fmap. split.
  - by intros ([n c] & -> & ?).
  - intros (? & ? & ?). exists (entry t, collector t). split; [|done].
    destruct t; simpl in *. by subst.
Qed.


Lemma collect_unfold i h st :
  collect env entries i h st =
  finally env i
    {| trace := trace st ++ (tasks_of entries i h ≫= measure_start);
       pending := pending st ++ tasks_of entries i h;
       settled := settled st |}.
Proof. done. Qed.

Lemma starts_free i h j : (OnTarget j, Close) ∉ (tasks_of entries i h ≫= measure_start).
Proof. by intros (t & [? _]%elem_of_acting & _)%list_elem_of_bind. Qed.

Lemma starts_connect i h j : (OnTarget j, Connect) ∉ (tasks_of entries i h ≫= measure_start).
Proof. by intros (t & [? _]%elem_of_acting & _)%list_elem_of_bind. Qed.

Lemma starts_on_target i h j :
  j ≠ i → Forall (λ ev, ¬ on_target j ev) (tasks_of entries i h ≫= measure_start).
Proof.
  intros Hne. apply Forall_forall.
  intros [a e] (t & [-> _]%elem_of_acting & (Ht & _)%elem_of_tasks_of)%list_elem_of_bind.
  unfold on_target. simpl. congruence.
Qed.

Lemma Inv_connected done st t :
  let i := length done in
  Inv (attempt i) done st →
  connect_result env i = None →
  Inv [] (done ++ [t])
    (collect env entries i (server t)
       {| trace := trace st ++ [(OnTarget i, Connected)];
          pending := pending st; settled := settled st |}).
Proof.
  intros i HInv Hc. rewrite collect_unfold. simpl.
  set (tasks := tasks_of entries i (server t)).
  set (st3 := {| trace := (trace st ++ [(OnTarget i, Connected)]) ++
                          (tasks ≫= measure_start);
                 pending := pending st ++ tasks; settled := settled st |}).
  assert (Hclosed : ∀ j, (OnTarget j, Close) ∈ trace st → j < i).
  { intros j [_ Hj]%(inv_closed _ _ _ HInv); [done|apply attempt_close]. }
  assert (Hsettled : ∀ t', t' ∈ settled st → target t' < i).
  { intros t' Ht'. eapply spawned_target, inv_settled_spawned; eauto. }
  assert (Hpending : ∀ t', t' ∈ pending st → target t' < i).
  { intros t' Ht'. eapply spawned_target, inv_pending_spawned; eauto. }
  split.
  - rewrite finally_pending, finally_settled. simpl.
    rewrite spawned_snoc. fold i. rewrite Hc. fold tasks.
    rewrite <- (inv_perm _ _ _ _ _ _ HInv).
    rewrite <- !(assoc_L (++)). f_equiv. apply Permutation_app_comm.
  - intros a Ha. rewrite finally_trace, finally_settled. simpl.
    rewrite !of_actor_app, (inv_tasks _ _ _ _ _ _ HInv a Ha).
    rewrite spawned_snoc. fold i. rewrite Hc. fold tasks.
    rewrite bind_app, of_actor_bind, of_actor_close.
    destruct Ha as (j & n & ->).
    rewrite decide_False by done.
    rewrite of_actor_singleton. cbn [fst].
    rewrite decide_False by done. rewrite !app_nil_r.
    destruct (decide (j = i)) as [->|Hne].
    + rewrite (bind_nil_all (settled st)); [by rewrite !app_nil_r|].
      intros t' Ht'%Hsettled. rewrite measure_settle_actor, decide_False; [done|].
      unfold key. intros [= ? _]. lia.
    + rewrite (bind_nil_all tasks); [by rewrite !app_nil_r|].
      intros t' (Ht' & _)%elem_of_tasks_of.
      rewrite measure_start_actor, decide_False; [done|].
      unfold key. congruence.
  - intros j. rewrite finally_trace. simpl.
    rewrite !of_actor_app, (inv_branch _ _ _ _ _ _ HInv j).
    rewrite of_actor_bind, of_actor_close, app_nil_r.
    rewrite (bind_nil_all tasks).
    2:{ intros t' _. by rewrite measure_start_actor, decide_False. }
    unfold attempt. rewrite of_actor_acting, of_actor_singleton. cbn [fst].
    rewrite branch_finally.
    destruct (decide (j = i)) as [->|Hne].
    + rewrite !decide_True by done. rewrite branch_beyond by done.
      unfold branch. rewrite list_lookup_middle by done.
      unfold opening, closing. fold i. by rewrite Hc, acting_app.
    + rewrite !decide_False by congruence. rewrite !app_nil_r.
      unfold branch. destruct (decide (j < i)).
      * rewrite lookup_app_l by done. destruct (done !! j); [|done].
        f_equal. unfold closing. destruct (connect_result env j); [done|].
        rewrite (outstanding_ext j st st3); [done|].
        intros t' Ht'. simpl. rewrite elem_of_app. split; [by left|].
        intros [?|(? & _)%elem_of_tasks_of]; [done|congruence].
      * rewrite !lookup_ge_None_2; [done|..]; [rewrite length_app; simpl|];
          unfold i in *; lia.
  - rewrite finally_trace. simpl.
    rewrite !of_actor_app, (inv_handler _ _ _ _ _ _ HInv).
    rewrite of_actor_bind, of_actor_close, decide_False by done.
    rewrite (bind_nil_all tasks).
    2:{ intros t' _. by rewrite measure_start_actor, decide_False. }
    rewrite of_actor_singleton. cbn [fst].
    by rewrite decide_False.
  - rewrite finally_trace. simpl.
    assert (close_last (trace st ++ [(OnTarget i, Connected)])) as H1.
    { apply close_last_app; [apply HInv|apply close_last_singleton|].
      intros j Hj%Hclosed. repeat constructor. unfold on_target. simpl. lia. }
    assert (close_last ((trace st ++ [(OnTarget i, Connected)]) ++
                        (tasks ≫= measure_start))) as H2.
    { apply close_last_app; [done|apply close_last_free, starts_free|].
      intros j [Hj%Hclosed|[=]%list_elem_of_singleton]%elem_of_app.
      apply starts_on_target. lia. }
    destruct (outstanding i st3); [by rewrite app_nil_r|].
    apply close_last_app; [done|apply close_last_singleton|].
    intros j Hj. repeat constructor. unfold on_target. simpl. intros <-.
    apply elem_of_app in Hj as [Hj|Hj]; [|by apply starts_free in Hj].
    apply elem_of_app in Hj as [Hj%Hclosed|[=]%list_elem_of_singleton]. lia.
  - rewrite finally_trace. simpl.
    apply connect_order_app; [apply connect_order_app; [apply connect_order_app|]|].
    + apply HInv.
    + by intros j [=]%list_elem_of_singleton.
    + apply starts_connect.
    + intros j. destruct (outstanding i st3); [apply not_elem_of_nil|].
      by intros [=]%list_elem_of_singleton.
Qed.


(** *** The whole request *)


Lemma Inv_initial : Inv [] [] initial.
Proof.
  split; try done.
  - by intros a (j & n & ->).
  - intros l1 l2 i H. by destruct l1 as [|? [|? ?]].
  - intros l1 l2 i H. by destruct l1 as [|? [|? ?]].
Qed.

Context (Hup : ∀ h e, result (on_connect_error ext entries h e) = inr tt).

Lemma connect_loop_cons i t rest st :
  connect_loop ext env sched entries i (t :: rest) st =
  let st1 := foldl settle
               {| trace := trace st ++ attempt i;
                  pending := pending st; settled := settled st |}
               (while_connecting sched i) in
  match connect_result env i with
  | None =>
      connect_loop ext env sched entries (S i) rest
        (collect env entries i (server t)
           {| trace := trace st1 ++ [(OnTarget i, Connected)];
              pending := pending st1; settled := settled st1 |})
  | Some error =>
      let m := on_connect_error ext entries (server t) error in
      let st2 := {| trace := trace st1 ++
                             acting (OnTarget i) (ConnectFailed error :: effects m);
                    pending := pending st1; settled := settled st1 |} in
      match result m with
      | inl e => (st2, Some e)
      | inr _ => connect_loop ext env sched entries (S i) rest st2
      end
  end.
Proof. done. Qed.

Lemma connect_loop_Inv targets done st :
  Inv [] done st →
  ∃ st', connect_loop ext env sched entries (length done) targets st = (st', None) ∧
         Inv [] (done ++ targets) st'.
Proof.
  revert done st. induction targets as [|t rest IH]; intros done st HInv.
  { exists st. by rewrite app_nil_r. }
  rewrite connect_loop_cons. cbv zeta. apply Inv_attempt in HInv.
  eapply Inv_settles in HInv; [|by apply attempt_extra|by apply attempt_close].
  rewrite (cons_middle t done rest), (assoc_L (++)).
  replace (S (length done)) with (length (done ++ [t]))
    by (rewrite length_app; simpl; lia).
  destruct (connect_result env (length done)) as [e|] eqn:Hc.
  - rewrite Hup. apply IH. by apply Inv_failed.
  - apply IH. by apply Inv_connected.
Qed.

Lemma settle_length st k :
  k < length (pending st) → length (pending (settle st k)) = length (pending st) - 1.
Proof.
  intros Hk. unfold Concurrent.settle.
  destruct (pending st !! k) as [t|] eqn:Ht.
  - rewrite finally_pending. simpl. rewrite length_delete; [done|eauto].
  - apply lookup_ge_None in Ht. lia.
Qed.

Lemma join_Inv done n picks st : Inv [] done st → Inv [] done (join env n picks st).
Proof.
  revert picks st. induction n as [|n IH]; intros picks st HInv; [done|].
  simpl. apply IH. apply Inv_settle; [done|done|intros ?; apply not_elem_of_nil].
Qed.

Lemma join_pending n picks st :
  length (pending st) ≤ n → pending (join env n picks st) = [].
Proof.
  revert picks st. induction n as [|n IH]; intros picks st Hn; simpl.
  { destruct (pending st); [done|simpl in Hn; lia]. }
  apply IH. destruct (decide (length (pending st) = 0)) as [Hz|Hz].
  - unfold Concurrent.settle. destruct (pending st) eqn:Hp; [|done].
    rewrite lookup_nil, Hp. simpl. lia.
  - rewrite settle_length; [lia|]. case_bool_decide; lia.
Qed.

Lemma forallb_resolves l : forallb (resolves env) l = true.
Proof. induction l; simpl; [done|]. by rewrite resolves_true. Qed.

(** The request always ends with a response: the state the handler is in
    when it renders, and what it sends. *)
Lemma scrape_responds targets ms :
  ∃ st, Inv [] targets st ∧ pending st = [] ∧
    scrape ext env sched entries targets ms =
    (trace st ++ acting Handler
       [Debug "app" "Successfully processed /metrics request";
        Send (render ext (replay (trace st) ms))],
     Responded (render ext (replay (trace st) ms))).
Proof.
  unfold scrape.
  destruct (connect_loop_Inv targets [] initial Inv_initial) as (st & Hloop & HInv).
  simpl in Hloop. fold initial. rewrite Hloop.
  exists (join env (length (pending st)) (while_joining sched) st).
  split; [by apply join_Inv|]. split; [by apply join_pending|].
  by rewrite forallb_resolves.
Qed.


(** *** What a finished request looks like *)

Lemma bind_key_single (f : Task → Trace) l t :
  (∀ a t', of_actor a (f t') = if decide (a = key t') then f t' else []) →
  NoDup (key <$> l) → t ∈ l →
  (l ≫= λ t', of_actor (key t) (f t')) = f t.
Proof.
  intros Hf. induction l as [|x l IH]; intros Hnd Hin; [by apply elem_of_nil in Hin|].
  rewrite fmap_cons in Hnd. apply NoDup_cons in Hnd as [Hx Hnd].
  rewrite bind_cons, Hf. apply elem_of_cons in Hin as [->|Hin].
  - rewrite decide_True by done. rewrite bind_nil_all; [by rewrite app_nil_r|].
    intros t' Ht'. rewrite Hf, decide_False; [done|].
    intros Heq. apply Hx. rewrite Heq. by apply list_elem_of_fmap_2.
  - rewrite decide_False; [by apply IH|].
    intros Heq. apply Hx. rewrite <- Heq. by apply list_elem_of_fmap_2.
Qed.

Lemma bind_key_none (f : Task → Trace) l a :
  (∀ a t', of_actor a (f t') = if decide (a = key t') then f t' else []) →
  (∀ t, t ∈ l → key t ≠ a) →
  (l ≫= λ t', of_actor a (f t')) = [].
Proof.
  intros Hf Hl. apply bind_nil_all. intros t Ht.
  rewrite Hf, decide_False; [done|]. intros ->. by eapply Hl.
Qed.

Context (Hkeys : NoDup entries.*1).

Lemma tasks_of_keys i h : key <$> tasks_of entries i h = OnTask i <$> entries.*1.
Proof. unfold tasks_of. by rewrite <- !list_fmap_compose. Qed.

Lemma spawned_NoDup done : NoDup (key <$> spawned done).
Proof.
  induction done as [|t done IH] using rev_ind; [constructor|].
  rewrite spawned_snoc, fmap_app. apply NoDup_app. split; [done|]. split.
  - intros a (t1 & -> & Ht1%spawned_target)%list_elem_of_fmap Ha.
    destruct (connect_result env (length done)); [by apply elem_of_nil in Ha|].
    apply list_elem_of_fmap in Ha as (t2 & Heq & (Ht2 & _)%elem_of_tasks_of).
    unfold key in Heq. injection Heq as Heq _. lia.
  - destruct (connect_result env (length done)); [constructor|].
    rewrite tasks_of_keys. apply NoDup_fmap_2; [|done]. by intros ?? [=].
Qed.

Section Finished.
Context (targets : list Target) (ms : MetricSpace).

Let tr : Trace := (scrape ext env sched entries targets ms).1.

Lemma scrape_outcome :
  (scrape ext env sched entries targets ms).2 = Responded (render ext (replay tr ms)).
Proof.
  unfold tr. destruct (scrape_responds targets ms) as (st & _ & _ & ->). cbn [fst snd].
  by rewrite replay_app.
Qed.

Lemma scrape_task t :
  t ∈ spawned targets → of_actor (key t) tr = measure_start t ++ measure_settle t.
Proof.
  intros Ht. unfold tr.
  destruct (scrape_responds targets ms) as (st & HInv & Hp & ->). cbn [fst].
  rewrite of_actor_app, of_actor_acting_ne, app_nil_r by done.
  rewrite (inv_tasks _ _ _ _ _ _ HInv) by (unfold key; eauto).
  pose proof (inv_perm _ _ _ _ _ _ HInv) as Hperm. rewrite Hp in Hperm. simpl in Hperm.
  f_equal.
  - apply bind_key_single; [apply measure_start_actor|apply spawned_NoDup|done].
  - apply bind_key_single; [apply measure_settle_actor| |by rewrite Hperm].
    rewrite Hperm. apply spawned_NoDup.
Qed.

Lemma scrape_no_task j n :
  (∀ t, t ∈ spawned targets → key t ≠ OnTask j n) → of_actor (OnTask j n) tr = [].
Proof.
  intros Hnone. unfold tr.
  destruct (scrape_responds targets ms) as (st & HInv & Hp & ->). cbn [fst].
  rewrite of_actor_app, of_actor_acting_ne, app_nil_r by done.
  rewrite (inv_tasks _ _ _ _ _ _ HInv) by eauto.
  pose proof (inv_perm _ _ _ _ _ _ HInv) as Hperm. rewrite Hp in Hperm. simpl in Hperm.
  rewrite !bind_key_none; [done|apply measure_settle_actor| |apply measure_start_actor|done].
  intros t Ht. apply Hnone. by rewrite <- Hperm.
Qed.

Lemma scrape_branch i t :
  targets !! i = Some t →
  of_actor (OnTarget i) tr =
  acting (OnTarget i)
    (opening ext env entries i t ++
     match connect_result env i with None => [Close] | Some _ => [] end).
Proof.
  intros Ht. unfold tr.
  destruct (scrape_responds targets ms) as (st & HInv & Hp & ->). cbn [fst].
  rewrite of_actor_app, of_actor_acting_ne, app_nil_r by done.
  rewrite (inv_branch _ _ _ _ _ _ HInv). unfold branch. rewrite Ht, app_nil_r, acting_app.
  f_equal. unfold closing, outstanding. rewrite Hp.
  by destruct (connect_result env i).
Qed.

Lemma scrape_no_branch i : length targets ≤ i → of_actor (OnTarget i) tr = [].
Proof.
  intros Hi. unfold tr.
  destruct (scrape_responds targets ms) as (st & HInv & Hp & ->). cbn [fst].
  rewrite of_actor_app, of_actor_acting_ne, app_nil_r by done.
  rewrite (inv_branch _ _ _ _ _ _ HInv). by rewrite branch_beyond.
Qed.

Lemma scrape_close_last : close_last tr.
Proof.
  unfold tr. destruct (scrape_responds targets ms) as (st & HInv & Hp & ->). cbn [fst].
  apply close_last_app; [apply HInv| |].
  - apply close_last_free. by intros i [? _]%elem_of_acting.
  - intros i _. apply Forall_forall. intros [a e] [-> _]%elem_of_acting. by intros [].
Qed.


End Finished.

End Scheduler.

(** ** Who writes what *)

Lemma filter_ext_in {A} (P Q : A → Prop) `{!∀ x, Decision (P x), !∀ x, Decision (Q x)}
    (l : list A) :
  (∀ x, x ∈ l → P x ↔ Q x) → filter P l = filter Q l.
Proof.
  induction l as [|x l IH]; intros Hext; [done|].
  rewrite !filter_cons, IH.
  - destruct (decide (P x)) as [HP|HP].
    + rewrite decide_True; [done|]. apply Hext; [apply list_elem_of_here|done].
    + rewrite decide_False; [done|]. intros HQ.
      apply HP, Hext; [apply list_elem_of_here|done].
  - intros y Hy. apply Hext. by apply list_elem_of_further.
Qed.

Lemma sets_to_nil m l tr : (∀ ev, ev ∈ tr → ¬ writes m l ev) → sets_to m l tr = [].
Proof.
  induction tr as [|[a e] tr IH]; intros Hno; [done|].
  rewrite sets_to_cons, IH.
  - destruct e; try done. destruct (decide _) as [[-> ->]|]; [|done].
    destruct (Hno (a, GaugeSet m l value)); [apply list_elem_of_here|]. by eexists.
  - intros ev Hev. apply Hno. by apply list_elem_of_further.
Qed.

Lemma sets_to_filter m l (P : Event → Prop) `{!∀ ev, Decision (P ev)} tr :
  (∀ ev, ev ∈ tr → writes m l ev → P ev) →
  sets_to m l tr = sets_to m l (filter P tr).
Proof.
  induction tr as [|[a e] tr IH]; intros Hw; [done|].
  assert (IH' : sets_to m l tr = sets_to m l (filter P tr)).
  { apply IH. intros ev Hev. apply Hw. by apply list_elem_of_further. }
  rewrite filter_cons. destruct (decide (P (a, e))) as [HP|HP].
  - by rewrite !sets_to_cons, IH'.
  - rewrite sets_to_cons, IH'. destruct e; try done.
    destruct (decide _) as [[-> ->]|]; [|done].
    destruct HP. apply Hw; [apply list_elem_of_here|]. by eexists.
Qed.

Lemma sets_to_of_actor m l a tr :
  (∀ ev, ev ∈ tr → writes m l ev → ev.1 = a) →
  sets_to m l tr = sets_to m l (of_actor a tr).
Proof. apply (sets_to_filter m l (λ ev, ev.1 = a)). Qed.

Lemma sets_to_acting m l a es :
  sets_to m l (acting a es) =
  omap (λ e, match e with
             | GaugeSet m' l' v => if decide (m' = m ∧ l' = l) then Some v else None
             | _ => None
             end) es.
Proof.
  induction es as [|e es IH]; [done|].
  unfold acting. rewrite fmap_cons, sets_to_cons. fold (acting a es). rewrite IH.
  simpl. destruct e; try done. by destruct (decide _).
Qed.

(** ** The handler over the catalogue *)

Lemma route_hup ext h e :
  result (on_connect_error ext (getMetrics ext) h e) = inr tt.
Proof. by rewrite on_connect_error_catalogue. Qed.

Lemma scrape_handler ext env sched entries targets ms :
  (∀ h e, result (on_connect_error ext entries h e) = inr tt) →
  let tr := (scrape ext env sched entries targets ms).1 in
  of_actor Handler tr =
  acting Handler
    [Debug "app" "Received /metrics request";
     Debug "app" "Successfully processed /metrics request";
     Send (render ext (replay tr ms))].
Proof.
  intros Hup tr. unfold tr.
  destruct (scrape_responds ext env sched entries Hup targets ms)
    as (st & HInv & _ & ->).
  cbn [fst]. rewrite of_actor_app, (inv_handler _ _ _ _ _ _ HInv), of_actor_acting_eq.
  by rewrite replay_app.
Qed.

Section Route.
Context (ext : Externals) (env : Env) (sched : Schedule).
Context (targets : list Target) (ms : MetricSpace).

Let tr : Trace := (metrics_route ext env sched targets ms).1.

Lemma task_spawned i tg e :
  targets !! i = Some tg → connect_result env i = None → e ∈ getMetrics ext →
  task i tg e ∈ spawned env (getMetrics ext) targets.
Proof.
  intros. apply elem_of_spawned. exists tg. simpl. by destruct e.
Qed.

Lemma route_entry i tg e :
  targets !! i = Some tg → connect_result env i = None → e ∈ getMetrics ext →
  of_actor (OnTask i e.1) tr =
  measure_start (task i tg e) ++ measure_settle env (task i tg e).
Proof.
  intros. unfold tr, metrics_route.
  by rewrite <- (scrape_task ext env sched (getMetrics ext) (route_hup ext)
                   (catalogue_keys_NoDup ext) targets ms (task i tg e))
    by by apply task_spawned.
Qed.

Lemma route_idle i n :
  targets !! i = None ∨ connect_result env i ≠ None ∨ n ∉ (getMetrics ext).*1 →
  of_actor (OnTask i n) tr = [].
Proof.
  intros Hidle. unfold tr, metrics_route.
  apply (scrape_no_task ext env sched (getMetrics ext) (route_hup ext)).
  intros t (tg & Ht & Hc & _ & He)%elem_of_spawned [= <- <-].
  destruct Hidle as [?|[?|Hn]]; [congruence|done|].
  apply Hn. apply list_elem_of_fmap. by exists (entry t, collector t).
Qed.

Lemma route_branch i tg :
  targets !! i = Some tg →
  of_actor (OnTarget i) tr =
  acting (OnTarget i)
    ([Debug "db" "Connecting"; Connect] ++
     match connect_result env i with
     | None => [Connected; Close]
     | Some e =>
         [ConnectFailed e;
          Debug "app" ("Error handling /metrics request for server '" +:+
                       server tg +:+ "'");
          GaugeSet "mssql_up" [("host", Str (server tg))] (Number 0)]
     end).
Proof.
  intros Ht. unfold tr, metrics_route.
  rewrite (scrape_branch ext env sched (getMetrics ext) (route_hup ext) targets ms i tg Ht).
  unfold opening. rewrite <- (assoc_L (++)). do 2 f_equal.
  destruct (connect_result env i); [|done].
  by rewrite on_connect_error_catalogue.
Qed.

Lemma route_handler :
  of_actor Handler tr =
  acting Handler
    [Debug "app" "Received /metrics request";
     Debug "app" "Successfully processed /metrics request";
     Send (render ext (replay tr ms))].
Proof. apply scrape_handler, route_hup. Qed.

Lemma route_outcome :
  (metrics_route ext env sched targets ms).2 = Responded (render ext (replay tr ms)).
Proof. apply scrape_outcome, route_hup. Qed.

Lemma measure_sets c n h outcome m l v :
  (n, c) ∈ getMetrics ext →
  GaugeSet m l v ∈ effects (measure c n (Str h) outcome) →
  ∃ rows, outcome = inr rows ∧ m ∈ gauge_names c ∧
          assoc "host" l = Some (Str h) ∧ provenance ext n rows v.
Proof.
  intros Hin Hset.
  pose proof (measure_emits
    (λ e, match e with
          | GaugeSet m l v =>
              ∃ rows, outcome = inr rows ∧ m ∈ gauge_names c ∧
                      assoc "host" l = Some (Str h) ∧ provenance ext n rows v
          | _ => True
          end) c n (Str h) outcome) as Hm.
  specialize (Hm (λ _ _, I) I).
  unfold emits at 2 in Hm. rewrite Forall_forall in Hm.
  apply (λ H, Hm H _ Hset).
  intros rows ->. eapply emits_impl; [|by apply catalogue_emits].
  intros [] He; try done. exists rows. by destruct He as (? & ? & ?).
Qed.

Lemma route_writer a m l v :
  (a, GaugeSet m l v) ∈ tr → writer ext env targets m l v a.
Proof.
  intros Hin.
  assert ((a, GaugeSet m l v) ∈ of_actor a tr) as Ha by by apply elem_of_of_actor.
  destruct a as [|i|i n].
  - rewrite route_handler in Ha. apply elem_of_acting in Ha as [_ Ha].
    by repeat (apply elem_of_cons in Ha as [?|Ha]; [done|]); apply elem_of_nil in Ha.
  - destruct (targets !! i) as [tg|] eqn:Ht.
    + rewrite (route_branch i tg Ht) in Ha. apply elem_of_acting in Ha as [_ Ha].
      apply elem_of_app in Ha as [Ha|Ha].
      { by repeat (apply elem_of_cons in Ha as [?|Ha]; [done|]); apply elem_of_nil in Ha. }
      destruct (connect_result env i) as [e|] eqn:Hc.
      * repeat (apply elem_of_cons in Ha as [Ha|Ha]; try done).
        -- injection Ha as -> -> ->. by eapply writer_down.
        -- by apply elem_of_nil in Ha.
      * by repeat (apply elem_of_cons in Ha as [?|Ha]; [done|]); apply elem_of_nil in Ha.
    + unfold tr, metrics_route in Ha.
      rewrite (scrape_no_branch ext env sched (getMetrics ext) (route_hup ext)) in Ha.
      * by apply elem_of_nil in Ha.
      * by apply lookup_ge_None.
  - destruct (targets !! i) as [tg|] eqn:Ht;
      [|rewrite route_idle in Ha by auto; by apply elem_of_nil in Ha].
    destruct (connect_result env i) as [e|] eqn:Hc;
      [rewrite route_idle in Ha by (right; left; congruence); by apply elem_of_nil in Ha|].
    destruct (decide (n ∈ (getMetrics ext).*1)) as [Hn|Hn];
      [|rewrite route_idle in Ha by auto; by apply elem_of_nil in Ha].
    apply list_elem_of_fmap in Hn as ([n' c] & -> & Hn).
    rewrite (route_entry i tg (n', c) Ht Hc Hn) in Ha.
    apply elem_of_app in Ha as [Ha|Ha].
    + apply elem_of_acting in Ha as [_ Ha].
      by repeat (apply elem_of_cons in Ha as [?|Ha]; [done|]); apply elem_of_nil in Ha.
    + apply elem_of_acting in Ha as [_ Ha]. simpl in Ha.
      apply elem_of_cons in Ha as [Ha|Ha].
      { unfold outcome in Ha. simpl in Ha. by destruct (query_result env i _). }
      apply measure_sets in Ha as (rows & Hrows & ? & ? & ?); [|done].
      by eapply writer_collector.
Qed.

End Route.

Lemma bind_owner {A B} (f : A → list B) (l : list A) x y z :
  NoDup (l ≫= f) → x ∈ l → y ∈ l → z ∈ f x → z ∈ f y → x = y.
Proof.
  induction l as [|a l IH]; intros Hnd Hx Hy Hzx Hzy; [by apply elem_of_nil in Hx|].
  rewrite bind_cons in Hnd. apply NoDup_app in Hnd as (_ & Hdis & Hnd).
  apply elem_of_cons in Hx as [->|Hx]; apply elem_of_cons in Hy as [->|Hy]; try done.
  - destruct (Hdis z Hzx). apply list_elem_of_bind. eauto.
  - destruct (Hdis z Hzy). apply list_elem_of_bind. eauto.
  - by apply IH.
Qed.

Lemma catalogue_owner ext n1 c1 n2 c2 m :
  (n1, c1) ∈ getMetrics ext → (n2, c2) ∈ getMetrics ext →
  m ∈ gauge_names c1 → m ∈ gauge_names c2 → n1 = n2.
Proof.
  intros H1 H2 Hm1 Hm2.
  by pose proof (bind_owner (λ e, gauge_names e.2) _ _ _ m
                   (catalogue_names_NoDup ext) H1 H2 Hm1 Hm2) as [= -> _].
Qed.

Lemma mssql_up_entry ext : ("mssql_up", mssql_up ext) ∈ getMetrics ext.
Proof. apply list_elem_of_here. Qed.

Section Writers.
Context (ext : Externals) (env : Env) (targets : list Target).

Lemma writer_not_handler m l v a : writer ext env targets m l v a → a ≠ Handler.
Proof. by destruct 1. Qed.

Lemma writer_host m l v a :
  writer ext env targets m l v a →
  ∃ i tg, targets !! i = Some tg ∧ assoc "host" l = Some (Str (server tg)) ∧
          (a = OnTarget i ∧ connect_result env i ≠ None ∧ m = "mssql_up" ∨
           ∃ n c, a = OnTask i n ∧ connect_result env i = None ∧
                  (n, c) ∈ getMetrics ext ∧ m ∈ gauge_names c).
Proof.
  destruct 1 as [i tg e Ht Hc -> -> ->|i tg n c rows Ht Hc Hn Hq Hm Hl Hv].
  - exists i, tg. split; [done|]. split; [done|]. left. by rewrite Hc.
  - exists i, tg. split; [done|]. split; [done|]. right. by exists n, c.
Qed.

(** With one target per host, a series has at most one writer. *)
Lemma writer_unique m l v a v' a' :
  NoDup (server <$> targets) →
  writer ext env targets m l v a → writer ext env targets m l v' a' → a = a'.
Proof.
  intros Hnd (i & tg & Ht & Hl & Ha)%writer_host (i' & tg' & Ht' & Hl' & Ha')%writer_host.
  assert (i = i') as <-.
  { rewrite Hl in Hl'. injection Hl' as Hs.
    eapply NoDup_lookup; [done|..]; rewrite list_lookup_fmap.
    - by rewrite Ht.
    - by rewrite Ht', Hs. }
  destruct Ha as [(-> & Hc & ->)|(n & c & -> & Hc & Hn & Hm)];
    destruct Ha' as [(-> & Hc' & Hm')|(n' & c' & -> & Hc' & Hn' & Hm')];
    try done.
  f_equal. by eapply catalogue_owner.
Qed.

End Writers.

Section Schedules.
Context (ext : Externals) (env : Env) (targets : list Target).
Context (sched1 sched2 : Schedule) (ms1 ms2 : MetricSpace).

Let tr1 : Trace := (metrics_route ext env sched1 targets ms1).1.
Let tr2 : Trace := (metrics_route ext env sched2 targets ms2).1.

Lemma route_projection a : a ≠ Handler → of_actor a tr1 = of_actor a tr2.
Proof.
  intros Ha. unfold tr1, tr2. destruct a as [|i|i n]; [done|..].
  - destruct (targets !! i) as [tg|] eqn:Ht.
    + by rewrite !(route_branch _ _ _ _ _ i tg Ht).
    + unfold metrics_route.
      by rewrite !(scrape_no_branch ext env _ (getMetrics ext) (route_hup ext))
        by by apply lookup_ge_None.
  - destruct (targets !! i) as [tg|] eqn:Ht; [|by rewrite !route_idle by auto].
    destruct (connect_result env i) as [e|] eqn:Hc;
      [by rewrite !route_idle by (right; left; congruence)|].
    destruct (decide (n ∈ (getMetrics ext).*1)) as [Hn|Hn];
      [|by rewrite !route_idle by auto].
    apply list_elem_of_fmap in Hn as ([n' c] & -> & Hn).
    by rewrite !(route_entry _ _ _ _ _ i tg (n', c) Ht Hc Hn).
Qed.

Lemma route_sets_shared m l a v :
  NoDup (server <$> targets) →
  writer ext env targets m l v a →
  sets_to m l tr1 = sets_to m l tr2.
Proof.
  intros Hnd Hw.
  rewrite (sets_to_of_actor m l a tr1).
  2:{ intros [a' e'] Hin' [v' He']. simpl in *. subst e'.
      eapply writer_unique; [done| |done]. by eapply route_writer. }
  rewrite (sets_to_of_actor m l a tr2).
  2:{ intros [a' e'] Hin' [v' He']. simpl in *. subst e'.
      eapply writer_unique; [done| |done]. by eapply route_writer. }
  f_equal. apply route_projection. by eapply writer_not_handler.
Qed.

(** With one target per host, the values a series receives during a
    scrape, and their order, do not depend on the order in which the
    queries settle, nor on the registry the scrape starts from. *)
Lemma route_sets_schedule m l :
  NoDup (server <$> targets) → sets_to m l tr1 = sets_to m l tr2.
Proof.
  intros Hnd.
  destruct (decide (Exists (writes m l) tr1)) as [H1|H1].
  { apply Exists_exists in H1 as ([a e] & Hin & v & He). simpl in He. subst e.
    eapply route_sets_shared; [done|]. by eapply route_writer. }
  destruct (decide (Exists (writes m l) tr2)) as [H2|H2].
  { apply Exists_exists in H2 as ([a e] & Hin & v & He). simpl in He. subst e.
    eapply route_sets_shared; [done|]. by eapply route_writer. }
  rewrite !sets_to_nil; [done|..]; intros ev Hev Hw.
  - apply H2, Exists_exists. eauto.
  - apply H1, Exists_exists. eauto.
Qed.

End Schedules.

(** ** The claims of the design document *)

(** C10. First revision of [measure]: when the query returns no rows, the
    branch that should log it reads the unbound variable [error] and
    raises a [ReferenceError]; the [.catch] handler absorbs it, logs that
    error and resolves the promise, and no sample is set, so replaying the
    effects leaves every registry as it was. *)
Theorem sequential_measure_no_rows collector name server :
  Sequential.on_fulfilled collector name server [] =
    ([], inl (ReferenceError "error is not defined")) ∧
  Sequential.measure collector name server (inr []) =
    ([ConsoleError ("Error executing metric " +:+ name +:+ " SQL query")
        (Some (ReferenceError "error is not defined"));
      Resolve], inr tt) ∧
  ∀ a ms,
    replay (acting a (effects (Sequential.measure collector name server (inr [])))) ms
    = ms.
Proof. done. Qed.

Lemma contained_measure c name h outcome : contained c name h outcome.
Proof.
  unfold contained. destruct outcome as [e|[|row rows]]; [done|done|].
  by rewrite measure_rows.
Qed.

Lemma query_store_collect ext e rows server :
  e ∈ query_store_collectors ext →
  ∃ msg, Collector.collect e.2 rows (Collector.metrics e.2) [server]
         = ([], inl (TypeError msg)).
Proof.
  intros He. unfold query_store_collectors in He.
  repeat (apply elem_of_cons in He as [->|He]);
    [..|by apply elem_of_nil in He]; apply query_store_throws.
Qed.

Lemma query_store_in_catalogue ext e :
  e ∈ query_store_collectors ext → e ∈ getMetrics ext.
Proof.
  intros He. unfold query_store_collectors in He.
  repeat (apply elem_of_cons in He as [->|He]);
    [..|by apply elem_of_nil in He];
    unfold getMetrics; by repeat first [apply list_elem_of_here|apply list_elem_of_further].
Qed.

(** C9. [measure] calls the mapping function with three arguments, so in
    [mssql_most_exec_query], [mssql_most_avg_io_query] and
    [mssql_most_avg_time_query] the parameter [config] is the host string
    and [config.connect.options] raises a [TypeError] before any sample is
    set; the error is caught and logged at the collector boundary and the
    measure resolves.  In a scrape, on every reachable target, each entry
    of the catalogue (these three and their siblings) still does exactly
    what its own query outcome dictates. *)
Theorem query_store_collectors_never_set ext env sched targets ms i tg e row rows :
  e ∈ query_store_collectors ext →
  targets !! i = Some tg →
  connect_result env i = None →
  (∃ msg,
     Collector.collect e.2 (row :: rows) (Collector.metrics e.2) [Str (server tg)]
       = ([], inl (TypeError msg)) ∧
     measure e.2 e.1 (Str (server tg)) (inr (row :: rows)) =
       ([ConsoleError ("Error processing metric '" +:+ e.1 +:+ "' data")
           (Some (TypeError msg));
         Resolve], inr tt)) ∧
  ∀ e', e' ∈ getMetrics ext →
    of_actor (OnTask i e'.1) (metrics_route ext env sched targets ms).1 =
    measure_start (task i tg e') ++ measure_settle env (task i tg e').
Proof.
  intros He Ht Hc. split.
  - destruct (query_store_collect ext e (row :: rows) (Str (server tg)) He) as [msg Hmsg].
    exists msg. split; [done|]. rewrite measure_rows. simpl. by rewrite Hmsg.
  - intros e' He'. by apply route_entry.
Qed.

(** C2 (as amended). On a reachable target every entry of the catalogue
    runs to completion with the outcome of its own query, whatever
    happens to its siblings; its measure resolves; a failed query and an
    empty recordset are logged and set no sample; an exception of the
    mapping function is logged, and what the function had set before
    raising is all it sets. *)
Theorem collector_failure_contained ext env sched targets ms i tg e :
  targets !! i = Some tg →
  connect_result env i = None →
  e ∈ getMetrics ext →
  of_actor (OnTask i e.1) (metrics_route ext env sched targets ms).1 =
    measure_start (task i tg e) ++ measure_settle env (task i tg e) ∧
  contained e.2 e.1 (server tg) (query_result env i (Collector.query e.2)).
Proof.
  intros Ht Hc He. split; [by apply route_entry|apply contained_measure].
Qed.


Lemma same_host_same_target targets i j t t' :
  NoDup (server <$> targets) →
  targets !! i = Some t → targets !! j = Some t' → server t = server t' → i = j.
Proof.
  intros Hnd Hi Hj Hs. eapply NoDup_lookup; [done|..]; rewrite list_lookup_fmap.
  - by rewrite Hi.
  - by rewrite Hj, Hs.
Qed.

Lemma up_writer ext env targets i t a v :
  NoDup (server <$> targets) → targets !! i = Some t →
  writer ext env targets "mssql_up" [("host", Str (server t))] v a →
  a = match connect_result env i with
      | Some _ => OnTarget i
      | None => OnTask i "mssql_up"
      end.
Proof.
  intros Hnd Ht (j & tg & Hj & Hl & Ha)%writer_host.
  injection Hl as Hl.
  assert (i = j) as <- by by eapply same_host_same_target.
  destruct Ha as [(-> & Hc & _)|(n & c & -> & Hc & Hn & Hm)].
  - by destruct (connect_result env i).
  - rewrite Hc. f_equal. eapply catalogue_owner; [done|apply mssql_up_entry|done|].
    apply list_elem_of_here.
Qed.

Lemma mssql_up_measure ext h row rows :
  effects (measure (mssql_up ext) "mssql_up" (Str h) (inr (row :: rows))) =
  Debug "metrics" "Fetched status of instance" ::
  (if accepts ext (cell row 0)
   then [GaugeSet "mssql_up" [("host", Str h)] (cell row 0)]
   else [ConsoleError "Error processing metric 'mssql_up' data"
           (Some (TypeError ("Value is not a valid number: " +:+ ToString (cell row 0))))])
  ++ [Resolve].
Proof.
  rewrite measure_rows. cbn. unfold set_metric, Gauge.set. cbn.
  by destruct (accepts ext (cell row 0)).
Qed.

(** C1 (as amended). With one target per host: after a scrape,
    [mssql_up{host}] reads 0 if the target's connection failed; if it
    opened and the probe [SELECT 1] returned a row, it reads the first
    cell of that row (1 on a server that evaluates the probe), provided
    the metric library accepts it; if the probe failed or returned no row,
    it reads what it read before the scrape, which is nothing on a first
    scrape. *)
Theorem mssql_up_after_scrape ext env sched targets ms i t :
  targets !! i = Some t →
  NoDup (server <$> targets) →
  up_reading ext env ms i t (replay (metrics_route ext env sched targets ms).1 ms).
Proof.
  intros Ht Hnd. unfold up_reading. cbv zeta.
  set (tr := (metrics_route ext env sched targets ms).1).
  rewrite observe_replay.
  rewrite (sets_to_of_actor _ _
             (match connect_result env i with
              | Some _ => OnTarget i
              | None => OnTask i "mssql_up"
              end) tr).
  2:{ intros [a e] Hin [v He]. simpl in *. subst e.
      eapply up_writer; [done..|]. by eapply route_writer. }
  destruct (connect_result env i) as [e|] eqn:Hc.
  - unfold tr. rewrite (route_branch _ _ _ _ _ i t Ht), Hc, sets_to_acting. simpl.
    by rewrite decide_True.
  - unfold tr.
    rewrite (route_entry _ _ _ _ _ i t _ Ht Hc (mssql_up_entry ext)).
    unfold measure_start, measure_settle, outcome, task.
    cbn [collector entry host target fst snd Collector.query mssql_up].
    rewrite sets_to_app, !sets_to_acting.
    destruct (query_result env i "SELECT 1") as [err|[|row rows]]; [done|done|].
    rewrite mssql_up_measure. simpl.
    destruct (accepts ext (cell row 0)); simpl; [|done].
    by rewrite decide_True.
Qed.



Lemma route_failed_branch ext env sched targets ms i tg e :
  targets !! i = Some tg → connect_result env i = Some e →
  filter (on_target i) (metrics_route ext env sched targets ms).1 =
  acting (OnTarget i)
    [Debug "db" "Connecting"; Connect; ConnectFailed e;
     Debug "app" ("Error handling /metrics request for server '" +:+ server tg +:+ "'");
     GaugeSet "mssql_up" [("host", Str (server tg))] (Number 0)].
Proof.
  intros Ht Hc.
  rewrite (filter_ext_in (on_target i) (λ ev, ev.1 = OnTarget i)).
  - fold (of_actor (OnTarget i) (metrics_route ext env sched targets ms).1).
    by rewrite (route_branch _ _ _ _ _ i tg Ht), Hc.
  - intros [a ev] Hin. unfold on_target. simpl. destruct a as [|j|j n].
    + by split.
    + split; [by intros ->|by intros [= ->]].
    + split; [intros ->|done].
      assert ((OnTask i n, ev) ∈ of_actor (OnTask i n)
                (metrics_route ext env sched targets ms).1) as Hin'
        by by apply elem_of_of_actor.
      rewrite route_idle in Hin' by (right; left; congruence).
      by apply elem_of_nil in Hin'.
Qed.

(** C4. When the connection to a target fails, the only things done on
    behalf of that target during the scrape are the attempt, the log
    entry, and one [Gauge.set]: [mssql_up] with the label set
    [{host: server}] and the value 0.  No query is issued on it, and that
    one sample is its whole effect on the registry.  With one target per
    host, every other series that carries this host reads after the scrape
    what it read before. *)
Theorem failed_connect_only_marks_down ext env sched targets ms i tg e :
  targets !! i = Some tg →
  connect_result env i = Some e →
  let tr := (metrics_route ext env sched targets ms).1 in
  filter (on_target i) tr =
    acting (OnTarget i)
      [Debug "db" "Connecting"; Connect; ConnectFailed e;
       Debug "app" ("Error handling /metrics request for server '" +:+
                    server tg +:+ "'");
       GaugeSet "mssql_up" [("host", Str (server tg))] (Number 0)] ∧
  (∀ ms', replay (filter (on_target i) tr) ms' =
          record "mssql_up" [("host", Str (server tg))] (Number 0) ms') ∧
  (NoDup (server <$> targets) →
   ∀ m l, assoc "host" l = Some (Str (server tg)) →
          ¬ (m = "mssql_up" ∧ l = [("host", Str (server tg))]) →
          observe (replay tr ms) m l = observe ms m l).
Proof.
  intros Ht Hc tr. split; [by apply route_failed_branch|]. split.
  - intros ms'. unfold tr. by rewrite (route_failed_branch _ _ _ _ _ i tg e).
  - intros Hnd m l Hl Hne. rewrite observe_replay, sets_to_nil; [done|].
    intros [a ev] Hin [v He]. simpl in He. subst ev.
    apply route_writer in Hin.
    destruct Hin as [j tg' e' Hj Hc' -> -> ->|j tg' n c rows Hj Hc' _ _ _ Hl' _].
    + injection Hl as Hs.
      assert (i = j) as <- by by eapply same_host_same_target.
      rewrite Ht in Hj. injection Hj as <-. by apply Hne.
    + rewrite Hl in Hl'. injection Hl' as Hs.
      assert (i = j) as <- by by eapply same_host_same_target.
      congruence.
Qed.

Lemma filter_filter_l {A} (P Q : A → Prop) `{!∀ x, Decision (P x), !∀ x, Decision (Q x)}
    (l : list A) :
  (∀ x, P x → Q x) → filter P (filter Q l) = filter P l.
Proof.
  intros HPQ. induction l as [|x l IH]; [done|].
  rewrite !filter_cons. destruct (decide (Q x)) as [HQ|HQ].
  - by rewrite filter_cons, IH.
  - rewrite IH, decide_False; [done|]. intros HP. by apply HQ, HPQ.
Qed.

(** C5 (as amended). On a target whose connection opened,
    [connection.close()] is called exactly once during the scrape; at that
    point the query of every catalogue entry has been issued on that
    target and its measure has resolved, and nothing is done on that
    target afterwards.  (Nothing orders the availability observation
    before the other collectors.) *)
Theorem connection_closed_once_after_collectors ext env sched targets ms i tg :
  targets !! i = Some tg →
  connect_result env i = None →
  let tr := (metrics_route ext env sched targets ms).1 in
  length (filter (λ ev, ev = (OnTarget i, Close)) tr) = 1 ∧
  ∀ l1 l2, tr = l1 ++ (OnTarget i, Close) :: l2 →
    Forall (λ ev, ¬ on_target i ev) l2 ∧
    ∀ e, e ∈ getMetrics ext →
      (OnTask i e.1, Query (Collector.query e.2)) ∈ l1 ∧
      (OnTask i e.1, Resolve) ∈ l1.
Proof.
  intros Ht Hc tr. split.
  - rewrite <- (filter_filter_l _ (λ ev, ev.1 = OnTarget i)) by by intros ? ->.
    fold (of_actor (OnTarget i) tr). unfold tr.
    rewrite (route_branch _ _ _ _ _ i tg Ht), Hc. unfold acting. simpl.
    rewrite !filter_cons, filter_nil.
    rewrite !decide_False by done. by rewrite decide_True.
  - intros l1 l2 Htr.
    assert (Forall (λ ev, ¬ on_target i ev) l2) as Hafter.
    { eapply (scrape_close_last ext env sched (getMetrics ext) (route_hup ext)
                targets ms). apply Htr. }
    split; [done|]. intros e He.
    assert (∀ ev, ev ∈ measure_start (task i tg e) ++ measure_settle env (task i tg e) →
                  ev ∈ l1) as Hin.
    { intros ev Hev. rewrite <- (route_entry _ _ sched _ ms i tg e Ht Hc He) in Hev.
      apply elem_of_of_actor in Hev as [Ha Hev]. fold tr in Hev. rewrite Htr in Hev.
      apply elem_of_app in Hev as [?|Hev]; [done|].
      apply elem_of_cons in Hev as [->|Hev]; [done|].
      rewrite Forall_forall in Hafter. destruct (Hafter ev Hev).
      unfold on_target. by rewrite Ha. }
    split; apply Hin; rewrite elem_of_app.
    + left. apply elem_of_acting. split; [done|].
      apply list_elem_of_further, list_elem_of_here.
    + right. apply elem_of_acting. split; [done|].
      apply list_elem_of_further, measure_resolves.
Qed.

(** C6 (as amended). With one target per host, a second scrape against
    servers that answer as they did during the first leaves the registry
    exactly as the first scrape left it, whatever the order in which the
    queries settle in either scrape, and the second response is the first
    one, byte for byte. *)
Theorem scrape_idempotent ext env sched1 sched2 targets ms :
  NoDup (server <$> targets) →
  let first := metrics_route ext env sched1 targets ms in
  let s1 := replay first.1 ms in
  let second := metrics_route ext env sched2 targets s1 in
  replay second.1 s1 = s1 ∧ second.2 = first.2.
Proof.
  intros Hnd first s1 second.
  assert (replay second.1 s1 = s1) as Hs.
  { apply replay_idem. intros m l. by apply route_sets_schedule. }
  split; [done|]. unfold second, first.
  rewrite !route_outcome. fold first s1 second. by rewrite Hs.
Qed.


(** ** Worked runs, counterexamples and witnesses *)

(** The scenario of the design document: target "a" reachable, target "b"
    unreachable. *)
Example one_target_down :
  let run := metrics_route node second_down fifo [target_a; target_b] ∅ in
  run.2 = Responded "mssql_up{host=b} 0;mssql_up{host=a} 1".
Proof. by vm_compute. Qed.

(** C1, counterexample: the connection opens but the probe query times
    out; the scrape responds and [mssql_up{host="a"}] has no value. *)
Lemma up_absent_when_probe_fails :
  let run := metrics_route node (answering []) fifo [target_a] ∅ in
  position (OnTarget 0, Connected) run.1 = Some 3 ∧
  position (OnTask 0 "mssql_up", QueryFailed timeout) run.1 = Some 48 ∧
  run.2 = Responded "" ∧
  observe (replay run.1 ∅) "mssql_up" [("host", Str "a")] = None.
Proof. by vm_compute. Qed.

Lemma mssql_up_after_scrape_witness :
  [target_a; target_b] !! 1 = Some target_b ∧
  NoDup (server <$> [target_a; target_b]) ∧
  up_reading node second_down ∅ 1 target_b
    (replay (metrics_route node second_down fifo [target_a; target_b] ∅).1 ∅).
Proof.
  assert (NoDup (server <$> [target_a; target_b])) as Hnd
    by (apply (bool_decide_unpack _); vm_compute; exact I).
  split; [reflexivity|]. split; [exact Hnd|].
  apply (mssql_up_after_scrape node second_down fifo [target_a; target_b] ∅ 1 target_b);
    [reflexivity|exact Hnd].
Defined.

(** C2, counterexample: [mssql_connections{host="a",database="master"}]
    read 3 before the scrape; the mapping function sets it to 5 for the
    first row and raises on the second; the exception is caught, and the
    series reads 5 after the scrape, not its previous value. *)
Lemma partial_update_survives_exception :
  let before := record "mssql_connections" connections_of_master (Number 3) ∅ in
  let run := metrics_route node count_missing fifo [target_a] before in
  result (Collector.collect (mssql_connections node)
            [[Str "master"; Number 5]; [Str "tempdb"; Null]]
            (Collector.metrics (mssql_connections node)) [Str "a"])
    = inl (TypeError "Value is not a valid number: null") ∧
  position (OnTask 0 "mssql_connections",
            ConsoleError "Error processing metric 'mssql_connections' data"
              (Some (TypeError "Value is not a valid number: null"))) run.1
    = Some 61 ∧
  observe before "mssql_connections" connections_of_master = Some (Number 3) ∧
  observe (replay run.1 before) "mssql_connections" connections_of_master
    = Some (Number 5).
Proof. by vm_compute. Qed.

Lemma collector_failure_contained_witness :
  let e := ("mssql_connections", mssql_connections node) in
  [target_a] !! 0 = Some target_a ∧
  connect_result count_missing 0 = None ∧
  e ∈ getMetrics node ∧
  of_actor (OnTask 0 e.1) (metrics_route node count_missing fifo [target_a] ∅).1 =
    measure_start (task 0 target_a e) ++ measure_settle count_missing (task 0 target_a e) ∧
  contained e.2 e.1 (server target_a)
    (query_result count_missing 0 (Collector.query e.2)).
Proof.
  assert (("mssql_connections", mssql_connections node) ∈ getMetrics node) as He
    by (unfold getMetrics;
        repeat first [apply list_elem_of_here|apply list_elem_of_further]).
  split; [reflexivity|]. split; [reflexivity|]. split; [exact He|].
  apply (collector_failure_contained node count_missing fifo [target_a] ∅ 0 target_a
           ("mssql_connections", mssql_connections node));
    [reflexivity|reflexivity|exact He].
Defined.


Lemma failed_connect_only_marks_down_witness :
  let tr := (metrics_route node second_down fifo [target_a; target_b] ∅).1 in
  [target_a; target_b] !! 1 = Some target_b ∧
  connect_result second_down 1 = Some (Error "ECONNREFUSED") ∧
  filter (on_target 1) tr =
    acting (OnTarget 1)
      [Debug "db" "Connecting"; Connect; ConnectFailed (Error "ECONNREFUSED");
       Debug "app" "Error handling /metrics request for server 'b'";
       GaugeSet "mssql_up" [("host", Str "b")] (Number 0)] ∧
  (∀ ms', replay (filter (on_target 1) tr) ms' =
          record "mssql_up" [("host", Str "b")] (Number 0) ms') ∧
  (NoDup (server <$> [target_a; target_b]) →
   ∀ m l, assoc "host" l = Some (Str "b") →
          ¬ (m = "mssql_up" ∧ l = [("host", Str "b")]) →
          observe (replay tr ∅) m l = observe ∅ m l).
Proof.
  split; [reflexivity|]. split; [reflexivity|].
  apply (failed_connect_only_marks_down node second_down fifo
           [target_a; target_b] ∅ 1 target_b (Error "ECONNREFUSED"));
    reflexivity.
Defined.

(** C5, counterexample: on a reachable target the queries of all
    collectors are issued (the last one at position 47) before anything is
    recorded, and here the clock collector records its sample (position
    50) before the availability sample is recorded (position 54). *)
Lemma sibling_recorded_before_up :
  let tr := (metrics_route node probe_and_clock third_first [target_a] ∅).1 in
  position (OnTask 0 "mssql_most_avg_time_query",
            Query (Collector.query (mssql_most_avg_time_query node))) tr = Some 47 ∧
  position (OnTask 0 "mssql_instance_local_time",
            GaugeSet "mssql_instance_local_time" [("host", Str "a")]
              (Number 1700000000)) tr = Some 50 ∧
  position (OnTask 0 "mssql_up",
            GaugeSet "mssql_up" [("host", Str "a")] (Number 1)) tr = Some 54 ∧
  position (OnTarget 0, Close) tr = Some 116.
Proof. by vm_compute. Qed.

Lemma connection_closed_once_after_collectors_witness :
  let tr := (metrics_route node probe_and_clock third_first [target_a] ∅).1 in
  [target_a] !! 0 = Some target_a ∧
  connect_result probe_and_clock 0 = None ∧
  length (filter (λ ev, ev = (OnTarget 0, Close)) tr) = 1 ∧
  ∀ l1 l2, tr = l1 ++ (OnTarget 0, Close) :: l2 →
    Forall (λ ev, ¬ on_target 0 ev) l2 ∧
    ∀ e, e ∈ getMetrics node →
      (OnTask 0 e.1, Query (Collector.query e.2)) ∈ l1 ∧
      (OnTask 0 e.1, Resolve) ∈ l1.
Proof.
  split; [reflexivity|]. split; [reflexivity|].
  apply (connection_closed_once_after_collectors node probe_and_clock third_first
           [target_a] ∅ 0 target_a); reflexivity.
Defined.

(** C6, counterexample: two instances on the machine "a" report different
    connection counts under the same host label.  Both scrapes see the same
    answers; the queries settle in a different order in the second one,
    and the two responses differ. *)
Lemma same_host_scrapes_differ :
  let first := metrics_route node two_instances fifo [target_a; target_a] ∅ in
  let second := metrics_route node two_instances second_target_first
                  [target_a; target_a] (replay first.1 ∅) in
  first.2 = Responded "mssql_connections{host=a,database=master,state=current} 7" ∧
  second.2 = Responded "mssql_connections{host=a,database=master,state=current} 5".
Proof. by vm_compute. Qed.

Lemma scrape_idempotent_witness :
  let first := metrics_route node second_down fifo [target_a; target_b] ∅ in
  let s1 := replay first.1 ∅ in
  let second := metrics_route node second_down third_first [target_a; target_b] s1 in
  NoDup (server <$> [target_a; target_b]) ∧
  replay second.1 s1 = s1 ∧ second.2 = first.2.
Proof.
  assert (NoDup (server <$> [target_a; target_b])) as Hnd
    by (apply (bool_decide_unpack _); vm_compute; exact I).
  split; [exact Hnd|].
  exact (scrape_idempotent node second_down fifo third_first [target_a; target_b] ∅ Hnd).
Defined.





Lemma query_store_collectors_never_set_witness :
  let e := ("mssql_most_exec_query", mssql_most_exec_query node) in
  let row := [Number 1; Number 2; Str "SELECT 1"; Number 7] in
  e ∈ query_store_collectors node ∧
  [target_a] !! 0 = Some target_a ∧
  connect_result (answering []) 0 = None ∧
  (∃ msg,
     Collector.collect e.2 [row] (Collector.metrics e.2) [Str (server target_a)]
       = ([], inl (TypeError msg)) ∧
     measure e.2 e.1 (Str (server target_a)) (inr [row]) =
       ([ConsoleError ("Error processing metric '" +:+ e.1 +:+ "' data")
           (Some (TypeError msg));
         Resolve], inr tt)) ∧
  ∀ e', e' ∈ getMetrics node →
    of_actor (OnTask 0 e'.1) (metrics_route node (answering []) fifo [target_a] ∅).1 =
    measure_start (task 0 target_a e') ++ measure_settle (answering []) (task 0 target_a e').
Proof.
  split; [apply list_elem_of_here|]. split; [reflexivity|]. split; [reflexivity|].
  apply (query_store_collectors_never_set node (answering []) fifo [target_a] ∅ 0
           target_a ("mssql_most_exec_query", mssql_most_exec_query node)
           [Number 1; Number 2; Str "SELECT 1"; Number 7] []);
    [apply list_elem_of_here|reflexivity|reflexivity].
Defined.

(** The three query-store collectors on a concrete row: nothing is set. *)
Example most_exec_query_sets_nothing :
  measure (mssql_most_exec_query node) "mssql_most_exec_query" (Str "a")
    (inr [[Number 1; Number 2; Str "SELECT 1"; Number 7]]) =
  ([ConsoleError "Error processing metric 'mssql_most_exec_query' data"
      (Some (TypeError "Cannot read properties of undefined (reading 'options')"));
    Resolve], inr tt).
Proof. by vm_compute. Qed.

(** The scenario of the design document: one target, one collector
    returning the rows [[1]]. *)
Example probe_sets_up :
  let run := metrics_route node probe_and_clock fifo [target_a] ∅ in
  run.2 = Responded "mssql_up{host=a} 1;mssql_instance_local_time{host=a} 1700000000".
Proof. by vm_compute. Qed.

(** * Further properties of the code *)

(** ** The catalogue *)
Lemma raises_ret {A} Q (a : A) : raises Q (ret a).
Proof. done. Qed.

Lemma raises_emit Q e : raises Q (emit e).
Proof. done. Qed.

Lemma raises_bind {A B} Q (m : M A) (f : A → M B) :
  raises Q m → (∀ a, raises Q (f a)) → raises Q (bind m f).
Proof.
  unfold raises. intros Hm Hf. rewrite result_bind.
  destruct (result m) as [e|a]; [done|apply Hf].
Qed.

Lemma raises_for_rows Q rows body :
  (∀ row, raises Q (body row)) → raises Q (for_rows rows body).
Proof.
  intros Hb. induction rows as [|row rest IH]; [done|].
  simpl. apply raises_bind; [apply Hb|by intros _].
Qed.

Lemma raises_set_metric ext metrics key g labels v :
  assoc key metrics = Some g →
  forallb (λ l, bool_decide (l.1 ∈ Gauge.labelNames g)) labels = true →
  raises (rejected ext) (set_metric ext metrics key labels v).
Proof.
  intros Hg Hl. unfold set_metric, Gauge.set. rewrite Hg, Hl.
  destruct (accepts ext v) eqn:Hv; [done|].
  simpl. by exists v.
Qed.

Ltac raises_step :=
  first
    [ apply raises_ret
    | apply raises_emit
    | apply raises_for_rows; intros ?
    | eapply raises_set_metric; [reflexivity|reflexivity]
    | apply raises_bind; [|intros ?] ].

(** X3. On a recordset with at least one row, the mapping function of a
    returned collector other than the three query-store ones can only
    fail because [Gauge.set] rejects a value (never because of a label or
    a missing gauge); for [mssql_product_version] the exception may also
    be the one [productVersionParse] raised on the first cell. *)
Theorem mapping_fails_only_on_rejected_value ext name c row rows host e :
  (name, c) ∈ getMetrics ext →
  name ∉ (query_store_collectors ext).*1 →
  result (Collector.collect c (row :: rows) (Collector.metrics c) [host]) = inl e →
  rejected ext e ∨
  name = "mssql_product_version" ∧ productVersionParse ext (cell row 0) = inl e.
Proof.
  intros Hin Hqs Hres.
  assert (name ≠ "mssql_product_version" →
          raises (rejected ext)
            (Collector.collect c (row :: rows) (Collector.metrics c) [host])) as Hr.
  { intros Hpv. unfold getMetrics in Hin.
    repeat (apply elem_of_cons in Hin as [[= -> ->]|Hin]);
      [..|by apply elem_of_nil in Hin].
    all: try done.
    all: try (destruct Hqs; cbn;
              by repeat first [apply list_elem_of_here|apply list_elem_of_further]).
    all: cbn [Collector.collect Collector.metrics]; unfold arg, metricsLog;
         cbn [nth first_row]; repeat raises_step. }
  destruct (decide (name = "mssql_product_version")) as [->|Hne].
  - assert (c = mssql_product_version ext) as ->.
    { unfold getMetrics in Hin.
      repeat (apply elem_of_cons in Hin as [[= <-]|Hin]); try done.
      by apply elem_of_nil in Hin. }
    revert Hres. unfold mssql_product_version.
    cbn [Collector.collect Collector.metrics]. unfold arg, metricsLog.
    cbn [nth first_row]. rewrite result_bind. cbn [ret result snd].
    rewrite result_bind. unfold call at 1. cbn [result snd].
    destruct (productVersionParse ext (cell row 0)) as [e'|v] eqn:Hp.
    + intros [= ->]. by right.
    + rewrite result_bind. cbn [emit result snd]. intros Hres. left.
      pose proof (raises_set_metric ext
        [("mssql_product_version",
          {| Gauge.name := "mssql_product_version";
             Gauge.help := "Instance version (Major.Minor)";
             Gauge.labelNames := ["host"] |})]
        "mssql_product_version" _ [("host", host)]
        (js_add (js_add v.1 (Str ".")) v.2) eq_refl eq_refl) as Hs.
      unfold raises in Hs. by rewrite Hres in Hs.
  - specialize (Hr Hne). unfold raises in Hr. rewrite Hres in Hr. by left.
Qed.

Lemma mapping_fails_only_on_rejected_value_witness :
  ("mssql_connections", mssql_connections node) ∈ getMetrics node ∧
  ("mssql_connections" ∉ (query_store_collectors node).*1) ∧
  result (Collector.collect (mssql_connections node)
            [[Str "master"; Number 5]; [Str "tempdb"; Null]]
            (Collector.metrics (mssql_connections node)) [Str "a"])
    = inl (TypeError "Value is not a valid number: null") ∧
  (rejected node (TypeError "Value is not a valid number: null") ∨
   "mssql_connections" = "mssql_product_version" ∧
   productVersionParse node (cell [Str "master"; Number 5] 0)
     = inl (TypeError "Value is not a valid number: null")).
Proof.
  assert (("mssql_connections", mssql_connections node) ∈ getMetrics node) as Hin
    by (unfold getMetrics; repeat first [apply list_elem_of_here|apply list_elem_of_further]).
  assert ("mssql_connections" ∉ (query_store_collectors node).*1) as Hqs
    by (apply (bool_decide_unpack _); vm_compute; exact I).
  split; [exact Hin|]. split; [exact Hqs|]. split; [reflexivity|].
  exact (mapping_fails_only_on_rejected_value node "mssql_connections"
           (mssql_connections node) [Str "master"; Number 5] [[Str "tempdb"; Null]]
           (Str "a") _ Hin Hqs eq_refl).
Defined.

Lemma assoc_elem_of {A} k (l : list (string * A)) a : assoc k l = Some a → (k, a) ∈ l.
Proof.
  induction l as [|[k' a'] l IH]; [done|]. simpl.
  destruct (decide (k = k')) as [->|]; [intros [= ->]; apply list_elem_of_here|].
  intros. by apply list_elem_of_further, IH.
Qed.

Lemma fully_labelled_set ext c key labels v :
  (∀ g, assoc key (Collector.metrics c) = Some g → labels.*1 = Gauge.labelNames g) →
  emits (fully_labelled c) (set_metric ext (Collector.metrics c) key labels v).
Proof.
  intros Hl. apply emits_set_metric. intros g Hg _.
  exists key, g. split; [by apply assoc_elem_of|]. split; [done|by apply Hl].
Qed.

Ltac labelled_step c :=
  first
    [ apply emits_ret
    | apply emits_throw
    | apply emits_call
    | apply emits_emit; exact I
    | apply emits_first_row; intros ? ?
    | apply emits_for_rows; intros ? ?
    | apply (fully_labelled_set _ c); intros ? [= <-]; reflexivity
    | apply emits_bind; [|intros ?] ].

(** X1. Every sample a returned collector sets goes to one of the
    collector's own gauges, names exactly the labels that gauge declares,
    in the declared order, and carries as first label the host the mapping
    function was given. *)
Theorem samples_fully_labelled ext name c rows host m l v :
  (name, c) ∈ getMetrics ext →
  GaugeSet m l v ∈ effects (Collector.collect c rows (Collector.metrics c) [host]) →
  ∃ key g, (key, g) ∈ Collector.metrics c ∧ m = Gauge.name g ∧
           l.*1 = Gauge.labelNames g ∧ l !! 0 = Some ("host", host).
Proof.
  intros Hin Hset.
  assert (emits (λ e, fully_labelled c e ∧
                      match e with
                      | GaugeSet _ l _ => l !! 0 = Some ("host", host)
                      | _ => True
                      end)
            (Collector.collect c rows (Collector.metrics c) [host])) as Hem.
  { unfold emits. apply Forall_and. split.
    - unfold getMetrics in Hin.
      repeat (apply elem_of_cons in Hin as [[= -> ->]|Hin]);
        [..|by apply elem_of_nil in Hin].
      all: match goal with |- Forall (fully_labelled ?c) _ =>
             change (emits (fully_labelled c)
                       (Collector.collect c rows (Collector.metrics c) [host]));
             first [ apply emits_query_store
                   | cbn [Collector.collect]; unfold arg, metricsLog; cbn [nth];
                     repeat labelled_step c ]
           end.
    - unfold getMetrics in Hin.
      repeat (apply elem_of_cons in Hin as [[= -> ->]|Hin]);
        [..|by apply elem_of_nil in Hin].
      all: match goal with |- Forall ?P (effects ?m) => change (emits P m) end;
           cbn [Collector.collect Collector.metrics]; unfold arg, metricsLog; cbn [nth];
           first [apply emits_query_store | repeat emits_step; reflexivity]. }
  unfold emits in Hem. rewrite Forall_forall in Hem.
  destruct (Hem _ Hset) as [(key & g & ? & ? & ?) ?]. by exists key, g.
Qed.

Lemma samples_fully_labelled_witness :
  ("mssql_connections", mssql_connections node) ∈ getMetrics node ∧
  GaugeSet "mssql_connections" connections_of_master (Number 5) ∈
    effects (Collector.collect (mssql_connections node) [[Str "master"; Number 5]]
               (Collector.metrics (mssql_connections node)) [Str "a"]) ∧
  ∃ key g, (key, g) ∈ Collector.metrics (mssql_connections node) ∧
           "mssql_connections" = Gauge.name g ∧
           connections_of_master.*1 = Gauge.labelNames g ∧
           connections_of_master !! 0 = Some ("host", Str "a").
Proof.
  assert (("mssql_connections", mssql_connections node) ∈ getMetrics node) as Hin
    by (unfold getMetrics; repeat first [apply list_elem_of_here|apply list_elem_of_further]).
  assert (GaugeSet "mssql_connections" connections_of_master (Number 5) ∈
    effects (Collector.collect (mssql_connections node) [[Str "master"; Number 5]]
               (Collector.metrics (mssql_connections node)) [Str "a"])) as Hset
    by (vm_compute; apply list_elem_of_further, list_elem_of_here).
  split; [exact Hin|]. split; [exact Hset|].
  exact (samples_fully_labelled node "mssql_connections" (mssql_connections node)
           [[Str "master"; Number 5]] (Str "a") "mssql_connections"
           connections_of_master (Number 5) Hin Hset).
Defined.

(** X2. No two returned collectors set samples on the same metric. *)
Theorem one_collector_per_metric ext n1 c1 n2 c2 rows1 rows2 h1 h2 m l1 v1 l2 v2 :
  (n1, c1) ∈ getMetrics ext → (n2, c2) ∈ getMetrics ext →
  GaugeSet m l1 v1 ∈ effects (Collector.collect c1 rows1 (Collector.metrics c1) [h1]) →
  GaugeSet m l2 v2 ∈ effects (Collector.collect c2 rows2 (Collector.metrics c2) [h2]) →
  (n1, c1) = (n2, c2).
Proof.
  intros H1 H2 Hs1 Hs2.
  pose proof (catalogue_emits ext n1 c1 rows1 h1 H1) as He1.
  pose proof (catalogue_emits ext n2 c2 rows2 h2 H2) as He2.
  unfold emits in He1, He2. rewrite Forall_forall in He1, He2.
  destruct (He1 _ Hs1) as (Hm1 & _). destruct (He2 _ Hs2) as (Hm2 & _).
  exact (bind_owner (λ e, gauge_names e.2) _ _ _ m
           (catalogue_names_NoDup ext) H1 H2 Hm1 Hm2).
Qed.

Lemma one_collector_per_metric_witness :
  ("mssql_up", mssql_up node) ∈ getMetrics node ∧
  GaugeSet "mssql_up" [("host", Str "a")] (Number 1) ∈
    effects (Collector.collect (mssql_up node) [[Number 1]]
               (Collector.metrics (mssql_up node)) [Str "a"]) ∧
  GaugeSet "mssql_up" [("host", Str "b")] (Number 0) ∈
    effects (Collector.collect (mssql_up node) [[Number 0]]
               (Collector.metrics (mssql_up node)) [Str "b"]) ∧
  ("mssql_up", mssql_up node) = ("mssql_up", mssql_up node).
Proof.
  assert (("mssql_up", mssql_up node) ∈ getMetrics node) as Hin
    by apply list_elem_of_here.
  assert (GaugeSet "mssql_up" [("host", Str "a")] (Number 1) ∈
    effects (Collector.collect (mssql_up node) [[Number 1]]
               (Collector.metrics (mssql_up node)) [Str "a"])) as H1
    by (vm_compute; apply list_elem_of_further, list_elem_of_here).
  assert (GaugeSet "mssql_up" [("host", Str "b")] (Number 0) ∈
    effects (Collector.collect (mssql_up node) [[Number 0]]
               (Collector.metrics (mssql_up node)) [Str "b"])) as H2
    by (vm_compute; apply list_elem_of_further, list_elem_of_here).
  split; [exact Hin|]. split; [exact H1|]. split; [exact H2|].
  exact (one_collector_per_metric node _ _ _ _ _ _ _ _ _ _ _ _ _ Hin Hin H1 H2).
Defined.

Lemma gauge_set_undeclared ext g labels v k :
  k ∈ labels.*1 → k ∉ Gauge.labelNames g →
  ∃ e, Gauge.set ext g labels v = ([], inl e).
Proof.
  intros Hk Hn. unfold Gauge.set.
  destruct (accepts ext v); simpl; [|by eexists].
  assert (forallb (λ l, bool_decide (l.1 ∈ Gauge.labelNames g)) labels = false) as ->;
    [|by eexists].
  apply list_elem_of_fmap in Hk as ([k' x] & -> & Hin).
  apply not_true_is_false. intros Hall.
  rewrite forallb_forall in Hall.
  specialize (Hall (k', x)). rewrite <- list_elem_of_In in Hall.
  specialize (Hall Hin). by apply bool_decide_eq_true in Hall.
Qed.

(** X5. The gauges of the four collectors declared with a [config]
    parameter do not declare the label [host], so [Gauge.set] records
    nothing for a label set that names [host], whatever the value. *)
Theorem config_collectors_gauges_reject_host ext n c key g labels v :
  (n, c) ∈ config_collectors ext →
  (key, g) ∈ Collector.metrics c →
  "host" ∈ labels.*1 →
  ("host" ∉ Gauge.labelNames g) ∧
  ∃ e, Gauge.set ext g labels v = ([], inl e).
Proof.
  intros Hc Hg Hl.
  assert ("host" ∉ Gauge.labelNames g) as Hn.
  { unfold config_collectors, query_store_collectors in Hc. simpl in Hc.
    repeat (apply elem_of_cons in Hc as [[= -> ->]|Hc]);
      [..|by apply elem_of_nil in Hc].
    all: cbn [Collector.metrics] in Hg;
         repeat (apply elem_of_cons in Hg as [[= -> ->]|Hg]);
         [..|by apply elem_of_nil in Hg];
         apply (bool_decide_unpack _); by vm_compute. }
  split; [done|]. by eapply gauge_set_undeclared.
Qed.

Lemma config_collectors_gauges_reject_host_witness :
  ("mssql_most_wait_query", mssql_most_wait_query node) ∈ config_collectors node ∧
  ("mssql_sum_total_wait_ms",
   {| Gauge.name := "mssql_sum_total_wait_ms"; Gauge.help := "Total Wait ms";
      Gauge.labelNames := ["database"; "query_sql_text"; "query_text_id"; "query_id"] |})
    ∈ Collector.metrics (mssql_most_wait_query node) ∧
  "host" ∈ [("host", Str "a"); ("database", Str "master")].*1 ∧
  ("host" ∉ ["database"; "query_sql_text"; "query_text_id"; "query_id"]) ∧
  ∃ e, Gauge.set node
         {| Gauge.name := "mssql_sum_total_wait_ms"; Gauge.help := "Total Wait ms";
            Gauge.labelNames := ["database"; "query_sql_text"; "query_text_id"; "query_id"] |}
         [("host", Str "a"); ("database", Str "master")] (Number 12) = ([], inl e).
Proof.
  split; [unfold config_collectors, query_store_collectors;
          repeat first [apply list_elem_of_here|apply list_elem_of_further]|].
  split; [apply list_elem_of_here|]. split; [apply list_elem_of_here|].
  refine (config_collectors_gauges_reject_host node "mssql_most_wait_query"
            (mssql_most_wait_query node) "mssql_sum_total_wait_ms"
            {| Gauge.name := "mssql_sum_total_wait_ms"; Gauge.help := "Total Wait ms";
               Gauge.labelNames := ["database"; "query_sql_text"; "query_text_id"; "query_id"] |}
            [("host", Str "a"); ("database", Str "master")] (Number 12) _ _ _).
  - unfold config_collectors, query_store_collectors;
      repeat first [apply list_elem_of_here|apply list_elem_of_further].
  - apply list_elem_of_here.
  - apply list_elem_of_here.
Defined.

Lemma bind_assoc {A B C} (m : M A) (f : A → M B) (g : B → M C) :
  bind (bind m f) g = bind m (λ a, bind (f a) g).
Proof.
  destruct m as [l [e|a]]; [done|]. simpl.
  destruct (f a) as [l' [e|b]]; [done|]. simpl.
  destruct (g b) as [l'' r]. by rewrite (assoc_L (++)).
Qed.

Lemma bind_ret_l {A B} (a : A) (f : A → M B) : bind (ret a) f = f a.
Proof. unfold bind, ret. by destruct (f a). Qed.

Lemma for_rows_app rows1 rows2 body :
  for_rows (rows1 ++ rows2) body =
  (for_rows rows1 body ;; for_rows rows2 body).
Proof.
  induction rows1 as [|row rest IH]; cbn [for_rows app].
  - by rewrite bind_ret_l.
  - by rewrite bind_assoc, IH.
Qed.

(** X4. Nine returned collectors read the first row only: further rows
    change nothing.  The others (the query-store ones apart) handle the
    rows one by one, in order: the rows before a failing row are recorded,
    the rows after it are never looked at. *)
Theorem rows_read_by_mapping_functions ext name c metrics args :
  (name, c) ∈ getMetrics ext →
  name ∉ (query_store_collectors ext).*1 →
  (name ∈ first_row_collectors →
   ∀ row rest, Collector.collect c (row :: rest) metrics args
               = Collector.collect c [row] metrics args) ∧
  (name ∉ first_row_collectors →
   ∀ rows1 rows2, Collector.collect c (rows1 ++ rows2) metrics args
                  = (Collector.collect c rows1 metrics args ;;
                     Collector.collect c rows2 metrics args)).
Proof.
  intros Hin Hqs. unfold getMetrics in Hin.
  repeat (apply elem_of_cons in Hin as [[= -> ->]|Hin]);
    [..|by apply elem_of_nil in Hin].
  all: try (destruct Hqs; cbn;
            by repeat first [apply list_elem_of_here|apply list_elem_of_further]).
  all: split; intros Hn.
  all: first [ by intros row rest
             | intros rows1 rows2; cbn [Collector.collect]; apply for_rows_app
             | exfalso; revert Hn; apply (bool_decide_unpack _); by vm_compute
             | exfalso; apply Hn; apply (bool_decide_unpack _); by vm_compute ].
Qed.

Lemma rows_read_by_mapping_functions_witness :
  ("mssql_connections", mssql_connections node) ∈ getMetrics node ∧
  ("mssql_connections" ∉ (query_store_collectors node).*1) ∧
  ("mssql_connections" ∈ first_row_collectors →
   ∀ row rest,
     Collector.collect (mssql_connections node) (row :: rest)
       (Collector.metrics (mssql_connections node)) [Str "a"]
     = Collector.collect (mssql_connections node) [row]
         (Collector.metrics (mssql_connections node)) [Str "a"]) ∧
  (("mssql_connections" ∉ first_row_collectors) →
   ∀ rows1 rows2,
     Collector.collect (mssql_connections node) (rows1 ++ rows2)
       (Collector.metrics (mssql_connections node)) [Str "a"]
     = (Collector.collect (mssql_connections node) rows1
          (Collector.metrics (mssql_connections node)) [Str "a"] ;;
        Collector.collect (mssql_connections node) rows2
          (Collector.metrics (mssql_connections node)) [Str "a"])).
Proof.
  assert (("mssql_connections", mssql_connections node) ∈ getMetrics node) as Hin
    by (unfold getMetrics; repeat first [apply list_elem_of_here|apply list_elem_of_further]).
  assert ("mssql_connections" ∉ (query_store_collectors node).*1) as Hqs
    by (apply (bool_decide_unpack _); vm_compute; exact I).
  split; [exact Hin|]. split; [exact Hqs|].
  exact (rows_read_by_mapping_functions node "mssql_connections" (mssql_connections node)
           (Collector.metrics (mssql_connections node)) [Str "a"] Hin Hqs).
Defined.

(** ** The orchestrators *)
Lemma sequential_measure_effects c name server outcome :
  result (Sequential.measure c name server outcome) = inr tt ∧
  ∃ log, effects (Sequential.measure c name server outcome)
         = mapped c server outcome ++ log ++ [Resolve] ∧ Forall is_log log.
Proof.
  destruct outcome as [e|[|row rows]].
  - split; [done|]. eexists [_]. split; [done|]. by repeat constructor.
  - split; [done|]. eexists [_]. split; [done|]. by repeat constructor.
  - unfold Sequential.measure, Sequential.on_fulfilled, mapped. simpl.
    destruct (Collector.collect c _ _ _) as [l [e|[]]]; simpl.
    + split; [done|]. eexists [_]. rewrite <- !app_assoc. split; [done|].
      by repeat constructor.
    + split; [done|]. by exists [].
Qed.

Lemma concurrent_measure_effects c name server outcome :
  ∃ log, effects (Concurrent.measure c name server outcome)
         = mapped c server outcome ++ log ++ [Resolve] ∧ Forall is_log log.
Proof.
  destruct outcome as [e|[|row rows]].
  - eexists [_]. split; [done|]. by repeat constructor.
  - eexists [_]. split; [done|]. by repeat constructor.
  - rewrite measure_rows. unfold mapped. cbn [effects fst].
    destruct (result _); eexists; (split; [done|]); by repeat constructor.
Qed.

Lemma sequential_measure_resolves c name server outcome :
  Resolve ∈ effects (Sequential.measure c name server outcome).
Proof.
  destruct (sequential_measure_effects c name server outcome) as (_ & log & -> & _).
  rewrite !elem_of_app. right. right. apply list_elem_of_here.
Qed.

Section SequentialRun.
Context (ext : Externals) (env : Env) (close_result : nat → option Exn).

Lemma collect_all i h l :
  SequentialRoute.collect env i h l = (l ≫= SequentialRoute.measure_run env i h, true).
Proof.
  induction l as [|e rest IH]; [done|].
  cbn [SequentialRoute.collect]. rewrite bool_decide_true by apply sequential_measure_resolves.
  by rewrite IH, bind_cons.
Qed.

Lemma on_error_catalogue h error :
  SequentialRoute.on_error ext (getMetrics ext) h error =
  ([Debug "app" "Error handling /metrics request";
    GaugeSet "mssql_up" [("host", Str h)] (Number 0)], inr tt).
Proof.
  unfold SequentialRoute.on_error. cbn.
  unfold set_metric, Gauge.set. cbn. by rewrite accepts_finite.
Qed.

Lemma iteration_catalogue i t :
  SequentialRoute.iteration ext env close_result (getMetrics ext) i t =
  (acting (OnTarget i)
     [Debug "app" "Received /metrics request"; Debug "db" "Connecting"; Connect] ++
   match connect_result env i with
   | Some error => [(OnTarget i, ConnectFailed error)] ++ marked_down i t
   | None =>
       [(OnTarget i, Connected)] ++
       (getMetrics ext ≫= SequentialRoute.measure_run env i (server t)) ++
       [(OnTarget i, Close)] ++
       match close_result i with
       | Some _ => marked_down i t
       | None => []
       end
   end, SequentialRoute.Completed).
Proof.
  unfold SequentialRoute.iteration. rewrite collect_all.
  destruct (connect_result env i) as [e|].
  - rewrite on_error_catalogue. cbn [effects result fst snd].
    by rewrite <- !app_assoc.
  - cbv zeta. cbn [bool_decide]. destruct (close_result i) as [e|].
    + rewrite on_error_catalogue. cbn [effects result fst snd].
      by rewrite <- !app_assoc.
    + by rewrite <- !app_assoc, app_nil_r.
Qed.

Lemma loop_cons entries i t rest :
  SequentialRoute.loop ext env close_result entries i (t :: rest) =
  match SequentialRoute.iteration ext env close_result entries i t with
  | (tr, SequentialRoute.Completed) =>
      let '(tr', x) := SequentialRoute.loop ext env close_result entries (S i) rest in
      (tr ++ tr', x)
  | (tr, x) => (tr, x)
  end.
Proof. done. Qed.

Lemma loop_catalogue i targets :
  SequentialRoute.loop ext env close_result (getMetrics ext) i targets =
  (mjoin (imap (λ k, turn ext env close_result (i + k)) targets),
   SequentialRoute.Completed).
Proof.
  revert i. induction targets as [|t rest IH]; intros i; [done|].
  pose proof (iteration_catalogue i t) as Hit.
  assert (turn ext env close_result i t =
          (SequentialRoute.iteration ext env close_result (getMetrics ext) i t).1)
    as Ht by done.
  rewrite Hit in Ht. cbn [fst] in Ht.
  rewrite loop_cons, Hit, IH, <- Ht.
  cbn [imap mjoin list_join]. rewrite Nat.add_0_r. do 3 f_equal.
  apply imap_ext. intros k x _. simpl. f_equal. lia.
Qed.

Lemma route_trace targets ms :
  SequentialRoute.metrics_route ext env close_result targets ms =
  let tr := mjoin (imap (turn ext env close_result) targets) in
  (tr ++ acting Handler
     [Debug "app" "Successfully processed /metrics request";
      Send (render ext (replay tr ms))],
   Responded (render ext (replay tr ms))).
Proof.
  unfold SequentialRoute.metrics_route, SequentialRoute.scrape.
  by rewrite loop_catalogue.
Qed.

End SequentialRun.

Lemma elem_of_turns (f : nat → Target → Trace) targets ev :
  ev ∈ mjoin (imap f targets) ↔ ∃ k t, targets !! k = Some t ∧ ev ∈ f k t.
Proof.
  rewrite list_elem_of_join. split.
  - intros (blk & Hin & Hblk).
    apply elem_of_lookup_imap in Hblk as (k & t & -> & Hk). by exists k, t.
  - intros (k & t & Hk & Hin). exists (f k t). split; [done|].
    apply elem_of_lookup_imap. eauto.
Qed.

Lemma on_target_inj i j ev : on_target i ev → on_target j ev → i = j.
Proof. unfold on_target. destruct ev.1; naive_solver. Qed.

Lemma on_target_acting_target i l : Forall (on_target i) (acting (OnTarget i) l).
Proof. apply Forall_fmap, Forall_forall. by intros. Qed.

Lemma on_target_acting_task i n l : Forall (on_target i) (acting (OnTask i n) l).
Proof. apply Forall_fmap, Forall_forall. by intros. Qed.

Lemma turn_on_target ext env close_result i t :
  Forall (on_target i) (turn ext env close_result i t).
Proof.
  unfold turn. rewrite iteration_catalogue. cbn [fst].
  assert (Forall (on_target i)
            (getMetrics ext ≫= SequentialRoute.measure_run env i (server t))) as Hw.
  { apply Forall_forall. intros ev (e & Hev & _)%list_elem_of_bind.
    revert ev Hev. apply Forall_forall, on_target_acting_task. }
  unfold marked_down.
  apply Forall_app. split; [apply on_target_acting_target|].
  destruct (connect_result env i).
  { apply Forall_app. split; [by apply Forall_singleton|apply on_target_acting_target]. }
  apply Forall_app. split; [by apply Forall_singleton|].
  apply Forall_app. split; [done|].
  apply Forall_app. split; [by apply Forall_singleton|].
  destruct (close_result i); [apply on_target_acting_target|done].
Qed.

Lemma turns_in_order (f : nat → Target → Trace) targets base :
  (∀ k t, targets !! k = Some t → Forall (on_target (base + k)) (f k t)) →
  ∀ l1 ev l2 i j,
    mjoin (imap f targets) = l1 ++ ev :: l2 →
    on_target j ev → i < j →
    Forall (λ ev', ¬ on_target i ev') l2.
Proof.
  revert f base. induction targets as [|t rest IH]; intros f base Hf l1 ev l2 i j Heq Hj Hij.
  { by destruct l1. }
  cbn [imap mjoin list_join] in Heq.
  apply app_eq_cons_split in Heq as [(l2' & H0 & ->)|(l1' & Hrest & ->)].
  - pose proof (Hf 0 t eq_refl) as H0t. rewrite Nat.add_0_r, H0 in H0t.
    apply Forall_app in H0t as [_ H0t]. apply Forall_cons in H0t as [Hev H0t].
    assert (j = base) as -> by by eapply on_target_inj.
    apply Forall_app. split.
    + eapply Forall_impl; [exact H0t|]. intros ev' H' Hi.
      pose proof (on_target_inj _ _ _ H' Hi). lia.
    + apply Forall_forall. intros ev' Hin Hi.
      apply elem_of_turns in Hin as (k & t' & Hk & Hin).
      pose proof (Hf (S k) t' Hk) as Hb. rewrite Forall_forall in Hb.
      pose proof (on_target_inj _ _ _ (Hb _ Hin) Hi). lia.
  - eapply (IH (f ∘ S) (S base)); [|exact Hrest|exact Hj|exact Hij].
    intros k t' Hk. replace (S base + k) with (base + S k) by lia.
    by apply (Hf (S k) t').
Qed.

(** X10. First revision: the handler always ends by sending the rendering
    of the registry, also when [connection.close()] rejects; everything
    before the two closing steps of the handler is done on behalf of a
    target. *)
Theorem first_revision_always_responds ext env close_result targets ms :
  let run := SequentialRoute.metrics_route ext env close_result targets ms in
  run.2 = Responded (render ext (replay run.1 ms)) ∧
  ∃ tr, run.1 = tr ++ [(Handler, Debug "app" "Successfully processed /metrics request");
                       (Handler, Send (render ext (replay run.1 ms)))] ∧
        Forall (λ ev, ev.1 ≠ Handler) tr.
Proof.
  intros run. unfold run. rewrite route_trace. cbv zeta. cbn [fst snd].
  rewrite replay_app. cbn [acting fmap list_fmap replay foldl apply_effect snd].
  split; [done|]. eexists. split; [done|].
  apply Forall_forall. intros ev Hin Hh.
  apply elem_of_turns in Hin as (k & t' & Hk & Hin).
  pose proof (turn_on_target ext env close_result k t') as Hb.
  rewrite Forall_forall in Hb.
  specialize (Hb _ Hin). unfold on_target in Hb. by rewrite Hh in Hb.
Qed.

(** X11. First revision: the targets are handled one after the other.
    Once something has happened on behalf of a target, nothing happens any
    more on behalf of an earlier one. *)
Theorem first_revision_targets_in_turn ext env close_result targets ms l1 ev l2 i j :
  (SequentialRoute.metrics_route ext env close_result targets ms).1 = l1 ++ ev :: l2 →
  on_target j ev → i < j →
  Forall (λ ev', ¬ on_target i ev') l2.
Proof.
  rewrite route_trace. cbv zeta. cbn [fst]. intros Heq Hj Hij.
  apply app_eq_cons_split in Heq as [(l2' & H0 & ->)|(l1' & Htail & ->)].
  - apply Forall_app. split.
    + eapply (turns_in_order _ targets 0); [|exact H0|exact Hj|exact Hij].
      intros k t _. apply turn_on_target.
    + apply Forall_fmap, Forall_forall. by intros e _ He.
  - exfalso.
    assert (ev ∈ acting Handler
              [Debug "app" "Successfully processed /metrics request";
               Send (render ext
                       (replay (mjoin (imap (turn ext env close_result) targets)) ms))])
      as Hin by (rewrite Htail; set_solver).
    destruct ev as [a e]. apply elem_of_acting in Hin as [-> _]. done.
Qed.

Lemma pace_app n tr1 tr2 : pace n (tr1 ++ tr2) = pace n tr1 ≫= λ m, pace m tr2.
Proof.
  revert n. induction tr1 as [|[a e] tr1 IH]; intros n; [done|].
  destruct e; simpl; try apply IH; case_decide; try done; apply IH.
Qed.

Lemma pace_calm n a l : Forall calm l → pace n (acting a l) = Some n.
Proof.
  induction 1 as [|e l He _ IH]; [done|]. by destruct e.
Qed.

Lemma issued_app tr1 tr2 : issued (tr1 ++ tr2) = issued tr1 + issued tr2.
Proof. unfold issued. by rewrite filter_app, length_app. Qed.

Lemma resolved_app tr1 tr2 : resolved (tr1 ++ tr2) = resolved tr1 + resolved tr2.
Proof. unfold resolved. by rewrite filter_app, length_app. Qed.

Lemma issued_cons a e tr :
  issued ((a, e) :: tr) = (if is_query e then 1 else 0) + issued tr.
Proof.
  unfold issued. rewrite filter_cons. cbn [snd].
  destruct (is_query e); by rewrite ?decide_True, ?decide_False by done.
Qed.

Lemma resolved_cons a e tr :
  resolved ((a, e) :: tr) = (if decide (e = Resolve) then 1 else 0) + resolved tr.
Proof.
  unfold resolved. rewrite filter_cons. cbn [snd]. by destruct (decide (e = Resolve)).
Qed.

Lemma pace_counts n tr k :
  pace n tr = Some k → issued tr + n = resolved tr + k ∧ (n ≤ 1 → k ≤ 1).
Proof.
  revert n. induction tr as [|[a e] tr IH]; intros n.
  { intros [= ->]. split; [done|lia]. }
  rewrite issued_cons, resolved_cons.
  destruct (decide (e = Resolve)) as [->|Hne].
  { cbn [pace is_query]. case_decide; [|done].
    intros Hp. destruct (IH _ Hp). subst n. split; lia. }
  destruct e; cbn [pace is_query]; try done;
    try (intros Hp; destruct (IH _ Hp); split; [done|lia]).
  case_decide; [|done]. intros Hp. destruct (IH _ Hp). subst n. split; lia.
Qed.

Lemma pace_prefix n tr k l1 l2 :
  pace n tr = Some k → tr = l1 ++ l2 → ∃ m, pace n l1 = Some m.
Proof.
  intros Hp ->. rewrite pace_app in Hp. destruct (pace n l1); [by eauto|done].
Qed.

Lemma mapped_calm ext n c server outcome :
  (n, c) ∈ getMetrics ext → Forall calm (mapped c server outcome).
Proof.
  intros Hin. destruct outcome as [e|[|row rows]]; [done|done|].
  eapply Forall_impl; [apply (catalogue_emits ext n c (row :: rows) server Hin)|].
  by intros [].
Qed.

Lemma measure_run_pace ext env i h e :
  e ∈ getMetrics ext → pace 0 (SequentialRoute.measure_run env i h e) = Some 0.
Proof.
  intros Hin. unfold SequentialRoute.measure_run. cbv zeta.
  set (o := query_result env i (Collector.query e.2)).
  destruct (sequential_measure_effects e.2 e.1 (Str h) o) as (_ & log & -> & Hlog).
  assert (Forall calm (mapped e.2 (Str h) o)) as Hm
    by (destruct e; by eapply mapped_calm).
  assert (Forall calm log) as Hl
    by (eapply Forall_impl; [exact Hlog|]; by intros []).
  assert (∀ r X, calm r →
            pace 0 (acting (OnTask i e.1)
                      ([Debug "queries" ("Executing metric " +:+ e.1 +:+ " query: " +:+
                                         Collector.query e.2);
                        Query (Collector.query e.2); r] ++ X))
            = pace 1 (acting (OnTask i e.1) X)) as Hhead.
  { intros r X Hr. by destruct r. }
  rewrite Hhead by by destruct o.
  rewrite !acting_app, !pace_app. rewrite (pace_calm 1) by done. simpl.
  rewrite pace_app, (pace_calm 1) by done. done.
Qed.

Lemma pace_bind {A} (f : A → Trace) l :
  (∀ x, x ∈ l → pace 0 (f x) = Some 0) → pace 0 (l ≫= f) = Some 0.
Proof.
  induction l as [|x l IH]; intros Hf; [done|].
  rewrite bind_cons, pace_app, Hf by apply list_elem_of_here. simpl.
  apply IH. intros. by apply Hf, list_elem_of_further.
Qed.

Lemma pace_calm_app n a l X : Forall calm l → pace n (acting a l ++ X) = pace n X.
Proof. intros. by rewrite pace_app, pace_calm. Qed.

Lemma pace_zero_app X Y : pace 0 X = Some 0 → pace 0 (X ++ Y) = pace 0 Y.
Proof. intros HX. by rewrite pace_app, HX. Qed.

Lemma pace_calm_cons n a e X : calm e → pace n ((a, e) :: X) = pace n X.
Proof. by destruct e. Qed.

Lemma turn_pace ext env close_result i t :
  pace 0 (turn ext env close_result i t) = Some 0.
Proof.
  unfold turn. rewrite iteration_catalogue. cbn [fst].
  rewrite pace_calm_app by by repeat constructor.
  destruct (connect_result env i).
  { cbn [app]. rewrite pace_calm_cons by done.
    apply pace_calm. by repeat constructor. }
  cbn [app]. rewrite pace_calm_cons by done.
  rewrite pace_zero_app by (apply pace_bind; intros; by apply (measure_run_pace ext)).
  rewrite pace_calm_cons by done.
  destruct (close_result i); [|done]. apply pace_calm. by repeat constructor.
Qed.

Lemma pace_turns (f : nat → Target → Trace) targets :
  (∀ i t, pace 0 (f i t) = Some 0) → pace 0 (mjoin (imap f targets)) = Some 0.
Proof.
  revert f. induction targets as [|t rest IH]; intros f Hf; [done|].
  cbn [imap mjoin list_join]. rewrite pace_zero_app by apply Hf.
  apply IH. intros. apply Hf.
Qed.

(** X12. First revision: at every point of a scrape, the queries issued
    so far are at most one more than the measures resolved so far: at most
    one query is in flight. *)
Theorem first_revision_one_query_at_a_time ext env close_result targets ms l1 l2 :
  (SequentialRoute.metrics_route ext env close_result targets ms).1 = l1 ++ l2 →
  resolved l1 ≤ issued l1 ≤ S (resolved l1).
Proof.
  rewrite route_trace. cbv zeta. cbn [fst]. intros Heq.
  assert (pace 0 (mjoin (imap (turn ext env close_result) targets) ++
                  acting Handler
                    [Debug "app" "Successfully processed /metrics request";
                     Send (render ext
                       (replay (mjoin (imap (turn ext env close_result) targets)) ms))])
          = Some 0) as Hp.
  { rewrite pace_app.
    by rewrite pace_turns by apply turn_pace. }
  destruct (pace_prefix _ _ _ _ _ Hp Heq) as [m Hm].
  destruct (pace_counts _ _ _ Hm) as [Hc Hle]. lia.
Qed.

(** Where the turn of a target sits in the trace of the loop. *)
Lemma turns_split (f : nat → Target → Trace) targets i t :
  targets !! i = Some t →
  ∃ before after,
    mjoin (imap f targets) = before ++ f i t ++ after ∧
    (∀ ev, ev ∈ before → ∃ k t', k < i ∧ targets !! k = Some t' ∧ ev ∈ f k t') ∧
    (∀ ev, ev ∈ after → ∃ k t', i < k ∧ targets !! k = Some t' ∧ ev ∈ f k t').
Proof.
  revert f i. induction targets as [|t0 rest IH]; intros f i Hi; [done|].
  destruct i as [|i].
  - injection Hi as ->. exists [], (mjoin (imap (f ∘ S) rest)).
    split; [done|]. split; [by intros ev ?%elem_of_nil|].
    intros ev (k & t' & Hk & Hin)%elem_of_turns.
    exists (S k), t'. split; [lia|]. by split.
  - destruct (IH (f ∘ S) i Hi) as (before & after & Heq & Hb & Ha).
    exists (f 0 t0 ++ before), after. split; [|split].
    + change (mjoin (imap f (t0 :: rest)))
        with (f 0 t0 ++ mjoin (imap (f ∘ S) rest)).
      rewrite Heq. by rewrite <- !app_assoc.
    + intros ev [Hin|Hin]%elem_of_app.
      * exists 0, t0. split; [lia|]. by split.
      * destruct (Hb ev Hin) as (k & t' & ? & ? & ?).
        exists (S k), t'. split; [lia|]. by split.
    + intros ev Hin. destruct (Ha ev Hin) as (k & t' & ? & ? & ?).
      exists (S k), t'. split; [lia|]. by split.
Qed.

Lemma app_eq_cons_after {A} (X Y l1 l2 : list A) e :
  X ++ e :: Y = l1 ++ e :: l2 → e ∉ X → ∃ m, l1 = X ++ m.
Proof.
  revert l1. induction X as [|x X IH]; intros l1 Heq Hn; [by eexists|].
  destruct l1 as [|y l1].
  - injection Heq as -> _. destruct Hn. apply list_elem_of_here.
  - injection Heq as -> Heq. destruct (IH l1 Heq) as [m ->].
    + intros ?. apply Hn. by apply list_elem_of_further.
    + by exists m.
Qed.

Lemma measure_run_resolve env i h e :
  (OnTask i e.1, Resolve) ∈ SequentialRoute.measure_run env i h e.
Proof.
  unfold SequentialRoute.measure_run. cbv zeta. apply elem_of_acting. split; [done|].
  apply elem_of_app. right. apply sequential_measure_resolves.
Qed.

Lemma measure_run_split env i h e :
  ∃ d rest,
    SequentialRoute.measure_run env i h e
      = [d] ++ (OnTask i e.1, Query (Collector.query e.2)) :: rest ∧
    (OnTask i e.1, Query (Collector.query e.2)) ≠ d.
Proof. by eexists _, _. Qed.

(** X13. First revision: the collectors of a target run in catalogue
    order.  When the query of an entry is issued, the measures of all the
    entries before it have resolved; in particular [mssql_up], the first
    entry, has been handled before any other collector starts. *)
Theorem first_revision_catalogue_order ext env close_result targets ms l1 l2 i pre e post :
  (SequentialRoute.metrics_route ext env close_result targets ms).1
    = l1 ++ (OnTask i e.1, Query (Collector.query e.2)) :: l2 →
  getMetrics ext = pre ++ e :: post →
  ∀ e', e' ∈ pre → (OnTask i e'.1, Resolve) ∈ l1.
Proof.
  rewrite route_trace. cbv zeta. cbn [fst]. intros Heq Hcat e' He'.
  set (ev := (OnTask i e.1, Query (Collector.query e.2))) in *.
  set (tail := acting Handler _) in Heq.
  assert (ev ∈ mjoin (imap (turn ext env close_result) targets)) as Hin.
  { assert (ev ∈ mjoin (imap (turn ext env close_result) targets) ++ tail) as Hin
      by (rewrite Heq; set_solver).
    apply elem_of_app in Hin as [Hin|Hin]; [done|].
    by apply elem_of_acting in Hin as [? _]. }
  apply elem_of_turns in Hin as (k & t & Hk & Hin).
  assert (k = i) as ->.
  { pose proof (turn_on_target ext env close_result k t) as Hon.
    rewrite Forall_forall in Hon. by apply (on_target_inj k i ev (Hon _ Hin)). }
  assert (NoDup (pre ++ e :: post).*1) as Hnd
    by (rewrite <- Hcat; apply catalogue_keys_NoDup).
  assert (e'.1 ≠ e.1) as Hne.
  { rewrite fmap_app, fmap_cons in Hnd. apply NoDup_app in Hnd as (_ & Hdis & _).
    intros Heq'. apply (Hdis e'.1); [by apply list_elem_of_fmap_2|].
    rewrite Heq'. apply list_elem_of_here. }
  destruct (turns_split (turn ext env close_result) targets i t Hk)
    as (before & after & Hsplit & Hbefore & _).
  revert Hin. unfold turn at 1. rewrite iteration_catalogue. cbn [fst].
  intros Hin. apply elem_of_app in Hin as [Hin|Hin];
    [by apply elem_of_acting in Hin as [? _]|].
  destruct (connect_result env i) as [err|] eqn:Hc.
  { apply elem_of_cons in Hin as [?|Hin]; [done|].
    by apply elem_of_acting in Hin as [? _]. }
  clear Hin.
  assert (∃ X Y, mjoin (imap (turn ext env close_result) targets) ++ tail
                 = X ++ ev :: Y ∧ (ev ∉ X) ∧
                 (OnTask i e'.1, Resolve) ∈ X) as (X & Y & HXY & HnX & HX).
  { rewrite Hsplit. unfold turn at 1. rewrite iteration_catalogue. cbn [fst].
    rewrite Hc, Hcat, bind_app, bind_cons.
    set (start := acting (OnTarget i) _).
    set (closing := [(OnTarget i, Close)] ++ _).
    destruct (measure_run_split env i (server t) e) as (d & rest & -> & Hd).
    exists (before ++ start ++ [(OnTarget i, Connected)] ++
            (pre ≫= SequentialRoute.measure_run env i (server t)) ++ [d]),
           (rest ++ (post ≫= SequentialRoute.measure_run env i (server t)) ++
            closing ++ after ++ tail).
    split; [by rewrite <- !app_assoc|]. split.
    - rewrite !not_elem_of_app. repeat split.
      + intros Hb. destruct (Hbefore _ Hb) as (k & t' & Hlt & _ & Hin').
        pose proof (turn_on_target ext env close_result k t') as Hon.
        rewrite Forall_forall in Hon.
        pose proof (on_target_inj k i ev (Hon _ Hin') eq_refl). lia.
      + by intros [? _]%elem_of_acting.
      + by intros [=]%list_elem_of_singleton.
      + intros (x & Hx & Hpre)%list_elem_of_bind.
        apply elem_of_acting in Hx as [[=] _].
        rewrite fmap_app, fmap_cons in Hnd. apply NoDup_app in Hnd as (_ & Hdis & _).
        apply (Hdis x.1); [by apply list_elem_of_fmap_2|].
        replace x.1 with e.1. apply list_elem_of_here.
      + intros Hev%list_elem_of_singleton. destruct Hd. exact Hev.
    - rewrite !elem_of_app. right. right. right. left.
      apply list_elem_of_bind. exists e'. split; [apply measure_run_resolve|done]. }
  rewrite HXY in Heq. destruct (app_eq_cons_after _ _ _ _ _ Heq HnX) as [m ->].
  apply elem_of_app. by left.
Qed.

Lemma samples_app m l es1 es2 : samples m l (es1 ++ es2) = samples m l es1 ++ samples m l es2.
Proof. apply omap_app. Qed.

Lemma samples_log m l log : Forall is_log log → samples m l log = [].
Proof. induction 1 as [|e log He Hlog IH]; [done|]. by destruct e. Qed.

Lemma sequential_measure_samples m l c name server outcome :
  samples m l (effects (Sequential.measure c name server outcome))
  = samples m l (mapped c server outcome).
Proof.
  destruct (sequential_measure_effects c name server outcome) as (_ & log & -> & Hlog).
  rewrite !samples_app, (samples_log _ _ log) by done. cbn [samples omap app].
  by rewrite app_nil_r.
Qed.

Lemma concurrent_measure_samples m l c name server outcome :
  samples m l (effects (Concurrent.measure c name server outcome))
  = samples m l (mapped c server outcome).
Proof.
  destruct (concurrent_measure_effects c name server outcome) as (log & -> & Hlog).
  rewrite !samples_app, (samples_log _ _ log) by done. cbn [samples omap app].
  by rewrite app_nil_r.
Qed.

Lemma sets_to_samples m l a es : sets_to m l (acting a es) = samples m l es.
Proof. apply sets_to_acting. Qed.

Lemma samples_cons m l e es : samples m l (e :: es) = samples m l [e] ++ samples m l es.
Proof. apply (samples_app m l [e]). Qed.

Lemma measure_run_sets m l env i h e :
  sets_to m l (SequentialRoute.measure_run env i h e)
  = samples m l (mapped e.2 (Str h) (query_result env i (Collector.query e.2))).
Proof.
  unfold SequentialRoute.measure_run. cbv zeta.
  rewrite sets_to_samples, samples_app, sequential_measure_samples.
  by destruct (query_result env i (Collector.query e.2)).
Qed.

Lemma task_sets m l env i tg e :
  sets_to m l (measure_start (task i tg e) ++ measure_settle env (task i tg e))
  = samples m l (mapped e.2 (Str (server tg)) (query_result env i (Collector.query e.2))).
Proof.
  rewrite sets_to_app. unfold measure_start, measure_settle, outcome, task.
  cbn [collector entry host target]. rewrite !sets_to_samples.
  rewrite (samples_cons m l _ (effects _)), concurrent_measure_samples.
  by destruct (query_result env i (Collector.query e.2)).
Qed.

Lemma mapped_sample ext n c h outcome m l v :
  (n, c) ∈ getMetrics ext →
  GaugeSet m l v ∈ mapped c (Str h) outcome →
  ∃ rows, outcome = inr rows ∧ m ∈ gauge_names c ∧
          assoc "host" l = Some (Str h) ∧ provenance ext n rows v.
Proof.
  intros Hin Hset. destruct outcome as [e|[|row rows]];
    [by apply elem_of_nil in Hset..|].
  pose proof (catalogue_emits ext n c (row :: rows) (Str h) Hin) as He.
  unfold emits in He. rewrite Forall_forall in He.
  apply He in Hset as (? & ? & ?). by exists (row :: rows).
Qed.

Lemma elem_of_samples m l v es : v ∈ samples m l es ↔ GaugeSet m l v ∈ es.
Proof.
  unfold samples. rewrite list_elem_of_omap. split.
  - intros (e & Hin & He). destruct e; try done.
    destruct (decide _) as [[-> ->]|]; [|done]. by injection He as ->.
  - intros Hin. exists (GaugeSet m l v). split; [done|]. by rewrite decide_True.
Qed.

Lemma filter_Forall_id {A} (P : A → Prop) `{!∀ x, Decision (P x)} (l : list A) :
  Forall P l → filter P l = l.
Proof.
  induction 1 as [|x l Hx _ IH]; [done|].
  by rewrite filter_cons, decide_True, IH.
Qed.

Lemma filter_Forall_nil {A} (P : A → Prop) `{!∀ x, Decision (P x)} (l : list A) :
  Forall (λ x, ¬ P x) l → filter P l = [].
Proof.
  induction 1 as [|x l Hx _ IH]; [done|].
  by rewrite filter_cons, decide_False, IH.
Qed.

Section SequentialSets.
Context (ext : Externals) (env : Env) (close_result : nat → option Exn).
Context (targets : list Target).

(** Who sets a sample during the turn of a target, and which. *)
Lemma turn_writer i t a m l v :
  (a, GaugeSet m l v) ∈ turn ext env close_result i t →
  assoc "host" l = Some (Str (server t)) ∧
  (a = OnTarget i ∧ m = "mssql_up" ∧ l = [("host", Str (server t))] ∧ v = Number 0 ∧
   (connect_result env i ≠ None ∨ close_result i ≠ None) ∨
   ∃ n c rows, a = OnTask i n ∧ connect_result env i = None ∧
               (n, c) ∈ getMetrics ext ∧
               query_result env i (Collector.query c) = inr rows ∧
               m ∈ gauge_names c ∧ provenance ext n rows v).
Proof.
  unfold turn. rewrite iteration_catalogue. cbn [fst].
  assert (∀ (cond : Prop), cond →
            (a, GaugeSet m l v) ∈ marked_down i t →
            assoc "host" l = Some (Str (server t)) ∧
            (a = OnTarget i ∧ m = "mssql_up" ∧ l = [("host", Str (server t))] ∧
             v = Number 0 ∧ cond ∨
             ∃ n c rows, a = OnTask i n ∧ connect_result env i = None ∧
                         (n, c) ∈ getMetrics ext ∧
                         query_result env i (Collector.query c) = inr rows ∧
                         m ∈ gauge_names c ∧ provenance ext n rows v)) as Hdown.
  { intros cond Hcond [-> Hin]%elem_of_acting.
    apply elem_of_cons in Hin as [?|Hin]; [done|].
    apply list_elem_of_singleton in Hin as [= -> -> ->]. split; [done|]. by left. }
  intros [Hin|Hin]%elem_of_app.
  { apply elem_of_acting in Hin as [_ Hin].
    by repeat (apply elem_of_cons in Hin as [?|Hin]; [done|]); apply elem_of_nil in Hin. }
  destruct (connect_result env i) as [err|] eqn:Hc.
  { apply elem_of_cons in Hin as [?|Hin]; [done|].
    eapply Hdown; [|done]. by left. }
  apply elem_of_cons in Hin as [?|Hin]; [done|].
  apply elem_of_app in Hin as [Hin|Hin].
  - apply list_elem_of_bind in Hin as ([n c] & Hin & He).
    unfold SequentialRoute.measure_run in Hin. cbv zeta in Hin.
    apply elem_of_acting in Hin as [-> Hin]. cbn [fst snd] in Hin.
    apply elem_of_app in Hin as [Hin|Hin].
    { repeat (apply elem_of_cons in Hin as [?|Hin]; [done|]).
      apply list_elem_of_singleton in Hin. by destruct (query_result env i _). }
    apply elem_of_samples in Hin. rewrite sequential_measure_samples in Hin.
    apply elem_of_samples in Hin.
    destruct (mapped_sample ext n c _ _ _ _ _ He Hin) as (rows & ? & ? & ? & ?).
    split; [done|]. right. by exists n, c, rows.
  - apply elem_of_cons in Hin as [?|Hin]; [done|].
    destruct (close_result i) as [err|] eqn:Hcl; [|by apply elem_of_nil in Hin].
    eapply Hdown; [|done]. by right.
Qed.

Lemma filter_turns (f : nat → Target → Trace) l base i t :
  (∀ k t', Forall (on_target (base + k)) (f k t')) →
  l !! i = Some t →
  filter (on_target (base + i)) (mjoin (imap f l)) = f i t.
Proof.
  revert f base i. induction l as [|t0 rest IH]; intros f base i Hf Hi; [done|].
  change (mjoin (imap f (t0 :: rest))) with (f 0 t0 ++ mjoin (imap (f ∘ S) rest)).
  rewrite filter_app. destruct i as [|i].
  - injection Hi as ->. rewrite Nat.add_0_r.
    rewrite filter_Forall_id.
    2:{ pose proof (Hf 0 t) as H0. by rewrite Nat.add_0_r in H0. }
    rewrite filter_Forall_nil; [by rewrite app_nil_r|].
    apply Forall_forall. intros ev (k & t' & _ & Hin)%elem_of_turns Hon.
    pose proof (Hf (S k) t') as Hk. rewrite Forall_forall in Hk.
    pose proof (on_target_inj _ _ _ (Hk _ Hin) Hon). lia.
  - rewrite filter_Forall_nil.
    2:{ pose proof (Hf 0 t0) as H0. rewrite Nat.add_0_r in H0.
        eapply Forall_impl; [exact H0|]. intros ev H1 H2.
        pose proof (on_target_inj _ _ _ H1 H2). lia. }
    replace (base + S i) with (S base + i) by lia.
    apply (IH (f ∘ S) (S base) i); [|done].
    intros k t'. replace (S base + k) with (base + S k) by lia. apply Hf.
Qed.

(** With one target per host, a series labelled with the host of target
    [i] receives its samples during the turn of that target. *)
Lemma sequential_sets_turn ms i t m l :
  NoDup (server <$> targets) → targets !! i = Some t →
  assoc "host" l = Some (Str (server t)) →
  sets_to m l (SequentialRoute.metrics_route ext env close_result targets ms).1
  = sets_to m l (turn ext env close_result i t).
Proof.
  intros Hnd Hi Hl. rewrite route_trace. cbv zeta. cbn [fst].
  rewrite sets_to_app, (sets_to_acting _ _ Handler), app_nil_r.
  rewrite (sets_to_filter m l (on_target i)).
  - f_equal. apply (filter_turns (turn ext env close_result) targets 0 i t); [|done].
    intros k t'. apply turn_on_target.
  - intros [a e] (k & t' & Hk & Hin)%elem_of_turns [v He]. simpl in He. subst e.
    destruct (turn_writer _ _ _ _ _ _ Hin) as [Hl' _].
    rewrite Hl in Hl'. injection Hl' as Hs.
    assert (i = k) as -> by by eapply same_host_same_target.
    pose proof (turn_on_target ext env close_result k t') as Hon.
    rewrite Forall_forall in Hon. by apply Hon.
Qed.

End SequentialSets.

Lemma sets_to_bind {A} m l (f : A → Trace) (xs : list A) :
  sets_to m l (xs ≫= f) = xs ≫= λ x, sets_to m l (f x).
Proof.
  induction xs as [|x xs IH]; [done|].
  by rewrite !bind_cons, sets_to_app, IH.
Qed.

Lemma bind_single {A B} (f : A → list B) (xs : list A) x :
  x ∈ xs → (∀ y, y ∈ xs → y ≠ x → f y = []) → NoDup xs → xs ≫= f = f x.
Proof.
  induction xs as [|y xs IH]; intros Hx Hf Hnd; [by apply elem_of_nil in Hx|].
  apply NoDup_cons in Hnd as [Hy Hnd]. rewrite bind_cons.
  apply elem_of_cons in Hx as [->|Hx].
  - rewrite (bind_nil_all xs f); [by rewrite app_nil_r|].
    intros z Hz. apply Hf; [by apply list_elem_of_further|]. by intros ->.
  - rewrite (Hf y); [|apply list_elem_of_here|by intros ->].
    simpl. apply IH; [done| |done].
    intros z Hz Hne. apply Hf; [by apply list_elem_of_further|done].
Qed.

Lemma catalogue_NoDup ext : NoDup (getMetrics ext).
Proof. eapply NoDup_fmap_1, catalogue_keys_NoDup. Qed.

(** Only the collector that owns a metric sets samples on it. *)
Lemma owner_samples ext n c e h outcome m l :
  (n, c) ∈ getMetrics ext → e ∈ getMetrics ext → m ∈ gauge_names c →
  e ≠ (n, c) → samples m l (mapped e.2 (Str h) outcome) = [].
Proof.
  intros Hc He Hm Hne.
  destruct (samples m l (mapped e.2 (Str h) outcome)) as [|v vs] eqn:Hs; [done|].
  assert (v ∈ samples m l (mapped e.2 (Str h) outcome)) as Hv
    by (rewrite Hs; apply list_elem_of_here).
  apply elem_of_samples in Hv. destruct e as [n' c'].
  destruct (mapped_sample ext n' c' _ _ _ _ _ He Hv) as (_ & _ & Hm' & _).
  destruct Hne.
  exact (bind_owner (λ e, gauge_names e.2) _ _ _ m
           (catalogue_names_NoDup ext) He Hc Hm' Hm).
Qed.

Section SequentialReadings.
Context (ext : Externals) (env : Env) (close_result : nat → option Exn).
Context (targets : list Target).

Lemma collect_sets m l i h n c :
  (n, c) ∈ getMetrics ext → m ∈ gauge_names c →
  sets_to m l (getMetrics ext ≫= SequentialRoute.measure_run env i h)
  = samples m l (mapped c (Str h) (query_result env i (Collector.query c))).
Proof.
  intros Hc Hm. rewrite sets_to_bind.
  rewrite (bind_single _ _ (n, c)); [apply measure_run_sets|done| |apply catalogue_NoDup].
  intros e He Hne. rewrite measure_run_sets. by eapply owner_samples.
Qed.

Lemma marked_down_sets m l i t :
  sets_to m l (marked_down i t)
  = if decide ("mssql_up" = m ∧ [("host", Str (server t))] = l) then [Number 0] else [].
Proof.
  unfold marked_down. rewrite sets_to_samples. unfold samples. cbn [omap list_omap].
  by destruct (decide _).
Qed.

Lemma turn_sets m l i t :
  sets_to m l (turn ext env close_result i t) =
  match connect_result env i with
  | Some _ => sets_to m l (marked_down i t)
  | None =>
      sets_to m l (getMetrics ext ≫= SequentialRoute.measure_run env i (server t)) ++
      match close_result i with
      | Some _ => sets_to m l (marked_down i t)
      | None => []
      end
  end.
Proof.
  unfold turn. rewrite iteration_catalogue. cbn [fst].
  rewrite sets_to_app, sets_to_samples.
  destruct (connect_result env i); [by rewrite sets_to_app|].
  rewrite !sets_to_app. by destruct (close_result i).
Qed.

End SequentialReadings.

(** X15. First revision, one target per host: [mssql_up{host}] reads 0
    when the connection failed to open and also when it opened but
    [connection.close()] rejected, whatever the probe returned; when the
    close succeeds it reads what it reads in the second revision. *)
Theorem first_revision_up_reading ext env close_result targets ms i t :
  targets !! i = Some t →
  NoDup (server <$> targets) →
  let after := replay (SequentialRoute.metrics_route ext env close_result targets ms).1 ms in
  (connect_result env i ≠ None ∨ close_result i ≠ None →
   observe after "mssql_up" [("host", Str (server t))] = Some (Number 0)) ∧
  (close_result i = None → up_reading ext env ms i t after).
Proof.
  intros Hi Hnd after. unfold up_reading, after. cbv zeta.
  rewrite observe_replay, (sequential_sets_turn _ _ _ _ _ i t) by done.
  rewrite turn_sets, marked_down_sets, decide_True by done.
  rewrite (collect_sets _ _ _ _ _ _ "mssql_up" (mssql_up ext))
    by first [apply mssql_up_entry|apply list_elem_of_here].
  cbn [Collector.query mssql_up]. split.
  - intros Hdown. destruct (connect_result env i); [done|].
    destruct (close_result i); [by rewrite last_snoc|]. by destruct Hdown.
  - intros ->. destruct (connect_result env i); [done|]. rewrite app_nil_r.
    destruct (query_result env i "SELECT 1") as [err|[|row rows]]; [done|done|].
    rewrite <- (concurrent_measure_samples _ _ _ "mssql_up"), mssql_up_measure.
    unfold samples. destruct (accepts ext (cell row 0)); simpl; [|done].
    by rewrite decide_True.
Qed.

Section Agreement.
Context (ext : Externals) (env : Env) (sched : Schedule).
Context (targets : list Target) (ms : MetricSpace).

Let first : Trace := (SequentialRoute.metrics_route ext env (λ _, None) targets ms).1.
Let second : Trace := (metrics_route ext env sched targets ms).1.

Lemma first_writer a m l v :
  (a, GaugeSet m l v) ∈ first → writer ext env targets m l v a.
Proof.
  unfold first. rewrite route_trace. cbv zeta. cbn [fst].
  intros [Hin|Hin]%elem_of_app.
  - apply elem_of_turns in Hin as (i & t & Hi & Hin).
    apply turn_writer in Hin as [Hl [(-> & -> & -> & -> & Hc)|(n & c & rows & -> & Hc & Hn & Hq & Hm & Hv)]].
    + destruct Hc as [Hc|Hc]; [|done].
      destruct (connect_result env i) as [e|] eqn:He; [|done].
      by eapply writer_down.
    + by eapply writer_collector.
  - apply elem_of_acting in Hin as [_ Hin].
    by repeat (apply elem_of_cons in Hin as [?|Hin]; [done|]); apply elem_of_nil in Hin.
Qed.

Lemma agree_on_written a m l v :
  NoDup (server <$> targets) →
  writer ext env targets m l v a →
  sets_to m l first = sets_to m l second.
Proof.
  intros Hnd Hw.
  rewrite (sets_to_of_actor m l a second).
  2:{ intros [a' e'] Hin' [v' He']. simpl in *. subst e'.
      eapply writer_unique; [done| |done]. by eapply route_writer. }
  destruct Hw as [i tg e Ht Hc -> -> ->|i tg n c rows Ht Hc Hn Hq Hm Hl Hv].
  - unfold first. rewrite (sequential_sets_turn _ _ _ _ _ i tg) by done.
    rewrite turn_sets, Hc, marked_down_sets, decide_True by done.
    unfold second. rewrite (route_branch _ _ _ _ _ i tg Ht), Hc, sets_to_acting.
    simpl. by rewrite decide_True.
  - unfold first. rewrite (sequential_sets_turn _ _ _ _ _ i tg) by done.
    rewrite turn_sets, Hc, app_nil_r, (collect_sets _ _ _ _ _ _ n c) by done.
    unfold second. rewrite (route_entry _ _ _ _ _ i tg (n, c) Ht Hc Hn).
    by rewrite task_sets.
Qed.

Lemma agree_sets m l :
  NoDup (server <$> targets) → sets_to m l first = sets_to m l second.
Proof.
  intros Hnd.
  destruct (decide (Exists (writes m l) first)) as [H1|H1].
  { apply Exists_exists in H1 as ([a e] & Hin & v & He). simpl in He. subst e.
    eapply agree_on_written; [done|]. by eapply first_writer. }
  destruct (decide (Exists (writes m l) second)) as [H2|H2].
  { apply Exists_exists in H2 as ([a e] & Hin & v & He). simpl in He. subst e.
    eapply agree_on_written; [done|]. by eapply route_writer. }
  rewrite !sets_to_nil; [done|..]; intros ev Hev Hw.
  - apply H2, Exists_exists. eauto.
  - apply H1, Exists_exists. eauto.
Qed.

End Agreement.

(** X16. With one target per host and connections that close without
    error, the two revisions of the orchestrator leave every series with
    the same reading, whatever the order in which the queries settle in
    the second revision. *)
Theorem revisions_agree ext env sched targets ms m l :
  NoDup (server <$> targets) →
  observe (replay (SequentialRoute.metrics_route ext env (λ _, None) targets ms).1 ms) m l
  = observe (replay (metrics_route ext env sched targets ms).1 ms) m l.
Proof.
  intros Hnd. rewrite !observe_replay. by rewrite (agree_sets ext env sched targets ms m l).
Qed.

Lemma elem_of_acting' a l ev : ev ∈ acting a l → ev.1 = a ∧ ev.2 ∈ l.
Proof. destruct ev as [b e]. apply elem_of_acting. Qed.

Section Queries.
Context (ext : Externals) (env : Env) (sched : Schedule).
Context (targets : list Target) (ms : MetricSpace).

Let tr : Trace := (metrics_route ext env sched targets ms).1.

(** The queries among the effects of a settled measure: none. *)
Lemma measure_no_query n c h outcome sql :
  (n, c) ∈ getMetrics ext → Query sql ∉ effects (measure c n (Str h) outcome).
Proof.
  intros Hin. destruct (concurrent_measure_effects c n (Str h) outcome) as (log & -> & Hlog).
  rewrite !not_elem_of_app. repeat split.
  - intros Hq. pose proof (mapped_calm ext n c (Str h) outcome Hin) as Hc.
    rewrite Forall_forall in Hc. by apply Hc in Hq.
  - intros Hq. rewrite Forall_forall in Hlog. by apply Hlog in Hq.
  - by intros [=]%list_elem_of_singleton.
Qed.

Lemma route_query a sql :
  (a, Query sql) ∈ tr →
  ∃ i tg e, a = OnTask i e.1 ∧ targets !! i = Some tg ∧ connect_result env i = None ∧
            e ∈ getMetrics ext ∧ sql = Collector.query e.2 ∧
            of_actor a tr = measure_start (task i tg e) ++ measure_settle env (task i tg e).
Proof.
  intros Hin.
  assert ((a, Query sql) ∈ of_actor a tr) as Ha by by apply elem_of_of_actor.
  destruct a as [|i|i n].
  - unfold tr in Ha. rewrite route_handler in Ha. apply elem_of_acting in Ha as [_ Ha].
    by repeat (apply elem_of_cons in Ha as [?|Ha]; [done|]); apply elem_of_nil in Ha.
  - destruct (targets !! i) as [tg|] eqn:Ht.
    + unfold tr in Ha. rewrite (route_branch _ _ _ _ _ i tg Ht) in Ha.
      apply elem_of_acting in Ha as [_ Ha].
      apply elem_of_app in Ha as [Ha|Ha].
      { by repeat (apply elem_of_cons in Ha as [?|Ha]; [done|]); apply elem_of_nil in Ha. }
      destruct (connect_result env i);
        by repeat (apply elem_of_cons in Ha as [?|Ha]; [done|]); apply elem_of_nil in Ha.
    + unfold tr, metrics_route in Ha.
      rewrite (scrape_no_branch ext env sched (getMetrics ext) (route_hup ext)) in Ha.
      * by apply elem_of_nil in Ha.
      * by apply lookup_ge_None.
  - destruct (targets !! i) as [tg|] eqn:Ht;
      [|unfold tr in Ha; rewrite route_idle in Ha by auto; by apply elem_of_nil in Ha].
    destruct (connect_result env i) as [e|] eqn:Hc;
      [unfold tr in Ha; rewrite route_idle in Ha by (right; left; congruence);
       by apply elem_of_nil in Ha|].
    destruct (decide (n ∈ (getMetrics ext).*1)) as [Hn|Hn];
      [|unfold tr in Ha; rewrite route_idle in Ha by auto; by apply elem_of_nil in Ha].
    apply list_elem_of_fmap in Hn as ([n' c] & -> & Hn).
    pose proof (route_entry ext env sched targets ms i tg (n', c) Ht Hc Hn) as Hproj.
    fold tr in Hproj. rewrite Hproj in Ha.
    exists i, tg, (n', c). repeat split; try done.
    apply elem_of_app in Ha as [Ha|Ha].
    + apply elem_of_acting in Ha as [_ Ha]. simpl in Ha.
      apply elem_of_cons in Ha as [?|Ha]; [done|].
      by apply list_elem_of_singleton in Ha as [= ->].
    + apply elem_of_acting in Ha as [_ Ha]. simpl in Ha.
      apply elem_of_cons in Ha as [Ha|Ha].
      { unfold outcome in Ha. simpl in Ha. by destruct (query_result env i _). }
      by apply measure_no_query in Ha.
Qed.

End Queries.

(** X7. Second revision: every query issued during a scrape is the query
    of a returned collector on a target whose connection opened; it is
    issued once, and its measure resolves during the scrape. *)
Theorem queries_are_catalogue_queries ext env sched targets ms a sql :
  let tr := (metrics_route ext env sched targets ms).1 in
  (a, Query sql) ∈ tr →
  (∃ i tg e, a = OnTask i e.1 ∧ targets !! i = Some tg ∧ connect_result env i = None ∧
             e ∈ getMetrics ext ∧ sql = Collector.query e.2) ∧
  length (filter (λ ev, ev = (a, Query sql)) tr) = 1 ∧
  (a, Resolve) ∈ tr.
Proof.
  intros tr Hin.
  destruct (route_query ext env sched targets ms a sql Hin)
    as (i & tg & e & -> & Ht & Hc & He & -> & Hproj).
  split; [by exists i, tg, e|].
  split.
  - rewrite <- (filter_filter_l _ (λ ev, ev.1 = OnTask i e.1)) by by intros ? ->.
    fold (of_actor (OnTask i e.1) tr). unfold tr. rewrite Hproj.
    rewrite filter_app.
    rewrite (filter_Forall_nil _ (measure_settle env (task i tg e))).
    + unfold measure_start, task. cbn [collector entry target acting fmap list_fmap].
      rewrite !filter_cons, filter_nil. rewrite decide_False by done.
      by rewrite decide_True.
    + apply Forall_forall. intros ev [_ Hev]%elem_of_acting' ->.
      simpl in Hev. unfold outcome in Hev. cbn [collector target] in Hev.
      apply elem_of_cons in Hev as [Hev|Hev].
      { cbn [task target collector] in Hev.
        by destruct (query_result env i (Collector.query e.2)). }
      destruct e as [n c]. by apply (measure_no_query ext n c) in Hev.
  - apply (elem_of_of_actor (OnTask i e.1)). unfold tr. rewrite Hproj.
    rewrite elem_of_app. right. apply elem_of_acting. split; [done|].
    apply list_elem_of_further, measure_resolves.
Qed.

(** X8. Second revision: [mssql_most_wait_query], which [getMetrics]
    constructs but does not return, never runs: its query is never
    issued and [mssql_sum_total_wait_ms] is never set. *)
Theorem unreturned_collector_never_runs ext env sched targets ms a :
  let tr := (metrics_route ext env sched targets ms).1 in
  ((a, Query (Collector.query (mssql_most_wait_query ext))) ∉ tr) ∧
  ∀ l v, (a, GaugeSet "mssql_sum_total_wait_ms" l v) ∉ tr.
Proof.
  intros tr. split.
  - intros Hin.
    destruct (route_query ext env sched targets ms a _ Hin)
      as (i & tg & e & _ & _ & _ & He & Hq & _).
    assert (Collector.query (mssql_most_wait_query ext) ∉
            (λ e, Collector.query e.2) <$> getMetrics ext) as Hn
      by (apply (bool_decide_unpack _); by vm_compute).
    apply Hn. rewrite Hq.
    by apply (list_elem_of_fmap_2 (λ e : string * Collector.t, Collector.query e.2)).
  - intros l v Hin. apply route_writer, writer_host in Hin
      as (i & tg & _ & _ & [(_ & _ & [=])|(n & c & _ & _ & Hn & Hm)]).
    assert ("mssql_sum_total_wait_ms" ∉ getMetrics ext ≫= λ e, gauge_names e.2) as Hno
      by (apply (bool_decide_unpack _); by vm_compute).
    apply Hno. apply list_elem_of_bind. by exists (n, c).
Qed.

(** X9. Second revision: the response is the last thing the handler does.
    When it is sent, the measure of every query issued has resolved and
    every connection opened has been closed; nothing was sent before. *)
Theorem response_sent_last ext env sched targets ms :
  let run := metrics_route ext env sched targets ms in
  ∃ tr, run.1 = tr ++ [(Handler, Debug "app" "Successfully processed /metrics request");
                       (Handler, Send (render ext (replay run.1 ms)))] ∧
        (∀ a sql, (a, Query sql) ∈ tr → (a, Resolve) ∈ tr) ∧
        (∀ i, (OnTarget i, Connected) ∈ tr → (OnTarget i, Close) ∈ tr) ∧
        (∀ body, (Handler, Send body) ∉ tr).
Proof.
  intros run. unfold run, metrics_route.
  destruct (scrape_responds ext env sched (getMetrics ext) (route_hup ext) targets ms)
    as (st & HInv & _ & Hrun).
  fold (metrics_route ext env sched targets ms) in Hrun |- *.
  rewrite Hrun. cbn [fst]. exists (trace st).
  assert (∀ ev, ev.1 ≠ Handler →
            ev ∈ (metrics_route ext env sched targets ms).1 → ev ∈ trace st) as Hback.
  { intros ev Hne. rewrite Hrun. cbn [fst]. intros [?|Hin]%elem_of_app; [done|].
    destruct ev as [a e]. by apply elem_of_acting in Hin as [-> _]. }
  assert (∀ ev, ev ∈ trace st → ev ∈ (metrics_route ext env sched targets ms).1) as Hfwd.
  { intros ev Hin. rewrite Hrun. cbn [fst]. apply elem_of_app. by left. }
  split; [by rewrite replay_app|]. split; [|split].
  - intros a sql Hin. apply Hfwd in Hin.
    destruct (route_query ext env sched targets ms a sql Hin)
      as (i & tg & e & -> & _ & _ & _ & _ & Hproj).
    apply Hback; [done|]. apply (elem_of_of_actor (OnTask i e.1)). rewrite Hproj.
    rewrite elem_of_app. right. apply elem_of_acting. split; [done|].
    apply list_elem_of_further, measure_resolves.
  - intros i Hin. apply Hfwd in Hin.
    assert ((OnTarget i, Connected) ∈
            of_actor (OnTarget i) (metrics_route ext env sched targets ms).1) as Ha
      by by apply elem_of_of_actor.
    apply Hback; [done|]. apply (elem_of_of_actor (OnTarget i)).
    destruct (targets !! i) as [tg|] eqn:Ht.
    + rewrite (route_branch _ _ _ _ _ i tg Ht) in Ha |- *.
      apply elem_of_acting in Ha as [_ Ha]. apply elem_of_acting. split; [done|].
      apply elem_of_app in Ha as [Ha|Ha].
      { by repeat (apply elem_of_cons in Ha as [?|Ha]; [done|]); apply elem_of_nil in Ha. }
      destruct (connect_result env i).
      * by repeat (apply elem_of_cons in Ha as [?|Ha]; [done|]); apply elem_of_nil in Ha.
      * apply elem_of_app. right. apply list_elem_of_further, list_elem_of_here.
    + unfold metrics_route in Ha.
      rewrite (scrape_no_branch ext env sched (getMetrics ext) (route_hup ext)) in Ha.
      * by apply elem_of_nil in Ha.
      * by apply lookup_ge_None.
  - intros body Hin.
    assert ((Handler, Send body) ∈ of_actor Handler (trace st)) as Ha
      by by apply elem_of_of_actor.
    rewrite (inv_handler _ _ _ _ _ _ HInv) in Ha.
    by apply list_elem_of_singleton in Ha.
Qed.

Section Batches.
Context (ext : Externals) (env : Env) (sched : Schedule).
Context (entries : list (string * Collector.t)).

Lemma extends_refl st : extends st st.
Proof. exists []. by rewrite app_nil_r. Qed.

Lemma extends_trans st1 st2 st3 : extends st1 st2 → extends st2 st3 → extends st1 st3.
Proof. intros [X HX] [Y HY]. exists (X ++ Y). by rewrite HY, HX, app_assoc. Qed.

Lemma extends_app st st' X : trace st' = trace st ++ X → extends st st'.
Proof. by exists X. Qed.

Lemma finally_extends i st : extends st (finally env i st).
Proof. unfold finally. destruct (waiting env i st); [apply extends_refl|by eexists]. Qed.

Lemma settle_extends st k : extends st (settle env st k).
Proof.
  unfold settle. destruct (pending st !! k) as [t|]; [|apply extends_refl].
  eapply extends_trans; [|apply finally_extends]. by eexists.
Qed.

Lemma settles_extends st picks : extends st (foldl (settle env) st picks).
Proof.
  revert st. induction picks as [|k picks IH]; intros st; [apply extends_refl|].
  simpl. eapply extends_trans; [apply settle_extends|apply IH].
Qed.

Lemma join_extends n picks st : extends st (join env n picks st).
Proof.
  revert picks st. induction n as [|n IH]; intros picks st; [apply extends_refl|].
  simpl. eapply extends_trans; [apply settle_extends|apply IH].
Qed.

Lemma connect_loop_extends i targets st st' r :
  connect_loop ext env sched entries i targets st = (st', r) → extends st st'.
Proof.
  revert i st. induction targets as [|t rest IH]; intros i st.
  { intros [= <- _]. apply extends_refl. }
  cbn [connect_loop]. cbv zeta.
  set (st1 := foldl (settle env) _ _).
  assert (extends st st1) as H1.
  { eapply extends_trans; [|apply settles_extends]. by eexists. }
  destruct (connect_result env i) as [e|].
  - destruct (result _).
    + intros [= <- _]. eapply extends_trans; [exact H1|]. by eexists.
    + intros Hl%IH. eapply extends_trans; [exact H1|].
      eapply extends_trans; [|exact Hl]. by eexists.
  - intros Hl%IH. eapply extends_trans; [exact H1|].
    eapply extends_trans; [|exact Hl]. unfold collect.
    eapply extends_trans; [|apply finally_extends].
    eexists. cbn [trace]. by rewrite <- app_assoc.
Qed.

(** When the connection of a target opens, the queries of all entries are
    issued in one go. *)
Lemma connect_loop_batch i0 targets st st' k tg :
  connect_loop ext env sched entries i0 targets st = (st', None) →
  targets !! k = Some tg → connect_result env (i0 + k) = None →
  ∃ l1 l2, trace st' =
    l1 ++ (OnTarget (i0 + k), Connected) ::
    (tasks_of entries (i0 + k) (server tg) ≫= measure_start) ++ l2.
Proof.
  revert i0 st k. induction targets as [|t rest IH]; intros i0 st k; [done|].
  cbn [connect_loop]. cbv zeta.
  set (st1 := foldl (settle env) _ _).
  destruct k as [|k].
  - intros Hl [= ->]. rewrite Nat.add_0_r. intros Hc. rewrite Hc in Hl.
    apply connect_loop_extends in Hl as [X HX].
    unfold collect in HX. rewrite finally_trace in HX. cbn [trace] in HX.
    eexists (trace st1), _. rewrite HX. rewrite <- !app_assoc. by cbn [app].
  - intros Hl Hk Hc. replace (i0 + S k) with (S i0 + k) in * by lia.
    destruct (connect_result env i0) as [e|].
    + destruct (result _); [done|]. by eapply IH.
    + by eapply IH.
Qed.

End Batches.

(** X6. Second revision: as soon as the connection of a target opens,
    the queries of all returned collectors are issued back to back, in
    catalogue order, before anything else happens. *)
Theorem queries_issued_together ext env sched targets ms i tg :
  targets !! i = Some tg → connect_result env i = None →
  ∃ l1 l2, (metrics_route ext env sched targets ms).1 =
    l1 ++ (OnTarget i, Connected) ::
    (getMetrics ext ≫= λ e, measure_start (task i tg e)) ++ l2.
Proof.
  intros Ht Hc. unfold metrics_route, scrape.
  destruct (connect_loop_Inv ext env sched (getMetrics ext) (route_hup ext) targets []
              initial (Inv_initial ext env (getMetrics ext)))
    as (st & Hloop & _).
  simpl in Hloop. fold initial. rewrite Hloop. cbv zeta.
  rewrite forallb_resolves. cbn [fst].
  destruct (connect_loop_batch ext env sched (getMetrics ext) 0 targets initial st i tg
              Hloop Ht Hc) as (l1 & l2 & Hst).
  destruct (join_extends env (length (pending st)) (while_joining sched) st) as [X HX].
  rewrite HX, Hst. simpl. exists l1. eexists.
  rewrite <- !app_assoc. cbn [app]. by do 2 f_equal.
Qed.

(** X14. First revision: on a target whose connection opened,
    [connection.close()] is called exactly once, after the query of every
    returned collector has been issued and its measure has resolved, and
    no collector does anything on that target afterwards. *)
Theorem first_revision_close_after_collectors ext env close_result targets ms i tg :
  targets !! i = Some tg → connect_result env i = None →
  ∃ l1 l2,
    (SequentialRoute.metrics_route ext env close_result targets ms).1
      = l1 ++ (OnTarget i, Close) :: l2 ∧
    ((OnTarget i, Close) ∉ l1) ∧ ((OnTarget i, Close) ∉ l2) ∧
    (∀ e, e ∈ getMetrics ext →
       (OnTask i e.1, Query (Collector.query e.2)) ∈ l1 ∧
       (OnTask i e.1, Resolve) ∈ l1) ∧
    (∀ n e, (OnTask i n, e) ∉ l2).
Proof.
  intros Ht Hc. rewrite route_trace. cbv zeta. cbn [fst].
  set (tail := acting Handler _).
  destruct (turns_split (turn ext env close_result) targets i tg Ht)
    as (before & after & -> & Hbefore & Hafter).
  unfold turn at 1. rewrite iteration_catalogue. cbn [fst]. rewrite Hc.
  set (start := acting (OnTarget i) _).
  set (work := getMetrics ext ≫= SequentialRoute.measure_run env i (server tg)).
  set (closing := match close_result i with Some _ => marked_down i tg | None => [] end).
  exists (before ++ start ++ [(OnTarget i, Connected)] ++ work), (closing ++ after ++ tail).
  assert (∀ ev, ev ∈ before → ¬ on_target i ev) as Hb.
  { intros ev (k & t' & Hlt & _ & Hin)%Hbefore Hon.
    pose proof (turn_on_target ext env close_result k t') as Hk.
    rewrite Forall_forall in Hk.
    pose proof (on_target_inj _ _ _ (Hk _ Hin) Hon). lia. }
  assert (∀ ev, ev ∈ after → ¬ on_target i ev) as Ha.
  { intros ev (k & t' & Hlt & _ & Hin)%Hafter Hon.
    pose proof (turn_on_target ext env close_result k t') as Hk.
    rewrite Forall_forall in Hk.
    pose proof (on_target_inj _ _ _ (Hk _ Hin) Hon). lia. }
  split; [by rewrite <- !app_assoc|]. split; [|split; [|split]].
  - rewrite !not_elem_of_app. repeat split.
    + intros Hin. by apply (Hb _ Hin).
    + intros [_ Hin]%elem_of_acting.
      by repeat (apply elem_of_cons in Hin as [?|Hin]; [done|]); apply elem_of_nil in Hin.
    + by intros [=]%list_elem_of_singleton.
    + intros (e & Hin & _)%list_elem_of_bind. by apply elem_of_acting in Hin as [? _].
  - rewrite !not_elem_of_app. repeat split.
    + unfold closing, marked_down. destruct (close_result i); [|by intros ?%elem_of_nil].
      intros [_ Hin]%elem_of_acting.
      by repeat (apply elem_of_cons in Hin as [?|Hin]; [done|]); apply elem_of_nil in Hin.
    + intros Hin. by apply (Ha _ Hin).
    + by intros [? _]%elem_of_acting.
  - intros e He. rewrite !elem_of_app. split.
    + right. right. right. apply list_elem_of_bind. exists e. split; [|done].
      destruct (measure_run_split env i (server tg) e) as (d & rest & -> & _).
      apply list_elem_of_further, list_elem_of_here.
    + right. right. right. apply list_elem_of_bind. exists e. split; [|done].
      apply measure_run_resolve.
  - intros n e. rewrite !not_elem_of_app. repeat split.
    + unfold closing, marked_down. destruct (close_result i); [|by intros ?%elem_of_nil].
      by intros [? _]%elem_of_acting.
    + intros Hin. by apply (Ha _ Hin).
    + by intros [? _]%elem_of_acting.
Qed.

Example first_revision_second_target_down :
  (SequentialRoute.metrics_route node second_down never [target_a; target_b] ∅).2
  = Responded "mssql_up{host=a} 1;mssql_up{host=b} 0".
Proof. by vm_compute. Qed.

Example first_revision_close_rejects :
  (SequentialRoute.metrics_route node second_down close_fails_on_first
     [target_a; target_b] ∅).2
  = Responded "mssql_up{host=a} 0;mssql_up{host=b} 0".
Proof. by vm_compute. Qed.

Lemma first_revision_targets_in_turn_witness :
  let tr := (SequentialRoute.metrics_route node unreachable never
               [target_a; target_b] ∅).1 in
  let ev := (OnTarget 1, Debug "app" "Received /metrics request") in
  tr = take 6 tr ++ ev :: drop 7 tr ∧ on_target 1 ev ∧ 0 < 1 ∧
  Forall (λ ev', ¬ on_target 0 ev') (drop 7 tr).
Proof.
  assert ((SequentialRoute.metrics_route node unreachable never [target_a; target_b] ∅).1
          = take 6 (SequentialRoute.metrics_route node unreachable never
                      [target_a; target_b] ∅).1 ++
            (OnTarget 1, Debug "app" "Received /metrics request") ::
            drop 7 (SequentialRoute.metrics_route node unreachable never
                      [target_a; target_b] ∅).1) as Heq by (by vm_compute).
  split; [exact Heq|]. split; [reflexivity|]. split; [lia|].
  exact (first_revision_targets_in_turn node unreachable never [target_a; target_b] ∅
           _ _ _ 0 1 Heq eq_refl (le_n 1)).
Defined.

Lemma first_revision_one_query_at_a_time_witness :
  let tr := (SequentialRoute.metrics_route node probe_and_clock never [target_a] ∅).1 in
  tr = take 6 tr ++ drop 6 tr ∧
  resolved (take 6 tr) ≤ issued (take 6 tr) ≤ S (resolved (take 6 tr)).
Proof.
  assert ((SequentialRoute.metrics_route node probe_and_clock never [target_a] ∅).1
          = take 6 (SequentialRoute.metrics_route node probe_and_clock never [target_a] ∅).1
            ++ drop 6 (SequentialRoute.metrics_route node probe_and_clock never
                         [target_a] ∅).1) as Heq
    by (symmetry; apply take_drop).
  split; [exact Heq|].
  exact (first_revision_one_query_at_a_time node probe_and_clock never [target_a] ∅
           _ _ Heq).
Defined.

Lemma first_revision_catalogue_order_witness :
  let tr := (SequentialRoute.metrics_route node probe_and_clock never [target_a] ∅).1 in
  let e := ("mssql_product_version", mssql_product_version node) in
  tr = take 11 tr ++ (OnTask 0 e.1, Query (Collector.query e.2)) :: drop 12 tr ∧
  getMetrics node = [("mssql_up", mssql_up node)] ++ e :: drop 2 (getMetrics node) ∧
  ∀ e', e' ∈ [("mssql_up", mssql_up node)] → (OnTask 0 e'.1, Resolve) ∈ take 11 tr.
Proof.
  assert ((SequentialRoute.metrics_route node probe_and_clock never [target_a] ∅).1
          = take 11 (SequentialRoute.metrics_route node probe_and_clock never
                       [target_a] ∅).1 ++
            (OnTask 0 "mssql_product_version",
             Query (Collector.query (mssql_product_version node))) ::
            drop 12 (SequentialRoute.metrics_route node probe_and_clock never
                       [target_a] ∅).1) as Heq by (by vm_compute).
  split; [exact Heq|]. split; [reflexivity|].
  exact (first_revision_catalogue_order node probe_and_clock never [target_a] ∅
           _ _ 0 [("mssql_up", mssql_up node)]
           ("mssql_product_version", mssql_product_version node)
           (drop 2 (getMetrics node)) Heq eq_refl).
Defined.

Lemma first_revision_close_after_collectors_witness :
  [target_a] !! 0 = Some target_a ∧ connect_result probe_and_clock 0 = None ∧
  ∃ l1 l2,
    (SequentialRoute.metrics_route node probe_and_clock never [target_a] ∅).1
      = l1 ++ (OnTarget 0, Close) :: l2 ∧
    ((OnTarget 0, Close) ∉ l1) ∧ ((OnTarget 0, Close) ∉ l2) ∧
    (∀ e, e ∈ getMetrics node →
       (OnTask 0 e.1, Query (Collector.query e.2)) ∈ l1 ∧
       (OnTask 0 e.1, Resolve) ∈ l1) ∧
    (∀ n e, (OnTask 0 n, e) ∉ l2).
Proof.
  split; [reflexivity|]. split; [reflexivity|].
  exact (first_revision_close_after_collectors node probe_and_clock never [target_a] ∅
           0 target_a eq_refl eq_refl).
Defined.

Lemma first_revision_up_reading_witness :
  let after := replay (SequentialRoute.metrics_route node second_down close_fails_on_first
                         [target_a; target_b] ∅).1 ∅ in
  [target_a; target_b] !! 0 = Some target_a ∧
  NoDup (server <$> [target_a; target_b]) ∧
  (connect_result second_down 0 ≠ None ∨ close_fails_on_first 0 ≠ None →
   observe after "mssql_up" [("host", Str (server target_a))] = Some (Number 0)) ∧
  (close_fails_on_first 0 = None → up_reading node second_down ∅ 0 target_a after).
Proof.
  assert (NoDup (server <$> [target_a; target_b])) as Hnd
    by (apply (bool_decide_unpack _); vm_compute; exact I).
  split; [reflexivity|]. split; [exact Hnd|].
  exact (first_revision_up_reading node second_down close_fails_on_first
           [target_a; target_b] ∅ 0 target_a eq_refl Hnd).
Defined.

Lemma revisions_agree_witness :
  NoDup (server <$> [target_a; target_b]) ∧
  observe (replay (SequentialRoute.metrics_route node second_down (λ _, None)
                     [target_a; target_b] ∅).1 ∅) "mssql_up" [("host", Str "a")]
  = observe (replay (metrics_route node second_down third_first
                       [target_a; target_b] ∅).1 ∅) "mssql_up" [("host", Str "a")].
Proof.
  assert (NoDup (server <$> [target_a; target_b])) as Hnd
    by (apply (bool_decide_unpack _); vm_compute; exact I).
  split; [exact Hnd|].
  exact (revisions_agree node second_down third_first [target_a; target_b] ∅
           "mssql_up" [("host", Str "a")] Hnd).
Defined.

Lemma queries_are_catalogue_queries_witness :
  let tr := (metrics_route node probe_and_clock fifo [target_a] ∅).1 in
  (OnTask 0 "mssql_up", Query "SELECT 1") ∈ tr ∧
  (∃ i tg e, OnTask 0 "mssql_up" = OnTask i e.1 ∧ [target_a] !! i = Some tg ∧
             connect_result probe_and_clock i = None ∧
             e ∈ getMetrics node ∧ "SELECT 1" = Collector.query e.2) ∧
  length (filter (λ ev, ev = (OnTask 0 "mssql_up", Query "SELECT 1")) tr) = 1 ∧
  (OnTask 0 "mssql_up", Resolve) ∈ tr.
Proof.
  assert ((OnTask 0 "mssql_up", Query "SELECT 1") ∈
          (metrics_route node probe_and_clock fifo [target_a] ∅).1) as Hin
    by (apply (list_elem_of_lookup_2 _ 5); by vm_compute).
  split; [exact Hin|].
  exact (queries_are_catalogue_queries node probe_and_clock fifo [target_a] ∅
           (OnTask 0 "mssql_up") "SELECT 1" Hin).
Defined.

Lemma queries_issued_together_witness :
  [target_a] !! 0 = Some target_a ∧ connect_result probe_and_clock 0 = None ∧
  ∃ l1 l2, (metrics_route node probe_and_clock third_first [target_a] ∅).1 =
    l1 ++ (OnTarget 0, Connected) ::
    (getMetrics node ≫= λ e, measure_start (task 0 target_a e)) ++ l2.
Proof.
  split; [reflexivity|]. split; [reflexivity|].
  exact (queries_issued_together node probe_and_clock third_first [target_a] ∅
           0 target_a eq_refl eq_refl).
Defined.

(** ** The earlier catalogue *)

Lemma get_property_nullish v p :
  get_property v p =
  if nullish v
  then throw (TypeError ("Cannot read properties of " +:+ ToString v +:+
                         " (reading '" +:+ p +:+ "')"))
  else ret Undefined.
Proof. by destruct v. Qed.

(** X17. Earlier catalogue: the mapping function of [mssql_volume_stats]
    never sets a sample.  On a recordset with rows it raises in the first
    turn of its loop: a [TypeError] when one of the first three cells of
    the first row is [null] or missing, otherwise the [ReferenceError] of
    the unbound [debug]. *)
Theorem earlier_volume_stats_sets_nothing ext rows metrics args :
  let m := Collector.collect (EarlierCatalogue.mssql_volume_stats ext) rows metrics args in
  effects m = [] ∧
  match rows with
  | [] => result m = inr tt
  | row :: _ =>
      if nullish (cell row 0) || nullish (cell row 1) || nullish (cell row 2)
      then ∃ msg, result m = inl (TypeError msg)
      else result m = inl (ReferenceError "debug is not defined")
  end.
Proof.
  destruct rows as [|row rest]; [done|].
  cbn [Collector.collect EarlierCatalogue.mssql_volume_stats for_rows].
  rewrite !get_property_nullish.
  destruct (nullish (cell row 0)); [split; [done|by eexists]|].
  destruct (nullish (cell row 1)); [split; [done|by eexists]|].
  destruct (nullish (cell row 2)); [split; [done|by eexists]|].
  done.
Qed.

Example earlier_volume_stats_on_a_volume :
  Collector.collect (EarlierCatalogue.mssql_volume_stats node)
    [[Str "/var/opt/mssql"; Number 100; Number 40]]
    (Collector.metrics (EarlierCatalogue.mssql_volume_stats node)) [Str "a"]
  = ([], inl (ReferenceError "debug is not defined")).
Proof. done. Qed.

(** ** Start-up *)

Lemma split_nonempty sep s : Config.split sep s ≠ [].
Proof. destruct s as [|c s]; [done|]. simpl. destruct (Ascii.eqb c sep); [done|].
  by destruct (Config.split sep s). Qed.

Lemma split_length sep s : length (Config.split sep s) = S (occurrences sep s).
Proof.
  induction s as [|c s IH]; [done|].
  pose proof (split_nonempty sep s) as Hne.
  simpl. destruct (Ascii.eqb c sep); simpl; [by rewrite IH|].
  by destruct (Config.split sep s).
Qed.

(** X18. How [CONNECTION_STRINGS] is cut: there is one piece more than
    there are separators, no piece contains the separator, and the pieces
    joined by the separator give the text back. *)
Theorem connection_strings_split sep s :
  length (Config.split sep s) = S (occurrences sep s) ∧
  String.concat (String sep EmptyString) (Config.split sep s) = s ∧
  Forall (λ piece, contains sep piece = false) (Config.split sep s).
Proof.
  induction s as [|c s (IHl & IHc & IHf)]; [by repeat constructor|].
  pose proof (split_nonempty sep s) as Hne.
  simpl. destruct (Ascii.eqb c sep) eqn:Hc.
  - apply Ascii.eqb_eq in Hc as ->. simpl. rewrite IHl. split; [done|].
    split; [|by constructor].
    destruct (Config.split sep s) as [|p ps] eqn:Hs; [done|].
    by rewrite <- IHc.
  - destruct (Config.split sep s) as [|p ps] eqn:Hs; [done|].
    simpl in *. split; [done|]. split.
    + rewrite <- IHc. by destruct ps.
    + apply Forall_cons in IHf as [Hp Hps]. constructor; [|done].
      simpl. by rewrite Hc.
Qed.

Section ConfigLoad.
Context (parseConnectionString : string → Exn + Target).
Context (parseInt : option string → option Z).

Lemma map_pieces_ok pieces targets :
  Forall2 (λ piece t, parseConnectionString piece = inr t) pieces targets →
  Config.map_pieces parseConnectionString pieces = (parse_log pieces, inr targets).
Proof.
  induction 1 as [|piece t pieces targets Hp _ IH]; [done|].
  cbn [Config.map_pieces]. unfold Config.parse_one, call. rewrite Hp, IH.
  cbn. by rewrite app_nil_r.
Qed.

Lemma map_pieces_fails pre piece post targets e :
  Forall2 (λ piece t, parseConnectionString piece = inr t) pre targets →
  parseConnectionString piece = inl e →
  Config.map_pieces parseConnectionString (pre ++ piece :: post)
  = (parse_log (pre ++ [piece]), inl e).
Proof.
  intros Hpre Hp. induction Hpre as [|p t pre targets Hpt _ IH].
  - cbn [app Config.map_pieces]. unfold Config.parse_one, call. by rewrite Hp.
  - cbn [app Config.map_pieces]. unfold Config.parse_one, call. by rewrite Hpt, IH.
Qed.

Lemma or_default_nonzero n : Config.or_default n ≠ 0%Z.
Proof. unfold Config.or_default. destruct n as [z|]; [|done]. by case_decide. Qed.

Lemma load_nonempty s EXPOSE :
  s ≠ EmptyString →
  Config.load parseConnectionString parseInt (Some s) EXPOSE =
  (connectStrings <- Config.map_pieces parseConnectionString (Config.split Config.bar s) ;;
   ret {| Config.connectStrings := connectStrings;
          Config.port := Config.or_default (parseInt EXPOSE) |}).
Proof. by destruct s. Qed.

End ConfigLoad.

(** X19. Start-up: when every piece of [CONNECTION_STRINGS] parses, the
    configuration has one target per piece, in order, one more than there
    are [|] in the variable; the port is never 0, and it is 4000 when
    [EXPOSE] does not parse as a number. *)
Theorem config_load_ok parseConnectionString parseInt s EXPOSE targets :
  s ≠ EmptyString →
  Forall2 (λ piece t, parseConnectionString piece = inr t)
    (Config.split Config.bar s) targets →
  ∃ config,
    Config.load parseConnectionString parseInt (Some s) EXPOSE
      = (parse_log (Config.split Config.bar s), inr config) ∧
    Config.connectStrings config = targets ∧
    length targets = S (occurrences Config.bar s) ∧
    Config.port config = Config.or_default (parseInt EXPOSE) ∧
    Config.port config ≠ 0%Z ∧
    (parseInt EXPOSE = None → Config.port config = 4000%Z).
Proof.
  intros Hs Hall. eexists. rewrite load_nonempty by done.
  rewrite (map_pieces_ok _ _ _ Hall). cbn [bind ret]. rewrite app_nil_r.
  split; [done|]. cbn [Config.connectStrings Config.port].
  split; [done|]. split.
  - rewrite <- (Forall2_length _ _ _ Hall). apply split_length.
  - split; [done|]. split; [apply or_default_nonzero|]. by intros ->.
Qed.

(** X20. Start-up fails with the exception of the first piece of
    [CONNECTION_STRINGS] that does not parse, and the pieces after it are
    not parsed; it fails with "Missing CONNECTION_STRINGS information"
    when the variable is unset or empty. *)
Theorem config_load_fails parseConnectionString parseInt s EXPOSE pre piece post targets e :
  s ≠ EmptyString →
  Config.split Config.bar s = pre ++ piece :: post →
  Forall2 (λ piece t, parseConnectionString piece = inr t) pre targets →
  parseConnectionString piece = inl e →
  Config.load parseConnectionString parseInt (Some s) EXPOSE
    = (parse_log (pre ++ [piece]), inl e) ∧
  Config.load parseConnectionString parseInt None EXPOSE
    = ([], inl (Error "Missing CONNECTION_STRINGS information")) ∧
  Config.load parseConnectionString parseInt (Some EmptyString) EXPOSE
    = ([], inl (Error "Missing CONNECTION_STRINGS information")).
Proof.
  intros Hs Hsplit Hpre Hp. split; [|done].
  rewrite load_nonempty by done. rewrite Hsplit.
  by rewrite (map_pieces_fails _ _ _ _ _ _ Hpre Hp).
Qed.

Lemma config_load_ok_witness :
  "a|b" ≠ EmptyString ∧
  Forall2 (λ piece t, sample_parse piece = inr t) (Config.split Config.bar "a|b")
    [target_a; target_b] ∧
  ∃ config,
    Config.load sample_parse unset (Some "a|b") None
      = (parse_log (Config.split Config.bar "a|b"), inr config) ∧
    Config.connectStrings config = [target_a; target_b] ∧
    length [target_a; target_b] = S (occurrences Config.bar "a|b") ∧
    Config.port config = Config.or_default (unset None) ∧
    Config.port config ≠ 0%Z ∧
    (unset None = None → Config.port config = 4000%Z).
Proof.
  assert (Forall2 (λ piece t, sample_parse piece = inr t) (Config.split Config.bar "a|b")
            [target_a; target_b]) as Hall by (by repeat constructor).
  split; [done|]. split; [exact Hall|].
  refine (config_load_ok sample_parse unset "a|b" None [target_a; target_b] _ Hall).
  done.
Defined.

Lemma config_load_fails_witness :
  "a||b" ≠ EmptyString ∧
  Config.split Config.bar "a||b" = ["a"] ++ EmptyString :: ["b"] ∧
  Forall2 (λ piece t, sample_parse piece = inr t) ["a"] [target_a] ∧
  sample_parse EmptyString = inl (TypeError "Cannot read properties of undefined (reading 'split')") ∧
  Config.load sample_parse unset (Some "a||b") None
    = (parse_log (["a"] ++ [EmptyString]),
       inl (TypeError "Cannot read properties of undefined (reading 'split')")) ∧
  Config.load sample_parse unset None None
    = ([], inl (Error "Missing CONNECTION_STRINGS information")) ∧
  Config.load sample_parse unset (Some EmptyString) None
    = ([], inl (Error "Missing CONNECTION_STRINGS information")).
Proof.
  assert (Forall2 (λ piece t, sample_parse piece = inr t) ["a"] [target_a]) as Hpre
    by (by repeat constructor).
  split; [done|]. split; [reflexivity|]. split; [exact Hpre|]. split; [reflexivity|].
  refine (config_load_fails sample_parse unset "a||b" None ["a"] EmptyString ["b"] [target_a]
            _ _ eq_refl Hpre eq_refl).
  done.
Defined.

(** ** Both revisions *)



